(** * Reference-tag engine of the workflow editor (sim)

    A shallow embedding of the tag dropdown logic of
    [apps/sim/lib/auth-client.ts] (the [TagDropdown] component and its
    helpers), of the providers store and the file serving route kept
    in the same source file, and of the hook of
    [hooks/use-block-connections.ts] with its helpers
    [parseResponseFormatSafely] and [extractFieldsFromSchema].

    Conventions of the embedding.
    - A JavaScript string is a [string]; a character stands for one code
      unit, so the strings are those whose code units are all below 256.
      On these the white space of [trim] and of [\s] (TAB, LF, VT, FF,
      CR, space and the no-break space) and the mapping of
      [toLowerCase] (A-Z and the capitals of the range 192-222, each to
      the code unit 32 above) are the ones of ECMAScript.
    - A JavaScript number used as an index or a length is a [Z]; the
      sentinel [-1] of [indexOf]/[lastIndexOf] is kept.
    - A plain object ([Record<string, any>]) is an association list in
      the order [Object.entries] yields it; only own properties are
      modelled, except for [groupedTags] of [nestedBlockTagGroups],
      which is indexed by parts of tags: there the names inherited from
      [Object.prototype] are modelled too.
    - A computation that may throw returns a [Completion].
    - External collaborators (block registry, tool registry, sub-block
      store, dynamic output helpers, [JSON.parse]) and the helpers
      imported from modules that are not among the sources
      ([@/lib/response-format], [@/lib/workflows/block-outputs],
      [@/lib/block-path-calculator]) are fields of the class
      [Externals]. *)

From Stdlib Require Import ZArith Lia Ascii String List Bool DecimalString Sorted.
From stdpp Require Import base option list gmap sets strings sorting.
Import ListNotations.

Set Warnings "-register-all".
Local Open Scope string_scope.
Local Open Scope list_scope.
Local Open Scope Z_scope.

(** ** JavaScript strings *)

Module JsString.

Definition len (s : string) : Z := Z.of_nat (String.length s).

(** [s.slice(start, end)] for integer arguments. *)
Definition clampIndex (s : string) (i : Z) : Z :=
  if i <? 0 then Z.max (len s + i) 0 else Z.min i (len s).

Definition slice (s : string) (start stop : Z) : string :=
  let from := clampIndex s start in
  let to := clampIndex s stop in
  substring (Z.to_nat from) (Z.to_nat (Z.max (to - from) 0)) s.

(** [s.slice(start)] *)
Definition sliceFrom (s : string) (start : Z) : string :=
  slice s start (len s).

(** [s.indexOf(c)] for a one-character pattern. *)
Fixpoint indexOf (s : string) (c : ascii) : Z :=
  match s with
  | EmptyString => -1
  | String a r =>
      if Ascii.eqb a c then 0
      else let i := indexOf r c in if i <? 0 then -1 else i + 1
  end.

(** [s.lastIndexOf(c)] for a one-character pattern. *)
Fixpoint lastIndexOf (s : string) (c : ascii) : Z :=
  match s with
  | EmptyString => -1
  | String a r =>
      let i := lastIndexOf r c in
      if i <? 0 then (if Ascii.eqb a c then 0 else -1) else i + 1
  end.

Fixpoint startsWith (s p : string) : bool :=
  match p, s with
  | EmptyString, _ => true
  | String b p', String a s' => Ascii.eqb a b && startsWith s' p'
  | String _ _, EmptyString => false
  end.

(** [s.includes(p)] *)
Fixpoint includes (s p : string) : bool :=
  startsWith s p ||
  match s with
  | EmptyString => false
  | String _ s' => includes s' p
  end.

Fixpoint all (f : ascii -> bool) (s : string) : bool :=
  match s with
  | EmptyString => true
  | String a r => f a && all f r
  end.

(** [c] does not occur in [s]. *)
Definition noChar (c : ascii) (s : string) : bool :=
  all (fun a => negb (Ascii.eqb a c)) s.

Fixpoint filterChars (f : ascii -> bool) (s : string) : string :=
  match s with
  | EmptyString => EmptyString
  | String a r => if f a then String a (filterChars f r) else filterChars f r
  end.

Fixpoint mapChars (f : ascii -> ascii) (s : string) : string :=
  match s with
  | EmptyString => EmptyString
  | String a r => String (f a) (mapChars f r)
  end.

Definition between (lo hi : nat) (c : ascii) : bool :=
  (lo <=? nat_of_ascii c)%nat && (nat_of_ascii c <=? hi)%nat.

Definition isUpper : ascii -> bool := between 65 90.
Definition isLower : ascii -> bool := between 97 122.
Definition isDigit : ascii -> bool := between 48 57.

(** The white space of [\s] and of [trim] below 256: TAB, LF, VT, FF,
    CR, space and the no-break space U+00A0. *)
Definition isSpace (c : ascii) : bool :=
  (nat_of_ascii c =? 32)%nat || between 9 13 c || (nat_of_ascii c =? 160)%nat.

(** The code units below 256 that [toLowerCase] changes: A-Z, and the
    capitals U+00C0-U+00D6 and U+00D8-U+00DE. *)
Definition isCapital (c : ascii) : bool :=
  isUpper c || between 192 214 c || between 216 222 c.

(** Each capital has its small letter 32 above. *)
Definition lowerChar (c : ascii) : ascii :=
  if isCapital c then ascii_of_nat (nat_of_ascii c + 32) else c.

Definition toLowerCase : string -> string := mapChars lowerChar.

(** [s.replace(/\s+/g, '')] *)
Definition stripWhitespace : string -> string :=
  filterChars (fun c => negb (isSpace c)).

Fixpoint trimStart (s : string) : string :=
  match s with
  | EmptyString => EmptyString
  | String a r => if isSpace a then trimStart r else s
  end.

Fixpoint trimEnd (s : string) : string :=
  match s with
  | EmptyString => EmptyString
  | String a r =>
      match trimEnd r with
      | EmptyString => if isSpace a then EmptyString else String a EmptyString
      | r' => String a r'
      end
  end.

Definition trim (s : string) : string := trimEnd (trimStart s).

(** [s.split(c)] for a one-character separator: never empty. *)
Fixpoint split (c : ascii) (s : string) : list string :=
  match s with
  | EmptyString => [EmptyString]
  | String a r =>
      if Ascii.eqb a c then EmptyString :: split c r
      else match split c r with
           | [] => [String a EmptyString]
           | w :: ws => String a w :: ws
           end
  end.

(** [parts.join(sep)] *)
Fixpoint join (sep : string) (parts : list string) : string :=
  match parts with
  | [] => EmptyString
  | [p] => p
  | p :: ps => p +:+ sep +:+ join sep ps
  end.

(** [String(n)] for a non-negative integer. *)
Definition ofNat (n : nat) : string :=
  DecimalString.NilZero.string_of_uint (Nat.to_uint n).

(** The characters of [s] as the entries [["0", s[0]], ["1", s[1]], ...]. *)
Fixpoint chars (s : string) : list string :=
  match s with
  | EmptyString => []
  | String a r => String a EmptyString :: chars r
  end.

End JsString.

(** ** JavaScript values *)

Inductive JsVal : Type :=
| JUndefined
| JNull
| JBool (b : bool)
| JNum (n : Z)
| JStr (s : string)
| JArr (elems : list JsVal)
| JObj (fields : list (string * JsVal)).

(** A completion of a JavaScript computation: a value or a thrown
    exception. *)
Inductive Completion (A : Type) : Type :=
| Normal (a : A)
| Throw (e : JsVal).
Arguments Normal {A} a.
Arguments Throw {A} e.

(** The [TypeError] thrown when a property of [null] or [undefined] is
    read, or when a value that is no function is called. *)
Definition typeError : JsVal := JStr "TypeError".

(** [l.map(f)] for an [f] that may throw: the first exception ends the
    loop. *)
Fixpoint mapCompletion {A B} (f : A -> Completion B) (l : list A) : Completion (list B) :=
  match l with
  | [] => Normal []
  | x :: r =>
      match f x with
      | Throw e => Throw e
      | Normal y =>
          match mapCompletion f r with
          | Throw e => Throw e
          | Normal ys => Normal (y :: ys)
          end
      end
  end.

Module Js.

Definition truthy (v : JsVal) : bool :=
  match v with
  | JUndefined | JNull => false
  | JBool b => b
  | JNum n => negb (n =? 0)
  | JStr s => negb (String.eqb s "")
  | JArr _ | JObj _ => true
  end.

(** [typeof v === 'string'] *)
Definition isString (v : JsVal) : bool :=
  match v with JStr _ => true | _ => false end.

(** [typeof v === 'object' && v !== null] *)
Definition isObject (v : JsVal) : bool :=
  match v with JArr _ | JObj _ => true | _ => false end.

(** [Array.isArray(v)] *)
Definition isArray (v : JsVal) : bool :=
  match v with JArr _ => true | _ => false end.

Fixpoint lookup (k : string) (fs : list (string * JsVal)) : option JsVal :=
  match fs with
  | [] => None
  | (k', v) :: r => if String.eqb k' k then Some v else lookup k r
  end.

(** [v?.[k]] at a key that is neither an array index nor [length]:
    own property of a plain object, [undefined] otherwise. *)
Definition get (v : JsVal) (k : string) : JsVal :=
  match v with
  | JObj fs => default JUndefined (lookup k fs)
  | _ => JUndefined
  end.

(** [k in v] for an object [v], at a key as in [get]. *)
Definition hasKey (k : string) (v : JsVal) : bool :=
  match v with
  | JObj fs => bool_decide (is_Some (lookup k fs))
  | _ => false
  end.

(** Continuation form of [get]: [found] receives the property itself,
    so that a recursive call on it is structurally smaller. *)
Definition withProp {A} (k : string) (found : JsVal -> A) (missing : A)
  : list (string * JsVal) -> A :=
  fix go fs :=
    match fs with
    | [] => missing
    | (k', v) :: r => if String.eqb k' k then found v else go r
    end.

Definition withField {A} (v : JsVal) (k : string) (found : JsVal -> A) (missing : A) : A :=
  match v with
  | JObj fs => withProp k found missing fs
  | _ => missing
  end.

Fixpoint indexed {A} (i : nat) (l : list A) : list (string * A) :=
  match l with
  | [] => []
  | x :: r => (JsString.ofNat i, x) :: indexed (S i) r
  end.

(** [Object.entries(v)]; it throws on [null] and [undefined], which no
    caller passes (they guard with a truthiness test or [|| {}]). *)
Definition entries (v : JsVal) : list (string * JsVal) :=
  match v with
  | JObj fs => fs
  | JArr l => indexed 0 l
  | JStr s => indexed 0 (map JStr (JsString.chars s))
  | _ => []
  end.

(** [o[k] = v] on the entries of a plain object. *)
Fixpoint set (k : string) (v : JsVal) (fs : list (string * JsVal)) : list (string * JsVal) :=
  match fs with
  | [] => [(k, v)]
  | (k', v') :: r => if String.eqb k' k then (k, v) :: r else (k', v') :: set k v r
  end.

(** [v || {}] followed by an object spread or a property read. *)
Definition orEmpty (v : JsVal) : JsVal := if truthy v then v else JObj [].

End Js.

(** ** Data model *)

Module Edge.
Record t := mk { source : string; target : string }.
End Edge.

(** [BlockState]: [name] and [type] are [""] when unset. *)
Module Block.
Record t := mk {
  id : string;
  type : string;
  name : string;
  triggerMode : bool;
  subBlocks : JsVal
}.
End Block.

(** A loop container: [loopType] is [""] when unset. *)
Module Loop.
Record t := mk { nodes : list string; loopType : string }.
End Loop.

Module Parallel.
Record t := mk { nodes : list string; parallelType : string }.
End Parallel.

(** A workflow [Variable] of the variables store. *)
Module WfVariable.
Record t := mk { id : string; name : string; type : string }.
End WfVariable.

(** The part of a [BlockConfig] the tag engine reads:
    [category], [outputs], [triggers?.enabled] and [tools?.config?.tool],
    a function from the operation to a tool id which may throw. *)
Record BlockConfig := {
  category : string;
  outputs : JsVal;
  triggersEnabled : bool;
  tool : option (JsVal -> Completion string)
}.

Record ToolConfig := { toolOutputs : JsVal }.

Record BlockTagGroup := {
  blockName : string;
  blockId : string;
  blockType : string;
  tags : list string;
  distance : nat
}.

Record PathWithType := { path : string; type : string }.

(** The workflow store snapshot read by the component. *)
Record Workflow := {
  blocks : list (string * Block.t);
  edges : list Edge.t;
  loops : list (string * Loop.t);
  parallels : list (string * Parallel.t)
}.

(** External collaborators. *)
Class Externals := {
  (** [getBlock(type)] of the block registry *)
  getBlock : string -> option BlockConfig;
  (** [getTool(toolId)] of the tool registry *)
  getTool : string -> option ToolConfig;
  (** [getBlockOutputPaths(type, subBlocks, triggerMode)] *)
  getBlockOutputPaths : string -> JsVal -> bool -> list string;
  (** [getBlockOutputType(type, path, subBlocks, triggerMode)] *)
  getBlockOutputType : string -> string -> JsVal -> bool -> string;
  (** [useSubBlockStore.getState().getValue(blockId, property)] *)
  getSubBlockValue : string -> string -> JsVal;
  (** [JSON.parse(text)] *)
  JSON_parse : string -> Completion JsVal;
  (** [parseResponseFormatSafely(value, blockId)] of
      [@/lib/response-format], which [TagDropdown] imports: the module
      is not among the sources, so the function is a parameter. *)
  libParseResponseFormatSafely : JsVal -> string -> JsVal;
  (** [extractFieldsFromSchema(responseFormat)] of the same module, a
      parameter too: the [name] of each field it returns, in order. *)
  libExtractFieldNames : JsVal -> list JsVal;
  (** [getBlockOutputs(type, subBlocks, triggerMode)] of
      [@/lib/workflows/block-outputs], a record of outputs *)
  getBlockOutputs : string -> JsVal -> bool -> list (string * JsVal);
  (** [BlockPathCalculator.findAllPathNodes(edges, blockId)] *)
  findAllPathNodes : list Edge.t -> string -> list string
}.

(** [record[key]] on a record kept in entries order. *)
Fixpoint lookupRecord {A} (k : string) (r : list (string * A)) : option A :=
  match r with
  | [] => None
  | (k', v) :: r' => if String.eqb k' k then Some v else lookupRecord k r'
  end.

(** ** Helpers of the tag dropdown *)

Definition checkTagTrigger (text : string) (cursorPosition : Z) : bool :=
  if 1 <=? cursorPosition then
    let textBeforeCursor := JsString.slice text 0 cursorPosition in
    let lastOpenBracket := JsString.lastIndexOf textBeforeCursor "<"%char in
    let lastCloseBracket := JsString.lastIndexOf textBeforeCursor ">"%char in
    if negb (lastOpenBracket =? -1)
       && ((lastCloseBracket =? -1) || (lastCloseBracket <? lastOpenBracket))
    then true
    else false
  else false.

Definition TAG_PREFIXES_VARIABLE : string := "variable.".

Definition normalizeBlockName (blockName : string) : string :=
  JsString.toLowerCase (JsString.stripWhitespace blockName).

Definition normalizeVariableName (variableName : string) : string :=
  JsString.stripWhitespace variableName.

Definition includesTag (tags : list string) (tag : string) : bool :=
  existsb (String.eqb tag) tags.

Definition ensureRootTag (tags : list string) (rootTag : string) : list string :=
  if String.eqb rootTag "" then tags
  else if includesTag tags rootTag then tags
  else rootTag :: tags.

(** [prefix ? `${prefix}.${key}` : key] *)
Definition joinPath (prefix key : string) : string :=
  if String.eqb prefix "" then key else prefix +:+ "." +:+ key.

(** [generateOutputPaths]: [visit] is the body of the loop over
    [Object.entries(outputs)], which are the fields of an object, the
    indexed elements of an array and the indexed characters of a string
    (the legacy branch recurses into whatever object the value is). *)
Fixpoint generateOutputPaths (outputs : JsVal) (prefix : string) {struct outputs} : list string :=
  let visit (key : string) (value : JsVal) : list string :=
    let currentPath := joinPath prefix key in
    if Js.isString value then [currentPath]
    else if Js.isObject value then
      if Js.hasKey "type" value && Js.isString (Js.get value "type")
      then [currentPath]
      else generateOutputPaths value currentPath
    else [currentPath]
  in
  match outputs with
  | JObj fs =>
      (fix loop (fs : list (string * JsVal)) : list string :=
         match fs with
         | [] => []
         | (key, value) :: rest => visit key value ++ loop rest
         end) fs
  | JArr l =>
      (fix loop (i : nat) (l : list JsVal) : list string :=
         match l with
         | [] => []
         | value :: rest => visit (JsString.ofNat i) value ++ loop (S i) rest
         end) 0%nat l
  | JStr s => map (fun e => joinPath prefix (fst e)) (Js.indexed 0 (JsString.chars s))
  | _ => []
  end.

(** [value.type] of an entry in the [{ type, description }] format, when
    ['type' in value && typeof value.type === 'string']. *)
Definition declaredType (value : JsVal) : option string :=
  if Js.hasKey "type" value then
    match Js.get value "type" with
    | JStr t => Some t
    | _ => None
    end
  else None.

(** [generateOutputPathsWithTypes]: as above; the recursive calls on
    [value.items.properties] and [value.properties] go through
    [Js.withField], which reads the same property as [Js.get]. *)
Fixpoint generateOutputPathsWithTypes (outputs : JsVal) (prefix : string) {struct outputs}
  : list PathWithType :=
  let visit (key : string) (value : JsVal) : list PathWithType :=
    let currentPath := joinPath prefix key in
    match value with
    | JStr t => [{| path := currentPath; type := t |}]
    | _ =>
      if Js.isObject value then
        match declaredType value with
        | Some t =>
            if String.eqb t "array" && Js.truthy (Js.get (Js.get value "items") "properties") then
              {| path := currentPath; type := "array" |} ::
              Js.withField value "items" (fun items =>
                Js.withField items "properties" (fun properties =>
                  generateOutputPathsWithTypes properties currentPath) []) []
            else if String.eqb t "object" && Js.truthy (Js.get value "properties") then
              {| path := currentPath; type := "object" |} ::
              Js.withField value "properties" (fun properties =>
                generateOutputPathsWithTypes properties currentPath) []
            else [{| path := currentPath; type := t |}]
        | None => generateOutputPathsWithTypes value currentPath
        end
      else [{| path := currentPath; type := "any" |}]
    end
  in
  match outputs with
  | JObj fs =>
      (fix loop (fs : list (string * JsVal)) : list PathWithType :=
         match fs with
         | [] => []
         | (key, value) :: rest => visit key value ++ loop rest
         end) fs
  | JArr l =>
      (fix loop (i : nat) (l : list JsVal) : list PathWithType :=
         match l with
         | [] => []
         | value :: rest => visit (JsString.ofNat i) value ++ loop (S i) rest
         end) 0%nat l
  | JStr s =>
      map (fun e => {| path := joinPath prefix (fst e); type := snd e |})
          (Js.indexed 0 (JsString.chars s))
  | _ => []
  end.

Section WithExternals.
Context `{Externals}.

Definition generateToolOutputPaths (blockConfig : BlockConfig) (operation : JsVal) : list string :=
  match tool blockConfig with
  | None => []
  | Some toolFn =>
      match toolFn operation with
      | Throw _ => []
      | Normal toolId =>
          if String.eqb toolId "" then []
          else match getTool toolId with
               | None => []
               | Some toolConfig =>
                   if negb (Js.truthy (toolOutputs toolConfig)) then []
                   else generateOutputPaths (toolOutputs toolConfig) ""
               end
      end
  end.

Definition getToolOutputType (blockConfig : BlockConfig) (operation : JsVal) (p : string) : string :=
  match tool blockConfig with
  | None => "any"
  | Some toolFn =>
      match toolFn operation with
      | Throw _ => "any"
      | Normal toolId =>
          if String.eqb toolId "" then "any"
          else match getTool toolId with
               | None => "any"
               | Some toolConfig =>
                   if negb (Js.truthy (toolOutputs toolConfig)) then "any"
                   else
                     let pathsWithTypes := generateOutputPathsWithTypes (toolOutputs toolConfig) "" in
                     match find (fun e => String.eqb (path e) p) pathsWithTypes with
                     | Some matchingPath =>
                         if String.eqb (type matchingPath) "" then "any" else type matchingPath
                     | None => "any"
                     end
               end
      end
  end.

(** [a ?? b] *)
Definition nullish (a b : JsVal) : JsVal :=
  match a with
  | JUndefined | JNull => b
  | _ => a
  end.

(** [chatModeTypes[outputPath] || 'any'] *)
Definition chatModeTypes (outputPath : string) : string :=
  if String.eqb outputPath "input" then "string"
  else if String.eqb outputPath "conversationId" then "string"
  else if String.eqb outputPath "files" then "files"
  else "any".

(** [getOutputTypeForPath], called with the merged sub-blocks.  The
    caller derives [blockConfig] from [block], so [block] is defined
    whenever [blockConfig] is. *)
Definition getOutputTypeForPath (block : option Block.t) (blockConfig : option BlockConfig)
    (blockId : string) (outputPath : string) (mergedSubBlocksOverride : JsVal) : string :=
  let triggerMode := from_option Block.triggerMode false block in
  let enabled := from_option triggersEnabled false blockConfig in
  let blockType := from_option Block.type "" block in
  if triggerMode && enabled then
    getBlockOutputType blockType outputPath mergedSubBlocksOverride true
  else if bool_decide (Block.type <$> block = Some "starter") then
    let startWorkflowValue :=
      nullish (Js.get (Js.get mergedSubBlocksOverride "startWorkflow") "value")
              (getSubBlockValue blockId "startWorkflow") in
    match startWorkflowValue with
    | JStr "chat" => chatModeTypes outputPath
    | _ =>
      let inputFormatValue :=
        nullish (Js.get (Js.get mergedSubBlocksOverride "inputFormat") "value")
                (getSubBlockValue blockId "inputFormat") in
      match inputFormatValue with
      | JArr fields =>
          match find (fun f => match Js.get f "name" with
                               | JStr n => String.eqb n outputPath
                               | _ => false
                               end) fields with
          | Some field =>
              match Js.get field "type" with
              | JStr t => if String.eqb t "" then "any" else t
              | _ => "any"
              end
          | None => "any"
          end
      | _ => "any"
      end
    end
  else if bool_decide (category <$> blockConfig = Some "triggers") then
    getBlockOutputType blockType outputPath mergedSubBlocksOverride false
  else
    let operationValue := getSubBlockValue blockId "operation" in
    match blockConfig with
    | Some cfg =>
        if Js.truthy operationValue then getToolOutputType cfg operationValue outputPath
        else "any"
    | None => "any"
    end.

(** [parseResponseFormatSafely] of [use-block-connections.ts]; the
    [try]/[catch] around [JSON.parse] is the match on its completion. *)
Definition parseResponseFormatSafely (responseFormatValue : JsVal) (blockId : string)
  : Completion JsVal :=
  if negb (Js.truthy responseFormatValue) then Normal JUndefined
  else if Js.isObject responseFormatValue then Normal responseFormatValue
  else match responseFormatValue with
       | JStr s =>
           let trimmedValue := JsString.trim s in
           if JsString.startsWith trimmedValue "<" && JsString.includes trimmedValue ">"
           then Normal (JStr trimmedValue)
           else if String.eqb trimmedValue "" then Normal JUndefined
           else match JSON_parse trimmedValue with
                | Normal v => Normal v
                | Throw _ => Normal JUndefined
                end
       | _ => Normal JUndefined
       end.

(** The field [extractFieldsFromSchema] builds for the property
    [name] of a schema: reading [prop.type] throws a [TypeError] when
    the property is [null] or [undefined]. *)
Definition fieldOfProperty (name : string) (prop : JsVal) : Completion JsVal :=
  match prop with
  | JUndefined | JNull => Throw typeError
  | _ =>
      Normal (JObj [("name", JStr name);
                    ("type", if Js.truthy (Js.get prop "type")
                             then Js.get prop "type" else JStr "string");
                    ("description", Js.get prop "description")])
  end.

(** [extractFieldsFromSchema] of [use-block-connections.ts]. *)
Definition extractFieldsFromSchema (schema : JsVal) : Completion (list JsVal) :=
  if negb (Js.truthy schema) || negb (Js.isObject schema) then Normal []
  else match Js.get schema "fields" with
       | JArr fields => Normal fields
       | _ =>
         let schemaObj :=
           if Js.truthy (Js.get schema "schema") then Js.get schema "schema" else schema in
         let properties := Js.get schemaObj "properties" in
         if negb (Js.truthy properties) || negb (Js.isObject properties) then Normal []
         else mapCompletion (fun e => fieldOfProperty (fst e) (snd e)) (Js.entries properties)
       end.

End WithExternals.

(** ** The component's inputs

    The props of [TagDropdown] together with the store values its hooks
    read: the workflow, the live sub-block values of the active
    workflow, its variables and the accessible prefixes returned by
    [useAccessibleReferencePrefixes(blockId)] (in the iteration order of
    that set, [None] when the hook returns [undefined]). *)
Module Props.
Record t := mk {
  blockId : string;
  activeSourceBlockId : option string;
  inputValue : string;
  cursorPosition : Z;
  workflow : Workflow;
  workflowSubBlockValues : JsVal;
  workflowVariables : list WfVariable.t;
  rawAccessiblePrefixes : option (list string)
}.
End Props.

Module BfsState.
Record t := mk {
  visited : gset string;
  queue : list (string * nat);
  blockDistances : gmap string nat
}.
End BfsState.

Module TagData.
Record t := mk {
  tags : list string;
  variableInfoMap : list (string * (string * string));
  blockTagGroups : list BlockTagGroup
}.
End TagData.

(** [`${v}`]: the string conversion of a template literal. *)
Fixpoint templateString (v : JsVal) : string :=
  match v with
  | JUndefined => "undefined"
  | JNull => "null"
  | JBool true => "true"
  | JBool false => "false"
  | JNum n => if n <? 0 then "-" +:+ JsString.ofNat (Z.to_nat (- n)) else JsString.ofNat (Z.to_nat n)
  | JStr s => s
  | JArr l =>
      JsString.join ","
        (map (fun e => match e with
                       | JUndefined | JNull => ""
                       | _ => templateString e
                       end) l)
  | JObj _ => "[object Object]"
  end.

(** [new Set(xs)] then [Array.from]: first occurrences, in order. *)
Fixpoint uniqueInOrder (seen : gset string) (xs : list string) : list string :=
  match xs with
  | [] => []
  | x :: r =>
      if bool_decide (x ∈ seen) then uniqueInOrder seen r
      else x :: uniqueInOrder ({[x]} ∪ seen) r
  end.

(** [record[k] = v] on a record kept in entries order. *)
Fixpoint setRecord {A} (k : string) (v : A) (r : list (string * A)) : list (string * A) :=
  match r with
  | [] => [(k, v)]
  | (k', v') :: r' => if String.eqb k' k then (k, v) :: r' else (k', v') :: setRecord k v r'
  end.

(** [name || type] *)
Definition displayName (b : Block.t) : string :=
  if String.eqb (Block.name b) "" then Block.type b else Block.name b.

(** [paths.map((path) => `${normalizedBlockName}.${path}`)] *)
Definition prefixPaths (normalizedBlockName : string) (paths : list string) : list string :=
  map (fun p => normalizedBlockName +:+ "." +:+ p) paths.

(** A property declared [string] by its type annotation, when truthy. *)
Definition truthyString (v : JsVal) (k : string) : option string :=
  match Js.get v k with
  | JStr s => if String.eqb s "" then None else Some s
  | _ => None
  end.

(** [Object.keys(outputs).length === 0] behind [!outputs ||]. *)
Definition noOutputs (cfg : BlockConfig) : bool :=
  negb (Js.truthy (outputs cfg)) || (length (Js.entries (outputs cfg)) =? 0)%nat.

(** [blockTagGroups.sort((a, b) => a.distance - b.distance)]: the sort
    is stable, so it is the insertion of each group before the later
    groups that are not closer. *)
Fixpoint insertByDistance (g : BlockTagGroup) (l : list BlockTagGroup) : list BlockTagGroup :=
  match l with
  | [] => [g]
  | h :: r => if (distance g <=? distance h)%nat then g :: l else h :: insertByDistance g r
  end.

Definition sortByDistance (l : list BlockTagGroup) : list BlockTagGroup :=
  foldr insertByDistance [] l.

(** ** Breadth-first distances from the starter block *)

(** [adjList]: for each edge, [adjList[source]] is created empty when
    absent and the target pushed. *)
Definition addEdge (adjList : gmap string (list string)) (edge : Edge.t)
  : gmap string (list string) :=
  let current := default [] (adjList !! Edge.source edge) in
  <[Edge.source edge := current ++ [Edge.target edge]]> adjList.

Definition buildAdjList (es : list Edge.t) : gmap string (list string) :=
  foldl addEdge ∅ es.

(** One iteration of [while (queue.length > 0)]. *)
Definition bfsStep (adjList : gmap string (list string)) (st : BfsState.t) : BfsState.t :=
  match BfsState.queue st with
  | [] => st
  | (currentNodeId, dist) :: rest =>
      if bool_decide (currentNodeId ∈ BfsState.visited st) then
        BfsState.mk (BfsState.visited st) rest (BfsState.blockDistances st)
      else
        let outgoingNodeIds := default [] (adjList !! currentNodeId) in
        BfsState.mk ({[currentNodeId]} ∪ BfsState.visited st)
                    (rest ++ map (fun targetId => (targetId, S dist)) outgoingNodeIds)
                    (<[currentNodeId := dist]> (BfsState.blockDistances st))
  end.

Fixpoint bfsIter (n : nat) (adjList : gmap string (list string)) (st : BfsState.t) : BfsState.t :=
  match n with
  | O => st
  | S n' => bfsIter n' adjList (bfsStep adjList st)
  end.

Definition bfsInit (starterId : string) : BfsState.t :=
  BfsState.mk ∅ [(starterId, 0%nat)] ∅.

(** The loop runs until the queue is empty; [1 + |edges|] iterations
    always empty it ([bfs_terminates]). *)
Definition bfsRun (es : list Edge.t) (starterId : string) : BfsState.t :=
  bfsIter (S (length es)) (buildAdjList es) (bfsInit starterId).

Definition starterBlock (w : Workflow) : option Block.t :=
  find (fun b => String.eqb (Block.type b) "starter") (map snd (blocks w)).

Definition computeBlockDistances (w : Workflow) : gmap string nat :=
  match starterBlock w with
  | Some starter => BfsState.blockDistances (bfsRun (edges w) (Block.id starter))
  | None => ∅
  end.

(** ** The tag computation of [TagDropdown] *)

Section TagDropdown.
Context `{Externals}.
Variable p : Props.t.

Let w := Props.workflow p.

Definition combinedAccessiblePrefixes : list string :=
  match Props.rawAccessiblePrefixes p with
  | None => []
  | Some raw => uniqueInOrder ∅ raw
  end.

Definition getMergedSubBlocks (targetBlockId : string) : JsVal :=
  let base := Js.orEmpty (from_option Block.subBlocks JUndefined
                            (lookupRecord targetBlockId (blocks w))) in
  let live := Js.orEmpty (Js.get (Props.workflowSubBlockValues p) targetBlockId) in
  JObj (foldl (fun merged e =>
                 Js.set (fst e)
                   (JObj (Js.set "value" (snd e)
                            (Js.entries (Js.orEmpty (Js.get base (fst e))))))
                   merged)
              (Js.entries base) (Js.entries live)).

(** [`${...}.input`, `${...}.conversationId`, `${...}.files`] *)
Definition chatTags (normalizedBlockName : string) : list string :=
  prefixPaths normalizedBlockName ["input"; "conversationId"; "files"].

Definition isChat (mergedSubBlocks : JsVal) : bool :=
  match Js.get (Js.get mergedSubBlocks "startWorkflow") "value" with
  | JStr "chat" => true
  | _ => false
  end.

(** The metric tags of an evaluator block, [None] when no metric list
    is configured. *)
Definition metricTags (normalizedBlockName : string) (metricsValue : JsVal) : option (list string) :=
  match metricsValue with
  | JArr ((_ :: _) as metrics) =>
      Some (map (fun n => normalizedBlockName +:+ "." +:+ JsString.toLowerCase n)
                (omap (fun metric => truthyString metric "name") metrics))
  | _ => None
  end.

(** The assignment tags of a variables block. *)
Definition assignmentTags (normalizedBlockName : string) (variablesValue : JsVal) : option (list string) :=
  match variablesValue with
  | JArr ((_ :: _) as assignments) =>
      Some (map (fun n => normalizedBlockName +:+ "." +:+ JsString.trim n)
                (filter (fun n => JsString.trim n <> "")
                        (omap (fun a => truthyString a "variableName") assignments)))
  | _ => None
  end.

(** The input-format tags of a starter or trigger block. *)
Definition inputFormatTags (normalizedBlockName : string) (inputFormatValue : JsVal) : option (list string) :=
  match inputFormatValue with
  | JArr ((_ :: _) as fields) =>
      Some (map (fun n => normalizedBlockName +:+ "." +:+ n)
                (filter (fun n => JsString.trim n <> "")
                        (omap (fun f => truthyString f "name") fields)))
  | _ => None
  end.

Definition staticTags (normalizedBlockName : string) (cfg : BlockConfig) : list string :=
  prefixPaths normalizedBlockName (generateOutputPaths (Js.orEmpty (outputs cfg)) "").

Definition schemaTags (normalizedBlockName : string) (cfg : BlockConfig) (responseFormat : JsVal) : list string :=
  let schemaFields := libExtractFieldNames responseFormat in
  match schemaFields with
  | _ :: _ => map (fun name => normalizedBlockName +:+ "." +:+ templateString name) schemaFields
  | [] => staticTags normalizedBlockName cfg
  end.

Definition triggerModeTags (normalizedBlockName : string) (cfg : BlockConfig)
    (b : Block.t) (mergedSubBlocks : JsVal) : list string :=
  match getBlockOutputPaths (Block.type b) mergedSubBlocks true with
  | (_ :: _) as dynamicOutputs => prefixPaths normalizedBlockName dynamicOutputs
  | [] => staticTags normalizedBlockName cfg
  end.

Definition operationTags (normalizedBlockName : string) (cfg : BlockConfig)
    (id : string) (mergedSubBlocks : JsVal) : list string :=
  let operationValue :=
    nullish (Js.get (Js.get mergedSubBlocks "operation") "value")
            (getSubBlockValue id "operation") in
  let toolOutputPaths :=
    if Js.truthy operationValue then generateToolOutputPaths cfg operationValue else [] in
  match toolOutputPaths with
  | _ :: _ => prefixPaths normalizedBlockName toolOutputPaths
  | [] => staticTags normalizedBlockName cfg
  end.

(** The root-tag policy closing both derivations. *)
Definition applyRootTagPolicy (b : Block.t) (normalizedBlockName : string) (blockTags : list string)
  : list string :=
  let blockTags := ensureRootTag blockTags normalizedBlockName in
  let shouldShowRootTag := String.eqb (Block.type b) "generic_webhook" in
  if negb shouldShowRootTag
  then filter (fun tag => tag <> normalizedBlockName) blockTags
  else blockTags.

(** The tags of an accessible block that has a block config
    (lines 796-897). *)
Definition accessibleBlockTags (accessibleBlockId : string) (accessibleBlock : Block.t)
    (blockConfig : BlockConfig) : list string :=
  let normalizedBlockName := normalizeBlockName (displayName accessibleBlock) in
  let mergedSubBlocks := getMergedSubBlocks accessibleBlockId in
  let responseFormatValue := Js.get (Js.get mergedSubBlocks "responseFormat") "value" in
  let responseFormat := libParseResponseFormatSafely responseFormatValue accessibleBlockId in
  let ty := Block.type accessibleBlock in
  let blockTags :=
    if String.eqb (category blockConfig) "triggers" || String.eqb ty "starter" then
      match getBlockOutputPaths ty mergedSubBlocks false with
      | (_ :: _) as dynamicOutputs => prefixPaths normalizedBlockName dynamicOutputs
      | [] =>
          if String.eqb ty "starter" then
            if isChat mergedSubBlocks then chatTags normalizedBlockName
            else [normalizedBlockName]
          else if String.eqb ty "generic_webhook" then [normalizedBlockName]
          else []
      end
    else if String.eqb ty "evaluator" then
      match metricTags normalizedBlockName (getSubBlockValue accessibleBlockId "metrics") with
      | Some ts => ts
      | None => prefixPaths normalizedBlockName (generateOutputPaths (outputs blockConfig) "")
      end
    else if String.eqb ty "variables" then
      match assignmentTags normalizedBlockName (getSubBlockValue accessibleBlockId "variables") with
      | Some ts => ts
      | None => [normalizedBlockName]
      end
    else if Js.truthy responseFormat then
      schemaTags normalizedBlockName blockConfig responseFormat
    else if noOutputs blockConfig then [normalizedBlockName]
    else if Block.triggerMode accessibleBlock && triggersEnabled blockConfig then
      triggerModeTags normalizedBlockName blockConfig accessibleBlock mergedSubBlocks
    else operationTags normalizedBlockName blockConfig accessibleBlockId mergedSubBlocks
  in
  applyRootTagPolicy accessibleBlock normalizedBlockName blockTags.

(** The tags of a loop or parallel block the registry has no config
    for: [mockConfig = { outputs: { results: 'array' } }]. *)
Definition mockConfigOutputs : JsVal := JObj [("results", JStr "array")].

Definition containerBlockTags (accessibleBlock : Block.t) : list string :=
  let normalizedBlockName := normalizeBlockName (displayName accessibleBlock) in
  prefixPaths normalizedBlockName (generateOutputPaths mockConfigOutputs "").

Definition isContainerType (ty : string) : bool :=
  String.eqb ty "loop" || String.eqb ty "parallel".

(** The tags of the single source block (lines 458-585). *)
Definition sourceBlockTags (activeSourceBlockId : string) (sourceBlock : Block.t)
    (blockConfig : BlockConfig) : list string :=
  let normalizedBlockName := normalizeBlockName (displayName sourceBlock) in
  let mergedSubBlocks := getMergedSubBlocks activeSourceBlockId in
  let responseFormatValue := Js.get (Js.get mergedSubBlocks "responseFormat") "value" in
  let responseFormat := libParseResponseFormatSafely responseFormatValue activeSourceBlockId in
  let ty := Block.type sourceBlock in
  let inputFormatValue := Js.get (Js.get mergedSubBlocks "inputFormat") "value" in
  let blockTags :=
    if String.eqb ty "evaluator" then
      match metricTags normalizedBlockName (getSubBlockValue activeSourceBlockId "metrics") with
      | Some ts => ts
      | None => prefixPaths normalizedBlockName (generateOutputPaths (outputs blockConfig) "")
      end
    else if String.eqb ty "variables" then
      match assignmentTags normalizedBlockName (getSubBlockValue activeSourceBlockId "variables") with
      | Some ts => ts
      | None => [normalizedBlockName]
      end
    else if Js.truthy responseFormat then
      schemaTags normalizedBlockName blockConfig responseFormat
    else if noOutputs blockConfig then
      if String.eqb ty "starter" then
        if isChat mergedSubBlocks then chatTags normalizedBlockName
        else match inputFormatTags normalizedBlockName inputFormatValue with
             | Some ts => ts
             | None => [normalizedBlockName]
             end
      else if String.eqb ty "api_trigger" || String.eqb ty "input_trigger" then
        match inputFormatTags normalizedBlockName inputFormatValue with
        | Some ts => ts
        | None => []
        end
      else [normalizedBlockName]
    else if String.eqb (category blockConfig) "triggers" || String.eqb ty "starter" then
      match getBlockOutputPaths ty mergedSubBlocks false with
      | (_ :: _) as dynamicOutputs => prefixPaths normalizedBlockName dynamicOutputs
      | [] =>
          if String.eqb ty "starter" then [normalizedBlockName]
          else if String.eqb ty "generic_webhook" then [normalizedBlockName]
          else []
      end
    else if Block.triggerMode sourceBlock && triggersEnabled blockConfig then
      triggerModeTags normalizedBlockName blockConfig sourceBlock mergedSubBlocks
    else operationTags normalizedBlockName blockConfig activeSourceBlockId mergedSubBlocks
  in
  applyRootTagPolicy sourceBlock normalizedBlockName blockTags.

Definition emptyTagData : TagData.t := TagData.mk [] [] [].

(** The branch [if (activeSourceBlockId)] of the memo. *)
Definition singleSourceTagData (activeSourceBlockId : string) : TagData.t :=
  match lookupRecord activeSourceBlockId (blocks w) with
  | None => emptyTagData
  | Some sourceBlock =>
      let group blockTags :=
        {| blockName := displayName sourceBlock;
           blockId := activeSourceBlockId;
           blockType := Block.type sourceBlock;
           tags := blockTags;
           distance := 0 |} in
      match getBlock (Block.type sourceBlock) with
      | None =>
          if isContainerType (Block.type sourceBlock) then
            let blockTags := containerBlockTags sourceBlock in
            TagData.mk blockTags [] [group blockTags]
          else emptyTagData
      | Some blockConfig =>
          let blockTags := sourceBlockTags activeSourceBlockId sourceBlock blockConfig in
          TagData.mk blockTags [] [group blockTags]
      end
  end.

(** *** Contextual groups of the enclosing loop and parallel *)

Definition loopContextualTags (loopType : string) : list string :=
  let loopType := if String.eqb loopType "" then "for" else loopType in
  ["index"; "currentIteration"]
    ++ (if String.eqb loopType "forEach" then ["currentItem"; "items"] else []).

Definition parallelContextualTags (parallelType : string) : list string :=
  let parallelType := if String.eqb parallelType "" then "count" else parallelType in
  ["index"]
    ++ (if String.eqb parallelType "collection" then ["currentItem"; "items"] else []).

Definition isLoopBlock : bool :=
  bool_decide (Block.type <$> lookupRecord (Props.blockId p) (blocks w) = Some "loop").

Definition currentLoop : option Loop.t :=
  if isLoopBlock then lookupRecord (Props.blockId p) (loops w) else None.

Definition containingLoop : option (string * Loop.t) :=
  find (fun e => bool_decide (Props.blockId p ∈ Loop.nodes (snd e))) (loops w).

(** [containingLoopBlockId] *)
Definition containingLoopBlockId : option string :=
  match currentLoop with
  | Some _ => Some (Props.blockId p)
  | None => fst <$> containingLoop
  end.

Definition contextGroup (ty : string) (id : string) (contextualTags : list string)
  : option BlockTagGroup :=
  match lookupRecord id (blocks w) with
  | Some b =>
      Some {| blockName := displayName b;
              blockId := id;
              blockType := ty;
              tags := contextualTags;
              distance := 0 |}
  | None => None
  end.

Definition loopBlockGroup : option BlockTagGroup :=
  match currentLoop with
  | Some loop => contextGroup "loop" (Props.blockId p) (loopContextualTags (Loop.loopType loop))
  | None =>
      match containingLoop with
      | Some (loopId, loop) => contextGroup "loop" loopId (loopContextualTags (Loop.loopType loop))
      | None => None
      end
  end.

Definition containingParallel : option (string * Parallel.t) :=
  find (fun e => bool_decide (Props.blockId p ∈ Parallel.nodes (snd e))) (parallels w).

Definition containingParallelBlockId : option string := fst <$> containingParallel.

Definition parallelBlockGroup : option BlockTagGroup :=
  match containingParallel with
  | Some (parallelId, parallel) =>
      contextGroup "parallel" parallelId (parallelContextualTags (Parallel.parallelType parallel))
  | None => None
  end.

(** *** The groups of the accessible blocks *)

(** One iteration of [for (const accessibleBlockId of accessibleBlockIds)]:
    the group it pushes, [None] when it [continue]s without pushing. *)
Definition accessibleGroup (blockDistances : gmap string nat) (accessibleBlockId : string)
  : option BlockTagGroup :=
  match lookupRecord accessibleBlockId (blocks w) with
  | None => None
  | Some accessibleBlock =>
      if String.eqb accessibleBlockId (Props.blockId p) then None
      else
        let group blockTags :=
          {| blockName := displayName accessibleBlock;
             blockId := accessibleBlockId;
             blockType := Block.type accessibleBlock;
             tags := blockTags;
             distance := default 0%nat (blockDistances !! accessibleBlockId) |} in
        match getBlock (Block.type accessibleBlock) with
        | None =>
            if isContainerType (Block.type accessibleBlock) then
              if bool_decide (Some accessibleBlockId = containingLoopBlockId)
                 || bool_decide (Some accessibleBlockId = containingParallelBlockId)
              then None
              else
                let normalizedBlockName := normalizeBlockName (displayName accessibleBlock) in
                Some (group (ensureRootTag (containerBlockTags accessibleBlock) normalizedBlockName))
            else None
        | Some blockConfig =>
            Some (group (accessibleBlockTags accessibleBlockId accessibleBlock blockConfig))
        end
  end.

(** [blockTagGroups] as the loop leaves it, before the sort. *)
Definition accessibleGroups : list BlockTagGroup :=
  omap (accessibleGroup (computeBlockDistances w)) combinedAccessiblePrefixes.

Definition validVariables : list WfVariable.t :=
  filter (fun v => JsString.trim (WfVariable.name v) <> "") (Props.workflowVariables p).

Definition variableTagOf (v : WfVariable.t) : string :=
  TAG_PREFIXES_VARIABLE +:+ normalizeVariableName (WfVariable.name v).

Definition hasInvalidBlocks : bool :=
  existsb (fun e => String.eqb (Block.type (snd e)) "") (blocks w).

(** The contextual groups, which [finalBlockTagGroups] starts with. *)
Definition contextGroups : list BlockTagGroup :=
  option_list loopBlockGroup ++ option_list parallelBlockGroup.

(** The memo computing [tags], [variableInfoMap] and [blockTagGroups]. *)
Definition tagData : TagData.t :=
  match Props.activeSourceBlockId p with
  | Some activeSourceBlockId => singleSourceTagData activeSourceBlockId
  | None =>
      if hasInvalidBlocks then emptyTagData
      else
        let variableTags := map variableTagOf validVariables in
        let variableInfoMap :=
          foldl (fun acc v => setRecord (variableTagOf v) (WfVariable.type v, WfVariable.id v) acc)
                [] validVariables in
        let blockTagGroups := accessibleGroups in
        let allBlockTags := concat (map tags blockTagGroups) in
        let finalBlockTagGroups := contextGroups ++ sortByDistance blockTagGroups in
        let contextualTags := concat (map tags contextGroups) in
        TagData.mk (allBlockTags ++ variableTags ++ contextualTags)
                   variableInfoMap
                   finalBlockTagGroups
  end.

(** *** Filtering by the search term, nesting and flat order *)

(** The capture group of the regular expression matched against the
    text before the cursor (a ['<'], then any characters other than
    ['>'] up to the end): the text after the leftmost ['<'] that no
    ['>'] follows. *)
Fixpoint matchOpenTail (s : string) : option string :=
  match s with
  | EmptyString => None
  | String a r =>
      if Ascii.eqb a "<" && JsString.noChar ">" r
      then Some r
      else matchOpenTail r
  end.

Definition searchTerm : string :=
  let textBeforeCursor := JsString.slice (Props.inputValue p) 0 (Props.cursorPosition p) in
  match matchOpenTail textBeforeCursor with
  | Some m => JsString.toLowerCase m
  | None => ""
  end.

(** [!searchTerm || tag.toLowerCase().includes(searchTerm)] *)
Definition matchesSearch (tag : string) : bool :=
  String.eqb searchTerm "" || JsString.includes (JsString.toLowerCase tag) searchTerm.

Definition filteredTags : list string :=
  filter (fun tag => matchesSearch tag = true) (TagData.tags tagData).

Definition variableTags : list string :=
  filter (fun tag => JsString.startsWith tag TAG_PREFIXES_VARIABLE = true) filteredTags.

Definition filterGroup (group : BlockTagGroup) : BlockTagGroup :=
  {| blockName := blockName group;
     blockId := blockId group;
     blockType := blockType group;
     tags := filter (fun tag => matchesSearch tag = true) (tags group);
     distance := distance group |}.

Definition filteredBlockTagGroups : list BlockTagGroup :=
  filter (fun group => tags group <> []) (map filterGroup (TagData.blockTagGroups tagData)).

End TagDropdown.

(** An entry of [nestedTags]: a direct tag, or a parent with children. *)
Record TagEntry := { key : string; display : string; fullTag : string }.

Inductive NestedTag :=
| DirectTag (e : TagEntry)
| ParentTag (parent : string) (children : list TagEntry).

(** [groupedTags[parent].push(child)], the list being created when
    absent. *)
Fixpoint pushChild (parent : string) (child : TagEntry) (groupedTags : list (string * list TagEntry))
  : list (string * list TagEntry) :=
  match groupedTags with
  | [] => [(parent, [child])]
  | (k, cs) :: r =>
      if String.eqb k parent then (k, cs ++ [child]) :: r
      else (k, cs) :: pushChild parent child r
  end.

(** The value of a canonical array index, the keys an object
    enumerates first and in ascending order. *)
Definition digitValue (c : ascii) : N := N.of_nat (nat_of_ascii c - 48).

Fixpoint digitsValue (acc : N) (s : string) : N :=
  match s with
  | EmptyString => acc
  | String a r => digitsValue (10 * acc + digitValue a)%N r
  end.

Definition arrayIndex (k : string) : option N :=
  match k with
  | EmptyString => None
  | String a r =>
      if JsString.all JsString.isDigit k
         && (negb (Ascii.eqb a "0") || String.eqb r "")
         && (digitsValue 0 k <? 4294967295)%N
      then Some (digitsValue 0 k)
      else None
  end.

Fixpoint insertIndexKey {A} (n : N) (e : string * A) (l : list (N * (string * A)))
  : list (N * (string * A)) :=
  match l with
  | [] => [(n, e)]
  | (m, f) :: r => if (n <=? m)%N then (n, e) :: l else (m, f) :: insertIndexKey n e r
  end.

(** [Object.entries(record)] of a record with distinct keys kept in
    insertion order: index keys ascending, then the other keys. *)
Definition entriesOrder {A} (record : list (string * A)) : list (string * A) :=
  let indexKeys :=
    foldr (fun e acc => match arrayIndex (fst e) with
                        | Some n => insertIndexKey n e acc
                        | None => acc
                        end) [] record in
  map snd indexKeys
  ++ filter (fun e => arrayIndex (fst e) = None) record.

Definition isContextGroup (group : BlockTagGroup) : bool :=
  String.eqb (blockType group) "loop" || String.eqb (blockType group) "parallel".

(** [path || group.blockName] *)
Definition orBlockName (path : string) (group : BlockTagGroup) : string :=
  if String.eqb path "" then blockName group else path.

(** The names every object inherits from [Object.prototype].
    [groupedTags] is a plain [{}]: for such a name that is no own
    property, [groupedTags[parent]] is the inherited value, which is
    truthy and has no [push]. *)
Definition objectPrototypeKeys : list string :=
  ["constructor"; "__defineGetter__"; "__defineSetter__"; "hasOwnProperty";
   "__lookupGetter__"; "__lookupSetter__"; "isPrototypeOf"; "propertyIsEnumerable";
   "toString"; "valueOf"; "__proto__"; "toLocaleString"].

(** [parent] is an own property of [groupedTags]. *)
Definition hasOwn {A} (parent : string) (record : list (string * A)) : bool :=
  existsb (fun e => String.eqb (fst e) parent) record.

(** The body of [group.tags.forEach] on the pair
    [(groupedTags, directTags)]: [groupedTags[parent].push] throws a
    [TypeError] when [groupedTags[parent]] is inherited. *)
Definition classifyTag (group : BlockTagGroup) (acc : list (string * list TagEntry) * list TagEntry)
    (tag : string) : Completion (list (string * list TagEntry) * list TagEntry) :=
  let tagParts := JsString.split "." tag in
  match tagParts with
  | _ :: parent :: ((_ :: _) as rest) =>
      let child := JsString.join "." rest in
      if negb (hasOwn parent (fst acc)) && includesTag objectPrototypeKeys parent then
        Throw typeError
      else
        Normal (pushChild parent
                  {| key := parent +:+ "." +:+ child; display := child; fullTag := tag |}
                  (fst acc),
                snd acc)
  | _ =>
      let path := JsString.join "." (tail tagParts) in
      if isContextGroup group && (length tagParts =? 1)%nat then
        Normal (fst acc, snd acc ++ [{| key := tag; display := tag; fullTag := tag |}])
      else
        Normal (fst acc,
                snd acc ++ [{| key := orBlockName path group;
                               display := orBlockName path group;
                               fullTag := tag |}])
  end.

(** [group.tags.forEach]: the first exception ends the loop. *)
Fixpoint classifyTags (group : BlockTagGroup) (acc : list (string * list TagEntry) * list TagEntry)
    (tags : list string) : Completion (list (string * list TagEntry) * list TagEntry) :=
  match tags with
  | [] => Normal acc
  | tag :: rest =>
      match classifyTag group acc tag with
      | Throw e => Throw e
      | Normal acc' => classifyTags group acc' rest
      end
  end.

(** The [nestedTags] of a group, the body of the [map] of
    [nestedBlockTagGroups]. *)
Definition nestedTags (group : BlockTagGroup) : Completion (list NestedTag) :=
  match classifyTags group ([], []) (tags group) with
  | Throw e => Throw e
  | Normal (groupedTags, directTags) =>
      Normal (map (fun e => ParentTag (fst e) (snd e)) (entriesOrder groupedTags)
              ++ map DirectTag directTags)
  end.

(** What one entry of [nestedTags] contributes to [visualTags]. *)
Definition visualTag (nestedTag : NestedTag) : list string :=
  match nestedTag with
  | ParentTag _ (firstChild :: _) =>
      if String.eqb (fullTag firstChild) "" then [] else [fullTag firstChild]
  | ParentTag _ [] => []
  | DirectTag e => if String.eqb (fullTag e) "" then [] else [fullTag e]
  end.

(** What the [nestedTags] of a group contribute. *)
Definition groupVisualTags (nestedTags : list NestedTag) : list string :=
  concat (map visualTag nestedTags).

(** [groups.map(group => ({ ...group, nestedTags }))]: each group with
    its nested tags. *)
Definition nestGroups (groups : list BlockTagGroup)
  : Completion (list (BlockTagGroup * list NestedTag)) :=
  mapCompletion (fun group =>
                   match nestedTags group with
                   | Throw e => Throw e
                   | Normal nested => Normal (group, nested)
                   end) groups.

(** [nestedBlockTagGroups] *)
Definition nestedBlockTagGroups `{Externals} (p : Props.t)
  : Completion (list (BlockTagGroup * list NestedTag)) :=
  nestGroups (filteredBlockTagGroups p).

(** The body of the memo [orderedTags] on the values of [variableTags]
    and [nestedBlockTagGroups]. *)
Definition visualTags (variableTags : list string)
    (nestedBlockTagGroups : list (BlockTagGroup * list NestedTag)) : list string :=
  variableTags ++ concat (map (fun group => groupVisualTags (snd group)) nestedBlockTagGroups).

(** [orderedTags]: there is none when [nestedBlockTagGroups] throws. *)
Definition orderedTags `{Externals} (p : Props.t) : Completion (list string) :=
  match nestedBlockTagGroups p with
  | Throw e => Throw e
  | Normal nested => Normal (visualTags (variableTags p) nested)
  end.

(** ** Tag selection *)

Definition fileProperties : list string :=
  ["url"; "name"; "size"; "type"; "key"; "uploadedAt"; "expiresAt"].

(** [/^[a-zA-Z0-9._]*$/.test(text)] *)
Definition isReferenceChar (c : ascii) : bool :=
  JsString.isLower c || JsString.isUpper c || JsString.isDigit c
  || Ascii.eqb c "." || Ascii.eqb c "_".

Definition isPartialReference (text : string) : bool :=
  JsString.all isReferenceChar text.

(** [tag.substring(n)] for [0 <= n]. *)
Definition substringFrom (n : nat) (s : string) : string :=
  substring n (String.length s - n) s.

Section TagSelection.
Context `{Externals}.
Variable p : Props.t.

(** [fieldType]: the type resolved for the field [fieldName] of the
    block of [group] (lines 1109-1119). *)
Definition resolvedFieldType (group : BlockTagGroup) (fieldName : string) : string :=
  let block := lookupRecord (blockId group) (blocks (Props.workflow p)) in
  let blockConfig := block ≫= (fun b => getBlock (Block.type b)) in
  let mergedSubBlocks := getMergedSubBlocks p (blockId group) in
  getOutputTypeForPath block blockConfig (blockId group) fieldName mergedSubBlocks.

(** The file-property rewrite (lines 1102-1127). *)
Definition fileIndexedTag (tag : string) (blockGroup : option BlockTagGroup) : string :=
  let parts := JsString.split "." tag in
  let property := List.last parts "" in
  if (2 <=? length parts)%nat && includesTag fileProperties property then
    let fieldName := nth (length parts - 2) parts "" in
    match blockGroup with
    | Some group =>
        let fieldType := resolvedFieldType group fieldName in
        if String.eqb fieldType "files" then
          let blockAndField := JsString.join "." (removelast parts) in
          blockAndField +:+ "[0]." +:+ property
        else tag
    | None => tag
    end
  else tag.

(** [processedTag] when [newValue] is built (lines 1100-1147). *)
Definition processedTag (tag : string) (blockGroup : option BlockTagGroup) : string :=
  let processed := fileIndexedTag tag blockGroup in
  if JsString.startsWith tag TAG_PREFIXES_VARIABLE then
    let variableName := substringFrom (String.length TAG_PREFIXES_VARIABLE) tag in
    match find (fun v => String.eqb (JsString.stripWhitespace (WfVariable.name v)) variableName)
               (Props.workflowVariables p) with
    | Some _ => tag
    | None => processed
    end
  else
    match blockGroup with
    | Some group =>
        if isContextGroup group then
          if negb (JsString.includes tag ".")
             && includesTag ["index"; "currentItem"; "items"] tag
          then blockType group +:+ "." +:+ tag
          else tag
        else processed
    | None => processed
    end.

(** [remainingTextAfterCursor] *)
Definition remainingTextAfterCursor (textAfterCursor : string) : string :=
  let nextCloseBracket := JsString.indexOf textAfterCursor ">" in
  if negb (nextCloseBracket =? -1) then
    let textBetween := JsString.slice textAfterCursor 0 nextCloseBracket in
    if isPartialReference textBetween
    then JsString.sliceFrom textAfterCursor (nextCloseBracket + 1)
    else textAfterCursor
  else textAfterCursor.

(** [handleTagSelect] on the live value and cursor of the focused
    input (the props [inputValue] and [cursorPosition] when there is
    none): the value passed to [onSelect], [None] when it returns
    without calling it. *)
Definition handleTagSelect (liveValue : string) (liveCursor : Z)
    (tag : string) (blockGroup : option BlockTagGroup) : option string :=
  let textBeforeCursor := JsString.slice liveValue 0 liveCursor in
  let textAfterCursor := JsString.sliceFrom liveValue liveCursor in
  let lastOpenBracket := JsString.lastIndexOf textBeforeCursor "<" in
  if lastOpenBracket =? -1 then None
  else
    Some (JsString.slice textBeforeCursor 0 lastOpenBracket
          +:+ "<" +:+ processedTag tag blockGroup +:+ ">"
          +:+ remainingTextAfterCursor textAfterCursor).

(** The cursor position immediately after the closing delimiter that
    [handleTagSelect] inserts. *)
Definition cursorAfterInsertion (liveValue : string) (liveCursor : Z)
    (tag : string) (blockGroup : option BlockTagGroup) : Z :=
  let textBeforeCursor := JsString.slice liveValue 0 liveCursor in
  JsString.lastIndexOf textBeforeCursor "<"
  + 1 + JsString.len (processedTag tag blockGroup) + 1.

End TagSelection.

(** ** Notions used to state the properties *)

(** [hops es u n v]: a path of [n] edges leads from [u] to [v]. *)
Inductive hops (es : list Edge.t) (u : string) : nat -> string -> Prop :=
| hops_refl : hops es u 0 u
| hops_step n v e :
    hops es u n v -> e ∈ es -> Edge.source e = v -> hops es u (S n) (Edge.target e).

(** The targets of the edges leaving [u], in edge order. *)
Definition outgoing (es : list Edge.t) (u : string) : list string :=
  map Edge.target (filter (fun e => Edge.source e = u) es).

(** The edges whose source is not visited yet. *)
Definition pendingEdges (es : list Edge.t) (visited : gset string) : list Edge.t :=
  filter (fun e => Edge.source e ∉ visited) es.

(** The number of iterations the traversal can still make. *)
Definition bfsPotential (es : list Edge.t) (st : BfsState.t) : nat :=
  length (BfsState.queue st) + length (pendingEdges es (BfsState.visited st)).

(** The queue holds the nodes at distance [level], then those at
    distance [level + 1]; no assigned distance exceeds [level]. *)
Record bfsLevelled (st : BfsState.t) (level : nat) (front back : list (string * nat)) : Prop := {
  inv_queue : BfsState.queue st = front ++ back;
  inv_front_level : forall e, e ∈ front -> e.2 = level;
  inv_back_level : forall e, e ∈ back -> e.2 = S level;
  inv_bound : forall v d, BfsState.blockDistances st !! v = Some d -> (d <= level)%nat
}.

(** What the traversal from [s] has established in state [st]. *)
Record bfsSound (es : list Edge.t) (s : string) (st : BfsState.t) : Prop := {
  inv_visited : forall v, v ∈ BfsState.visited st <-> is_Some (BfsState.blockDistances st !! v);
  inv_queue_hops : forall v d, (v, d) ∈ BfsState.queue st -> hops es s d v;
  inv_dist_hops : forall v d, BfsState.blockDistances st !! v = Some d -> hops es s d v;
  inv_edges : forall e du,
      e ∈ es -> BfsState.blockDistances st !! Edge.source e = Some du ->
      (exists dv, BfsState.blockDistances st !! Edge.target e = Some dv /\ (dv <= S du)%nat)
      \/ (Edge.target e, S du) ∈ BfsState.queue st;
  inv_root : BfsState.blockDistances st !! s = Some 0%nat \/ (s, 0%nat) ∈ BfsState.queue st
}.

Definition bfsInv (es : list Edge.t) (s : string) (st : BfsState.t) : Prop :=
  bfsSound es s st /\ exists level front back, bfsLevelled st level front back.

(** The order the sort establishes. *)
Definition closerOrEqual (g h : BlockTagGroup) : Prop := (distance g <= distance h)%nat.

(** The field of which [parent] names the type: its last segment. *)
Definition parentField (parent : string) : string :=
  List.last (JsString.split "." parent) "".

(** The declared outputs
    [{result: {type: "object", properties: {a: "string", b: {type: "number"}}}}]. *)
Definition declaredOutputsExample : JsVal :=
  JObj [("result",
         JObj [("type", JStr "object");
               ("properties",
                JObj [("a", JStr "string"); ("b", JObj [("type", JStr "number")])])])].

(** ** A workflow to evaluate the engine on

    [starter -> A -> loop{B} -> C], with a registry that knows the
    [starter] and [agent] block types and, as in the application, no
    loop or parallel type. *)
Module Scenario.

Definition agentConfig : BlockConfig :=
  {| category := "blocks";
     outputs := JObj [("content", JStr "string"); ("model", JStr "string")];
     triggersEnabled := false;
     tool := None |}.

Definition starterConfig : BlockConfig :=
  {| category := "blocks";
     outputs := JObj [];
     triggersEnabled := false;
     tool := None |}.

(** A block whose [read] operation is bound to a tool with a
    [files]-typed output [attachments]. *)
Definition mailConfig : BlockConfig :=
  {| category := "tools";
     outputs := JObj [("content", JStr "string")];
     triggersEnabled := false;
     tool := Some (fun _ => Normal "mail_read") |}.

Definition mailReadTool : ToolConfig :=
  {| toolOutputs :=
       JObj [("content", JObj [("type", JStr "string")]);
             ("attachments", JObj [("type", JStr "files")])] |}.

(** The registries of the scenarios.  For the helpers of
    [@/lib/response-format] the scenarios take functions that keep an
    object, keep a reference trimmed, and read the names of the
    fields of a schema; [JSON.parse] rejects every text. *)
#[export] Instance externals : Externals := {|
  getBlock ty :=
    if String.eqb ty "agent" then Some agentConfig
    else if String.eqb ty "starter" then Some starterConfig
    else if String.eqb ty "mail" then Some mailConfig
    else None;
  getTool toolId := if String.eqb toolId "mail_read" then Some mailReadTool else None;
  getBlockOutputPaths ty _ _ := if String.eqb ty "starter" then ["input"] else [];
  getBlockOutputType _ _ _ _ := "any";
  getSubBlockValue id property :=
    if String.eqb id "mail" && String.eqb property "operation" then JStr "read"
    else JUndefined;
  JSON_parse _ := Throw (JStr "SyntaxError");
  libParseResponseFormatSafely value _ :=
    if Js.isObject value then value
    else match value with
         | JStr s =>
             if JsString.startsWith (JsString.trim s) "<"
                && JsString.includes (JsString.trim s) ">"
             then JStr (JsString.trim s) else JUndefined
         | _ => JUndefined
         end;
  libExtractFieldNames schema :=
    match Js.get schema "fields" with
    | JArr fields => map (fun field => Js.get field "name") fields
    | _ => map (fun e => JStr (fst e)) (Js.entries (Js.get (Js.get schema "schema") "properties"))
    end;
  getBlockOutputs ty _ _ :=
    if String.eqb ty "agent" then [("content", JStr "string"); ("model", JStr "string")]
    else [];
  findAllPathNodes _ _ := []
|}.

Definition block (id ty name : string) : string * Block.t :=
  (id, Block.mk id ty name false (JObj [])).

Definition workflow (loopType : string) : Workflow :=
  {| blocks := [block "starter" "starter" "Start"; block "a" "agent" "A";
                block "loop" "loop" "Loop 1"; block "b" "agent" "B";
                block "c" "agent" "C"; block "mail" "mail" "Mail 1"];
     edges := [Edge.mk "starter" "a"; Edge.mk "a" "loop";
               Edge.mk "loop" "b"; Edge.mk "loop" "c"];
     loops := [("loop", Loop.mk ["b"] loopType)];
     parallels := [] |}.

(** The dropdown of block [id], opened on the text ["<"], with the
    accessible prefixes [prefixes]. *)
Definition props (id : string) (loopType : string) (prefixes : list string) : Props.t :=
  {| Props.blockId := id;
     Props.activeSourceBlockId := None;
     Props.inputValue := "<";
     Props.cursorPosition := 1;
     Props.workflow := workflow loopType;
     Props.workflowSubBlockValues := JObj [];
     Props.workflowVariables := [WfVariable.mk "v1" "my var" "string"];
     Props.rawAccessiblePrefixes := Some prefixes |}.

(** [B], a member of the loop, sees its ancestors. *)
Definition propsB (loopType : string) : Props.t :=
  props "b" loopType ["loop"; "a"; "starter"].

(** [C], after the loop, sees the loop block among its ancestors. *)
Definition propsC : Props.t := props "c" "for" ["loop"; "a"; "starter"].

(** The block [A], its group and the group of the loop block as [C]
    sees them. *)
Definition blockA : Block.t := Block.mk "a" "agent" "A" false (JObj []).

Definition groupA : BlockTagGroup :=
  {| blockName := "A"; blockId := "a"; blockType := "agent";
     tags := ["a.content"; "a.model"]; distance := 1 |}.

Definition groupLoopBlock : BlockTagGroup :=
  {| blockName := "Loop 1"; blockId := "loop"; blockType := "loop";
     tags := ["loop1"; "loop1.results"]; distance := 2 |}.

(** An array of objects declared with [items.properties]. *)
Definition rowsDeclaration : JsVal :=
  JObj [("type", JStr "array");
        ("items", JObj [("properties", JObj [("id", JStr "string")])])].

(** The edges of the cycle [s -> a -> s]. *)
Definition cycleEdges : list Edge.t := [Edge.mk "s" "a"; Edge.mk "a" "s"].

(** The group of the block [mail] and the contextual group of the loop. *)
Definition mailGroup : BlockTagGroup :=
  {| blockName := "Mail 1"; blockId := "mail"; blockType := "mail";
     tags := ["mail1.content"; "mail1.attachments"]; distance := 0 |}.

Definition loopGroup : BlockTagGroup :=
  {| blockName := "Loop 1"; blockId := "loop"; blockType := "loop";
     tags := ["index"; "currentIteration"; "currentItem"; "items"]; distance := 0 |}.

End Scenario.

(** ** Further definitions *)

(** The body of the loop of [generateOutputPaths] on one entry. *)
Definition pathsOfEntry (prefix key : string) (value : JsVal) : list string :=
  let currentPath := joinPath prefix key in
  if Js.isString value then [currentPath]
  else if Js.isObject value then
    if Js.hasKey "type" value && Js.isString (Js.get value "type")
    then [currentPath]
    else generateOutputPaths value currentPath
  else [currentPath].

(** The loop of [generateOutputPaths] over the elements of an array,
    from index [i]. *)
Definition arrayPaths (prefix : string) : nat -> list JsVal -> list string :=
  fix loop (i : nat) (l : list JsVal) : list string :=
    match l with
    | [] => []
    | value :: rest => pathsOfEntry prefix (JsString.ofNat i) value ++ loop (S i) rest
    end.

(** The body of the loop of [generateOutputPathsWithTypes] on one entry. *)
Definition typedPathsOfEntry (prefix key : string) (value : JsVal) : list PathWithType :=
  let currentPath := joinPath prefix key in
  match value with
  | JStr t => [{| path := currentPath; type := t |}]
  | _ =>
    if Js.isObject value then
      match declaredType value with
      | Some t =>
          if String.eqb t "array" && Js.truthy (Js.get (Js.get value "items") "properties") then
            {| path := currentPath; type := "array" |} ::
            Js.withField value "items" (fun items =>
              Js.withField items "properties" (fun properties =>
                generateOutputPathsWithTypes properties currentPath) []) []
          else if String.eqb t "object" && Js.truthy (Js.get value "properties") then
            {| path := currentPath; type := "object" |} ::
            Js.withField value "properties" (fun properties =>
              generateOutputPathsWithTypes properties currentPath) []
          else [{| path := currentPath; type := t |}]
      | None => generateOutputPathsWithTypes value currentPath
      end
    else [{| path := currentPath; type := "any" |}]
  end.

Definition typedArrayPaths (prefix : string) : nat -> list JsVal -> list PathWithType :=
  fix loop (i : nat) (l : list JsVal) : list PathWithType :=
    match l with
    | [] => []
    | value :: rest => typedPathsOfEntry prefix (JsString.ofNat i) value ++ loop (S i) rest
    end.

(** [base] and [live] of [getMergedSubBlocks]. *)
Definition storedSubBlocks (p : Props.t) (targetBlockId : string) : JsVal :=
  Js.orEmpty (from_option Block.subBlocks JUndefined
                (lookupRecord targetBlockId (blocks (Props.workflow p)))).

Definition liveSubBlockValues (p : Props.t) (targetBlockId : string) : JsVal :=
  Js.orEmpty (Js.get (Props.workflowSubBlockValues p) targetBlockId).

(** The tags an entry of [nestedTags] stands for. *)
Definition nestedFullTags (nestedTag : NestedTag) : list string :=
  match nestedTag with
  | DirectTag e => [fullTag e]
  | ParentTag _ children => map fullTag children
  end.

(** The parents among the entries of [nestedTags]. *)
Definition parentKey (nestedTag : NestedTag) : option string :=
  match nestedTag with
  | DirectTag _ => None
  | ParentTag parent _ => Some parent
  end.

(** A tag whose second segment, the parent it is grouped under, is a
    name inherited from [Object.prototype]. *)
Definition hasInheritedParent (tag : string) : bool :=
  match JsString.split "." tag with
  | _ :: parent :: _ :: _ => includesTag objectPrototypeKeys parent
  | _ => false
  end.

(** The tags the group [group] of [blockTagGroups] contributes to
    [orderedTags]: the visual tags of those of its tags that match the
    search term; none when its [nestedTags] throws, and then there is
    no [orderedTags]. *)
Definition shownTags `{Externals} (p : Props.t) (group : BlockTagGroup) : list string :=
  match nestedTags (filterGroup p group) with
  | Normal nested => groupVisualTags nested
  | Throw _ => []
  end.

(** [tag.startsWith(TAG_PREFIXES.VARIABLE)] *)
Definition isVariableTag (tag : string) : bool :=
  JsString.startsWith tag TAG_PREFIXES_VARIABLE.

(** ** The hook [useBlockConnections]

    It reads the stores [TagDropdown] reads: the workflow, the live
    sub-block values and, through [getValue], the sub-block store.  Its
    [getMergedSubBlocks] is the one of [TagDropdown], word for word. *)

Module ConnectedBlock.
Record t := mk {
  id : string;
  type : string;
  outputType : list JsVal;
  name : string;
  responseFormat : JsVal
}.
End ConnectedBlock.

Module Connections.
(** The result of the hook. *)
Record t := mk {
  incomingConnections : list ConnectedBlock.t;
  directIncomingConnections : list ConnectedBlock.t;
  hasIncomingConnections : bool
}.
End Connections.

(** [field.name]: a [TypeError] on a field that is [null] or
    [undefined]. *)
Definition fieldName (field : JsVal) : Completion JsVal :=
  match field with
  | JUndefined | JNull => Throw typeError
  | _ => Normal (Js.get field "name")
  end.

(** [value && typeof value === 'object' && k in value ? value[k] : d] *)
Definition declaredOr (value : JsVal) (k : string) (d : JsVal) : JsVal :=
  if Js.truthy value && Js.isObject value && Js.hasKey k value then Js.get value k else d.

(** [Object.entries(blockOutputs).map(...)]: the outputs of the block
    in the format of fields. *)
Definition fieldsOfOutputs (blockOutputs : list (string * JsVal)) : list JsVal :=
  map (fun e => JObj [("name", JStr (fst e));
                      ("type", declaredOr (snd e) "type" (JStr "string"));
                      ("description", declaredOr (snd e) "description" JUndefined)])
      blockOutputs.

Section BlockConnections.
Context `{Externals}.
Variable p : Props.t.

(** The body of the two [map]s: the connection of the block
    [sourceId], [None] for the [null] that [filter(Boolean)]
    removes. *)
Definition connectedBlock (sourceId : string) : Completion (option ConnectedBlock.t) :=
  match lookupRecord sourceId (blocks (Props.workflow p)) with
  | None => Normal None
  | Some sourceBlock =>
      let mergedSubBlocks := getMergedSubBlocks p sourceId in
      let responseFormatValue := getSubBlockValue sourceId "responseFormat" in
      match parseResponseFormatSafely responseFormatValue sourceId with
      | Throw e => Throw e
      | Normal responseFormat =>
          let blockOutputs :=
            getBlockOutputs (Block.type sourceBlock) mergedSubBlocks
                            (Block.triggerMode sourceBlock) in
          match (if Js.truthy responseFormat
                 then extractFieldsFromSchema responseFormat
                 else Normal (fieldsOfOutputs blockOutputs)) with
          | Throw e => Throw e
          | Normal outputFields =>
              match mapCompletion fieldName outputFields with
              | Throw e => Throw e
              | Normal names =>
                  Normal (Some {| ConnectedBlock.id := Block.id sourceBlock;
                                  ConnectedBlock.type := Block.type sourceBlock;
                                  ConnectedBlock.outputType := names;
                                  ConnectedBlock.name := Block.name sourceBlock;
                                  ConnectedBlock.responseFormat := responseFormat |})
              end
          end
      end
  end.

(** [sourceIds.map(...).filter(Boolean)] *)
Definition connectionsOf (sourceIds : list string) : Completion (list ConnectedBlock.t) :=
  match mapCompletion connectedBlock sourceIds with
  | Throw e => Throw e
  | Normal found => Normal (omap id found)
  end.

Definition useBlockConnections : Completion Connections.t :=
  let w := Props.workflow p in
  match connectionsOf (findAllPathNodes (edges w) (Props.blockId p)) with
  | Throw e => Throw e
  | Normal allPathConnections =>
      match connectionsOf
              (map Edge.source
                   (filter (fun edge => Edge.target edge = Props.blockId p) (edges w))) with
      | Throw e => Throw e
      | Normal directIncomingConnections =>
          Normal {| Connections.incomingConnections := allPathConnections;
                    Connections.directIncomingConnections := directIncomingConnections;
                    Connections.hasIncomingConnections :=
                      (0 <? length allPathConnections)%nat |}
      end
  end.

End BlockConnections.

(** ** Keyboard navigation of the dropdown *)

(** [array[i]] at an integer index: [None] is [undefined]. *)
Definition itemAt {A} (l : list A) (i : Z) : option A :=
  if i <? 0 then None else l !! Z.to_nat i.

(** [nestedTag.children && nestedTag.children.length > 0 &&
    nestedTag.children[0].fullTag === tag], at an [undefined] tag
    too. *)
Definition firstChildIs (tag : option string) (nestedTag : NestedTag) : bool :=
  match nestedTag, tag with
  | ParentTag _ (firstChild :: _), Some t => String.eqb (fullTag firstChild) t
  | _, _ => false
  end.

(** [nestedTag.key] *)
Definition nestedKey (nestedTag : NestedTag) : string :=
  match nestedTag with
  | DirectTag e => key e
  | ParentTag parent _ => parent
  end.

(** The inner loop over [group.nestedTags], from index [i]: the first
    entry whose first child is [tag], with its index. *)
Fixpoint findFirstChild (tag : option string) (i : nat) (nestedTags : list NestedTag)
  : option (nat * NestedTag) :=
  match nestedTags with
  | [] => None
  | nestedTag :: rest =>
      if firstChildIs tag nestedTag then Some (i, nestedTag)
      else findFirstChild tag (S i) rest
  end.

(** The two nested loops: the first group holding such an entry. *)
Fixpoint findParentItem (tag : option string) (groups : list (BlockTagGroup * list NestedTag))
  : option (BlockTagGroup * (nat * NestedTag)) :=
  match groups with
  | [] => None
  | (group, nestedTags) :: rest =>
      match findFirstChild tag 0 nestedTags with
      | Some found => Some (group, found)
      | None => findParentItem tag rest
      end
  end.

Module Nav.
(** The navigation state of the component: [hoveredNested] is the
    pair of its [tag] and [index]. *)
Record t := mk {
  selectedIndex : Z;
  hoveredNested : option (string * nat);
  inSubmenu : bool;
  submenuIndex : Z
}.
End Nav.

Inductive Key := ArrowDown | ArrowUp | ArrowLeft | ArrowRight | Enter | Escape | OtherKey.

(** What the handler calls besides the state setters. *)
Inductive KeyAction :=
| NoAction
| Select (tag : string) (group : option BlockTagGroup)
| Close.

(** [`${group.blockId}-${tag.key}` === currentHovered.tag &&
    index === currentHovered.index] *)
Definition isHovered (group : BlockTagGroup) (hovered : string * nat)
    (index : nat) (nestedTag : NestedTag) : bool :=
  String.eqb (blockId group +:+ "-" +:+ nestedKey nestedTag) (fst hovered)
  && (index =? snd hovered)%nat.

(** [nestedTags.find((tag, index) => ...)] from index [i]. *)
Fixpoint findHovered (group : BlockTagGroup) (hovered : string * nat)
    (i : nat) (nestedTags : list NestedTag) : option NestedTag :=
  match nestedTags with
  | [] => None
  | nestedTag :: rest =>
      if isHovered group hovered i nestedTag then Some nestedTag
      else findHovered group hovered (S i) rest
  end.

(** [nestedTag.children || []] *)
Definition childrenOf (nestedTag : option NestedTag) : list TagEntry :=
  match nestedTag with
  | Some (ParentTag _ children) => children
  | _ => []
  end.

(** The handler is created by a render that completed: it closes over
    the values [ordered] of [orderedTags] and [nested] of
    [nestedBlockTagGroups] of that render. *)
Section Keyboard.
Context `{Externals}.
Variable p : Props.t.
Variable ordered : list string.
Variable nested : list (BlockTagGroup * list NestedTag).

(** The effect clamping [selectedIndex] when the list shrinks. *)
Definition clampSelectedIndex (st : Nav.t) : Nav.t :=
  if Z.of_nat (length ordered) <=? Nav.selectedIndex st then
    Nav.mk (Z.max 0 (Z.of_nat (length ordered) - 1))
           (Nav.hoveredNested st) (Nav.inSubmenu st) (Nav.submenuIndex st)
  else st.

(** The updater of [ArrowDown] and [ArrowUp] once it has [newIndex]:
    it hovers the parent the new tag stands for and clears the hover
    otherwise. *)
Definition moveTo (newIndex : Z) (st : Nav.t) : Nav.t :=
  let newSelectedTag := itemAt ordered newIndex in
  let hovered :=
    match findParentItem newSelectedTag nested with
    | Some (group, (nestedTagIndex, nestedTag)) =>
        Some (blockId group +:+ "-" +:+ nestedKey nestedTag, nestedTagIndex)
    | None => if Nav.inSubmenu st then Nav.hoveredNested st else None
    end in
  Nav.mk newIndex hovered (Nav.inSubmenu st) (Nav.submenuIndex st).

(** [currentGroup] and [children] of the submenu branch. *)
Definition currentGroup (hovered : string * nat) : option (BlockTagGroup * list NestedTag) :=
  find (fun g => bool_decide (is_Some (findHovered (fst g) hovered 0 (snd g))))
       nested.

Definition currentChildren (hovered : string * nat) : list TagEntry :=
  childrenOf (currentGroup hovered ≫= fun g => findHovered (fst g) hovered 0 (snd g)).

Definition leaveSubmenu (st : Nav.t) : Nav.t :=
  Nav.mk (Nav.selectedIndex st) None false 0.

(** [handleKeyboardEvent]: the next state and the callback made. *)
Definition handleKeyboardEvent (key : Key) (st : Nav.t) : Nav.t * KeyAction :=
  let count := Z.of_nat (length ordered) in
  if count =? 0 then (st, NoAction)
  else if Nav.inSubmenu st then
    match Nav.hoveredNested st with
    | None =>
        (Nav.mk (Nav.selectedIndex st) None false (Nav.submenuIndex st), NoAction)
    | Some currentHovered =>
        let children := currentChildren currentHovered in
        match key with
        | ArrowDown =>
            (Nav.mk (Nav.selectedIndex st) (Nav.hoveredNested st) true
                    (Z.min (Nav.submenuIndex st + 1) (Z.of_nat (length children) - 1)),
             NoAction)
        | ArrowUp =>
            (Nav.mk (Nav.selectedIndex st) (Nav.hoveredNested st) true
                    (Z.max (Nav.submenuIndex st - 1) 0),
             NoAction)
        | ArrowLeft | Escape => (leaveSubmenu st, NoAction)
        | Enter =>
            if (0 <=? Nav.submenuIndex st)
               && (Nav.submenuIndex st <? Z.of_nat (length children)) then
              match itemAt children (Nav.submenuIndex st) with
              | Some selectedChild =>
                  (st, Select (fullTag selectedChild) (fst <$> currentGroup currentHovered))
              | None => (st, NoAction)
              end
            else (st, NoAction)
        | _ => (st, NoAction)
        end
    end
  else
    match key with
    | ArrowDown => (moveTo (Z.min (Nav.selectedIndex st + 1) (count - 1)) st, NoAction)
    | ArrowUp => (moveTo (Z.max (Nav.selectedIndex st - 1) 0) st, NoAction)
    | ArrowRight =>
        if (0 <=? Nav.selectedIndex st) && (Nav.selectedIndex st <? count) then
          match findParentItem (itemAt ordered (Nav.selectedIndex st))
                               nested with
          | Some (group, (nestedTagIndex, nestedTag)) =>
              (Nav.mk (Nav.selectedIndex st)
                      (Some (blockId group +:+ "-" +:+ nestedKey nestedTag, nestedTagIndex))
                      true 0,
               NoAction)
          | None => (st, NoAction)
          end
        else (st, NoAction)
    | Enter =>
        if (0 <=? Nav.selectedIndex st) && (Nav.selectedIndex st <? count) then
          match itemAt ordered (Nav.selectedIndex st) with
          | Some selectedTag =>
              match findParentItem (Some selectedTag) nested with
              | Some (group, (_, nestedTag)) =>
                  let parentTag :=
                    normalizeBlockName (blockName group) +:+ "." +:+ nestedKey nestedTag in
                  (st, Select parentTag (Some group))
              | None =>
                  let belongsToGroup :=
                    find (fun group => includesTag (tags group) selectedTag)
                         (filteredBlockTagGroups p) in
                  (st, Select selectedTag belongsToGroup)
              end
          | None => (st, NoAction)
          end
        else (st, NoAction)
    | Escape => (st, Close)
    | _ => (st, NoAction)
    end.

End Keyboard.

(** ** The providers store *)

Module Providers.

Inductive ProviderName := base | ollama | openrouter.

#[export] Instance ProviderName_eq_dec : EqDecision ProviderName.
Proof. solve_decision. Defined.

(** A call of the registry update of [@/providers/utils]. *)
Inductive RegistryCall :=
| UpdateOllamaProviderModels (models : list string)
| UpdateOpenRouterProviderModels (models : list string).

(** [ProviderConfig]: [dedupeModels] is false when absent;
    [updateFunction] gives the registry calls it makes. *)
Record ProviderConfig := {
  apiEndpoint : string;
  dedupeModels : bool;
  updateFunction : list string -> list RegistryCall
}.

Definition PROVIDER_CONFIGS (provider : ProviderName) : ProviderConfig :=
  match provider with
  | base =>
      {| apiEndpoint := "/api/providers/base/models";
         dedupeModels := true;
         updateFunction := fun _ => [] |}
  | ollama =>
      {| apiEndpoint := "/api/providers/ollama/models";
         dedupeModels := false;
         updateFunction := fun models => [UpdateOllamaProviderModels models] |}
  | openrouter =>
      {| apiEndpoint := "/api/providers/openrouter/models";
         dedupeModels := true;
         updateFunction := fun models => [UpdateOpenRouterProviderModels models] |}
  end.

Record ProviderState := { models : list string; isLoading : bool }.

(** The store, with the registry calls made so far, oldest first. *)
Record Store := {
  providers : ProviderName -> ProviderState;
  registryCalls : list RegistryCall
}.

Definition initialStore : Store :=
  {| providers := fun _ => {| models := []; isLoading := false |};
     registryCalls := [] |}.

(** [{ ...state.providers, [provider]: s }] *)
Definition setProvider (provider : ProviderName) (s : ProviderState) (st : Store) : Store :=
  {| providers := fun other => if decide (other = provider) then s else providers st other;
     registryCalls := registryCalls st |}.

(** What the request of [fetchProviderModels] comes to: [fetch]
    rejects, the response is not [ok], [response.json()] rejects or
    gives a value without a truthy [models], or gives the models. *)
Inductive FetchResult :=
| FetchRejected
| ResponseNotOk
| JsonRejected
| Data (dataModels : option (list string)).

Definition fetchProviderModels (provider : ProviderName) (result : FetchResult) : list string :=
  match result with
  | Data (Some dataModels) => dataModels
  | _ => []
  end.

Definition setModels (provider : ProviderName) (newModels : list string) (st : Store) : Store :=
  let config := PROVIDER_CONFIGS provider in
  let processedModels :=
    if dedupeModels config then uniqueInOrder ∅ newModels else newModels in
  let st' :=
    setProvider provider
      {| models := processedModels; isLoading := isLoading (providers st provider) |} st in
  {| providers := providers st';
     registryCalls := registryCalls st' ++ updateFunction config newModels |}.

Definition setLoading (provider : ProviderName) (loading : bool) (st : Store) : Store :=
  setProvider provider
    {| models := models (providers st provider); isLoading := loading |} st.

(** [fetchModels] up to its [await]: [None] when it returns at once,
    on the server or while a fetch is in progress. *)
Definition fetchModelsBegin (onServer : bool) (provider : ProviderName) (st : Store)
  : option Store :=
  if onServer then None
  else if isLoading (providers st provider) then None
  else Some (setLoading provider true st).

(** [fetchModels] after the [await], on the store as it is then. *)
Definition fetchModelsEnd (provider : ProviderName) (result : FetchResult) (st : Store) : Store :=
  setLoading provider false (setModels provider (fetchProviderModels provider result) st).

(** A call of [fetchModels] that nothing interleaves with. *)
Definition fetchModels (onServer : bool) (provider : ProviderName) (result : FetchResult)
    (st : Store) : Store :=
  match fetchModelsBegin onServer provider st with
  | Some loading => fetchModelsEnd provider result loading
  | None => st
  end.

Definition getProvider (provider : ProviderName) (st : Store) : ProviderState :=
  providers st provider.

End Providers.

(** ** The file serving route *)

Module FilesServe.

(** What is thrown: a [FileNotFoundError], another [Error], or a
    value that is no [Error]. *)
Inductive Thrown :=
| FileNotFoundError (message : string)
| OtherError (message : string)
| NotAnError (value : JsVal).

Inductive Outcome (A : Type) : Type :=
| Return (a : A)
| Raise (e : Thrown).
Arguments Return {A} a.
Arguments Raise {A} e.

Definition bind {A B} (m : Outcome A) (k : A -> Outcome B) : Outcome B :=
  match m with
  | Return a => k a
  | Raise e => Raise e
  end.

(** [authResult]: [userId] is [""] when absent. *)
Record AuthResult := { success : bool; userId : string }.

(** The request: [params.path] and the query parameters [context]
    and [bucket] ([None] for [null]). *)
Record Request := {
  path : option (list string);
  contextParam : option string;
  legacyBucketType : option string
}.

(** The collaborators of the route. *)
Record Services := {
  checkHybridAuth : Request -> Outcome AuthResult;
  isUsingCloudStorage : bool;
  inferContextFromKey : string -> option string;
  (** [verifyFileAccess(key, userId, legacyBucketType, undefined, context, isLocal)] *)
  verifyFileAccess : string -> string -> option string -> option string -> bool -> Outcome bool;
  findLocalFile : string -> option string;
  readFile : string -> Outcome string;
  downloadCopilotFile : string -> Outcome string;
  (** [downloadFile({ key, context })] *)
  downloadFile : string -> option string -> Outcome string;
  getContentType : string -> string
}.

Inductive Response :=
| Unauthorized
| ErrorResponse (e : Thrown)
| FileResponse (buffer : string) (contentType : string) (filename : string).

(** [v || null] and the truthiness of a query parameter. *)
Definition truthyParam (v : option string) : option string :=
  match v with
  | Some s => if String.eqb s "" then None else Some s
  | None => None
  end.

Definition handleLocalFile (sv : Services) (filename : string) (userId : string) : Outcome Response :=
  let contextParam := inferContextFromKey sv filename in
  bind (verifyFileAccess sv filename userId None contextParam true) (fun hasAccess =>
    if negb hasAccess then Raise (FileNotFoundError ("File not found: " +:+ filename))
    else
      match findLocalFile sv filename with
      | None => Raise (FileNotFoundError ("File not found: " +:+ filename))
      | Some filePath =>
          if String.eqb filePath "" then
            Raise (FileNotFoundError ("File not found: " +:+ filename))
          else
            bind (readFile sv filePath) (fun fileBuffer =>
              Return (FileResponse fileBuffer (getContentType sv filename) filename))
      end).

Definition handleCloudProxy (sv : Services) (cloudKey : string) (userId : string)
    (contextParam legacyBucketType : option string) : Outcome Response :=
  let context :=
    match truthyParam contextParam with
    | Some c => Some c
    | None =>
        if bool_decide (legacyBucketType = Some "copilot") then Some "copilot"
        else inferContextFromKey sv cloudKey
    end in
  bind (verifyFileAccess sv cloudKey userId (truthyParam legacyBucketType) context false)
    (fun hasAccess =>
      if negb hasAccess then Raise (FileNotFoundError ("File not found: " +:+ cloudKey))
      else
        bind (if bool_decide (context = Some "copilot")
              then downloadCopilotFile sv cloudKey
              else downloadFile sv cloudKey context) (fun fileBuffer =>
          let last := List.last (JsString.split "/" cloudKey) "" in
          let originalFilename := if String.eqb last "" then "download" else last in
          Return (FileResponse fileBuffer (getContentType sv originalFilename)
                               originalFilename))).

(** The key of the stored object: the path without its [s3] or
    [blob] marker. *)
Definition isCloudPath (path : list string) : bool :=
  match path with
  | first :: _ => String.eqb first "s3" || String.eqb first "blob"
  | [] => false
  end.

Definition cloudKeyOf (path : list string) : string :=
  if isCloudPath path then JsString.join "/" (tail path) else JsString.join "/" path.

(** The body of the [try] of [GET]. *)
Definition serve (sv : Services) (request : Request) : Outcome Response :=
  match path request with
  | None | Some [] => Raise (FileNotFoundError "No file path provided")
  | Some path =>
      bind (checkHybridAuth sv request) (fun authResult =>
        if negb (success authResult) || String.eqb (userId authResult) "" then
          Return Unauthorized
        else
          let fullPath := JsString.join "/" path in
          if isUsingCloudStorage sv || isCloudPath path then
            handleCloudProxy sv (cloudKeyOf path) (userId authResult)
                             (contextParam request) (legacyBucketType request)
          else handleLocalFile sv fullPath (userId authResult))
  end.

Definition GET (sv : Services) (request : Request) : Response :=
  match serve sv request with
  | Return response => response
  | Raise (NotAnError _) => ErrorResponse (OtherError "Failed to serve file")
  | Raise e => ErrorResponse e
  end.

End FilesServe.

(** ** The accessible prefixes *)

(** Modelled from the spec: the hook [useAccessibleReferencePrefixes]
    of the Scope Resolver is not among the sources.  By the spec its
    result for a block is "the complete set of upstream block ids
    reachable by following edges backward" from it, "all ancestors via
    any path".  [upstream es n found] adds [n] times the sources of the
    edges into the blocks found so far. *)
Fixpoint upstream (es : list Edge.t) (n : nat) (found : gset string) : gset string :=
  match n with
  | O => found
  | S n' =>
      upstream es n'
        (found ∪ list_to_set (map Edge.source
                                  (filter (fun e => Edge.target e ∈ found) es)))
  end.



(** ** Further scenarios *)

Module Fixtures.

(** An agent whose stored response format is a reference and whose
    model has a live value. *)
Definition formatBlock : Block.t :=
  Block.mk "fmt" "agent" "Formatter" false
    (JObj [("responseFormat",
            JObj [("id", JStr "responseFormat"); ("value", JStr " <start.schema> ")]);
           ("model", JObj [("id", JStr "model"); ("value", JStr "stored")])]).

Definition formatWorkflow : Workflow :=
  {| blocks := [Scenario.block "starter" "starter" "Start"; ("fmt", formatBlock);
                Scenario.block "next" "agent" "Next"];
     edges := [Edge.mk "starter" "fmt"; Edge.mk "fmt" "next"];
     loops := [];
     parallels := [] |}.

Definition formatProps : Props.t :=
  {| Props.blockId := "next";
     Props.activeSourceBlockId := None;
     Props.inputValue := "<";
     Props.cursorPosition := 1;
     Props.workflow := formatWorkflow;
     Props.workflowSubBlockValues := JObj [("fmt", JObj [("model", JStr "live")])];
     Props.workflowVariables := [];
     Props.rawAccessiblePrefixes := Some ["fmt"; "starter"] |}.




(** The text [{"properties":{"title":{},"score":null}}] of a schema
    with a [null] property, and [{"properties":{"title":{}}}]. *)
Definition quote : string := String "034" "".

Definition nullPropertyText : string :=
  "{" +:+ quote +:+ "properties" +:+ quote +:+ ":{"
      +:+ quote +:+ "title" +:+ quote +:+ ":{},"
      +:+ quote +:+ "score" +:+ quote +:+ ":null}}".

Definition schemaText : string :=
  "{" +:+ quote +:+ "properties" +:+ quote +:+ ":{"
      +:+ quote +:+ "title" +:+ quote +:+ ":{}}}".

Definition nullPropertySchema : list (string * JsVal) :=
  [("title", JObj []); ("score", JNull)].

Definition titleSchema : list (string * JsVal) := [("title", JObj [])].

(** The registries of [Scenario] with a sub-block store that holds a
    response format for the blocks [fmt], [sch] and [bad], and a
    [JSON.parse] that knows the two texts. *)
Definition hookExternals : Externals := {|
  getBlock := @getBlock Scenario.externals;
  getTool := @getTool Scenario.externals;
  getBlockOutputPaths := @getBlockOutputPaths Scenario.externals;
  getBlockOutputType := @getBlockOutputType Scenario.externals;
  getSubBlockValue id property :=
    if String.eqb property "responseFormat" then
      if String.eqb id "fmt" then JStr " <start.schema> "
      else if String.eqb id "sch" then JStr schemaText
      else if String.eqb id "bad" then JStr nullPropertyText
      else JUndefined
    else JUndefined;
  JSON_parse text :=
    if String.eqb text schemaText then Normal (JObj [("properties", JObj titleSchema)])
    else if String.eqb text nullPropertyText
    then Normal (JObj [("properties", JObj nullPropertySchema)])
    else Throw (JStr "SyntaxError");
  libParseResponseFormatSafely := @libParseResponseFormatSafely Scenario.externals;
  libExtractFieldNames := @libExtractFieldNames Scenario.externals;
  getBlockOutputs := @getBlockOutputs Scenario.externals;
  findAllPathNodes es blockId :=
    elements (upstream es (length es) {[blockId]} ∖ {[blockId]})
|}.

Definition schemaBlock : Block.t := Block.mk "sch" "agent" "Schema" false (JObj []).
Definition badBlock : Block.t := Block.mk "bad" "agent" "Bad" false (JObj []).

(** [starter -> fmt -> next], with [sch] and [bad] beside. *)
Definition hookProps : Props.t :=
  {| Props.blockId := "next";
     Props.activeSourceBlockId := None;
     Props.inputValue := "";
     Props.cursorPosition := 0;
     Props.workflow :=
       {| blocks := [Scenario.block "starter" "starter" "Start"; ("fmt", formatBlock);
                     ("sch", schemaBlock); ("bad", badBlock);
                     Scenario.block "next" "agent" "Next"];
          edges := [Edge.mk "starter" "fmt"; Edge.mk "fmt" "next"];
          loops := [];
          parallels := [] |};
     Props.workflowSubBlockValues := JObj [];
     Props.workflowVariables := [];
     Props.rawAccessiblePrefixes := None |}.

(** [starter -> A -> V -> D], the block [V] being named [Variable];
    the dropdown of [D]. *)
Definition namedVariableProps : Props.t :=
  {| Props.blockId := "d";
     Props.activeSourceBlockId := None;
     Props.inputValue := "<";
     Props.cursorPosition := 1;
     Props.workflow :=
       {| blocks := [Scenario.block "starter" "starter" "Start";
                     Scenario.block "a" "agent" "A";
                     Scenario.block "v" "agent" "Variable";
                     Scenario.block "d" "agent" "D"];
          edges := [Edge.mk "starter" "a"; Edge.mk "a" "v"; Edge.mk "v" "d"];
          loops := [];
          parallels := [] |};
     Props.workflowSubBlockValues := JObj [];
     Props.workflowVariables := [WfVariable.mk "v1" "my var" "string"];
     Props.rawAccessiblePrefixes := Some ["v"; "a"; "starter"] |}.

Definition groupVariableBlock : BlockTagGroup :=
  {| blockName := "Variable"; blockId := "v"; blockType := "agent";
     tags := ["variable.content"; "variable.model"]; distance := 2 |}.

(** The no-break space, code unit 160, and a capital E with an
    acute accent, code unit 201. *)
Definition nbsp : string := String "160" "".
Definition capitalEAcute : string := String "201" "".
Definition smallEAcute : string := String "233" "".

(** A group with a nested output, and one in which the user field
    [constructor] has a child. *)
Definition nestedGroup : BlockTagGroup :=
  {| blockName := "A"; blockId := "a"; blockType := "agent";
     tags := ["a.tokens.prompt"; "a.content"; "a.tokens.total"]; distance := 1 |}.

Definition inheritedGroup : BlockTagGroup :=
  {| blockName := "A"; blockId := "a"; blockType := "agent";
     tags := ["a.content"; "a.constructor.name"]; distance := 1 |}.

(** The dropdown of [C] showing the single source block [source]. *)
Definition sourceProps (source : string) : Props.t :=
  {| Props.blockId := Props.blockId Scenario.propsC;
     Props.activeSourceBlockId := Some source;
     Props.inputValue := Props.inputValue Scenario.propsC;
     Props.cursorPosition := Props.cursorPosition Scenario.propsC;
     Props.workflow := Props.workflow Scenario.propsC;
     Props.workflowSubBlockValues := Props.workflowSubBlockValues Scenario.propsC;
     Props.workflowVariables := Props.workflowVariables Scenario.propsC;
     Props.rawAccessiblePrefixes := Props.rawAccessiblePrefixes Scenario.propsC |}.




(** The variable of [Scenario.props]. *)
Definition myVar : WfVariable.t := WfVariable.mk "v1" "my var" "string".

(** The starter group as [C] sees it. *)
Definition groupStarter : BlockTagGroup :=
  {| blockName := "Start"; blockId := "starter"; blockType := "starter";
     tags := ["start.input"]; distance := 0 |}.

(** The selection on the third tag, and on the last one, of the six
    tags [C] is offered. *)
(** What the render of the dropdown of [C] gives the keyboard
    handler. *)
Definition orderedC : list string :=
  ["variable.myvar"; "start.input"; "a.content"; "a.model"; "loop1"; "loop1.results"].

Definition direct (key tag : string) : NestedTag :=
  DirectTag {| key := key; display := key; fullTag := tag |}.

Definition groupStart : BlockTagGroup :=
  {| blockName := "Start"; blockId := "starter"; blockType := "starter";
     tags := ["start.input"]; distance := 0 |}.

Definition nestedC : list (BlockTagGroup * list NestedTag) :=
  [(groupStart, [direct "input" "start.input"]);
   (Scenario.groupA, [direct "content" "a.content"; direct "model" "a.model"]);
   (Scenario.groupLoopBlock, [direct "loop1" "loop1"; direct "results" "loop1.results"])].

Definition onThirdTag : Nav.t := Nav.mk 2 None false 0.
Definition onLastTag : Nav.t := Nav.mk 5 None false 0.

(** The store while the models of [ollama] are being fetched. *)
Definition ollamaLoading : Providers.Store :=
  Providers.setLoading Providers.ollama true Providers.initialStore.

(** A local store with one readable file, to which only the user
    [u1] has access. *)
Definition localServices : FilesServe.Services :=
  {| FilesServe.checkHybridAuth := fun _ =>
       FilesServe.Return {| FilesServe.success := true; FilesServe.userId := "u1" |};
     FilesServe.isUsingCloudStorage := false;
     FilesServe.inferContextFromKey := fun _ => Some "workspace";
     FilesServe.verifyFileAccess := fun key user _ _ _ =>
       FilesServe.Return (String.eqb key "workspace/a.txt" && String.eqb user "u1");
     FilesServe.findLocalFile := fun name =>
       if String.eqb name "workspace/a.txt" then Some "/data/workspace/a.txt"
       else if String.eqb name "workspace/b.txt" then Some "/data/workspace/b.txt"
       else None;
     FilesServe.readFile := fun _ => FilesServe.Return "hello";
     FilesServe.downloadCopilotFile := fun _ => FilesServe.Raise (FilesServe.OtherError "no storage");
     FilesServe.downloadFile := fun _ _ => FilesServe.Raise (FilesServe.OtherError "no storage");
     FilesServe.getContentType := fun _ => "text/plain" |}.

Definition requestFor (segments : list string) : FilesServe.Request :=
  {| FilesServe.path := Some segments;
     FilesServe.contextParam := None;
     FilesServe.legacyBucketType := None |}.

Definition authU1 : FilesServe.AuthResult :=
  {| FilesServe.success := true; FilesServe.userId := "u1" |}.

End Fixtures.


(** * Facts about JavaScript strings *)

Module JsStringFacts.
Import JsString.

Lemma append_cons a s t : String a s +:+ t = String a (s +:+ t).
Proof. reflexivity. Qed.

Lemma append_empty_l t : "" +:+ t = t.
Proof. reflexivity. Qed.

Lemma length_append s t :
  String.length (s +:+ t) = (String.length s + String.length t)%nat.
Proof.
  induction s as [|a s IH]; [done|]. rewrite append_cons. simpl. by rewrite IH.
Qed.

Lemma len_append s t : len (s +:+ t) = len s + len t.
Proof. unfold len. rewrite length_append. lia. Qed.

Lemma len_nonneg s : 0 <= len s.
Proof. unfold len. lia. Qed.

Lemma append_assoc s t u : (s +:+ t) +:+ u = s +:+ t +:+ u.
Proof.
  induction s as [|a s IH]; [done|]. by rewrite !append_cons, IH.
Qed.

Lemma append_empty_r s : s +:+ "" = s.
Proof.
  induction s as [|a s IH]; [done|]. by rewrite append_cons, IH.
Qed.

Lemma substring_0_0 s : substring 0 0 s = "".
Proof. by destruct s. Qed.

Lemma substring_prefix s t : substring 0 (String.length s) (s +:+ t) = s.
Proof.
  induction s as [|a s IH]; [apply substring_0_0|].
  rewrite append_cons. simpl. by rewrite IH.
Qed.

Lemma substring_all s : substring 0 (String.length s) s = s.
Proof. rewrite <- (append_empty_r s) at 2. apply substring_prefix. Qed.

Lemma substring_suffix s t :
  substring (String.length s) (String.length t) (s +:+ t) = t.
Proof.
  induction s as [|a s IH]; [apply substring_all|]. by rewrite append_cons.
Qed.

Lemma substring_0_length n s :
  (n <= String.length s)%nat -> String.length (substring 0 n s) = n.
Proof.
  revert n. induction s as [|a s IH]; intros [|n] Hn; simpl in *; try done; try lia.
  rewrite IH; lia.
Qed.

Lemma clampIndex_nonneg s i : 0 <= i -> clampIndex s i = Z.min i (len s).
Proof.
  intros Hi. unfold clampIndex.
  by replace (i <? 0) with false by (symmetry; apply Z.ltb_ge; lia).
Qed.

Lemma slice_in_range s a b :
  0 <= a <= b -> b <= len s ->
  slice s a b = substring (Z.to_nat a) (Z.to_nat (b - a)) s.
Proof.
  intros Hab Hb. unfold slice. rewrite !clampIndex_nonneg by lia.
  rewrite !Z.min_l by lia. do 2 f_equal. lia.
Qed.

(** The text before a cursor is the prefix of that length, the whole
    text when the cursor is beyond its end. *)
Lemma slice_0 s n :
  0 <= n -> slice s 0 n = substring 0 (Z.to_nat (Z.min n (len s))) s.
Proof.
  intros Hn. pose proof (len_nonneg s).
  unfold slice. rewrite !clampIndex_nonneg by lia.
  rewrite (Z.min_l 0) by lia. simpl Z.to_nat at 1. do 2 f_equal. lia.
Qed.

Lemma slice_prefix s t : slice (s +:+ t) 0 (len s) = s.
Proof.
  pose proof (len_nonneg s). pose proof (len_nonneg t).
  rewrite slice_in_range by (rewrite ?len_append; lia).
  rewrite Z.sub_0_r. unfold len. rewrite Nat2Z.id. apply substring_prefix.
Qed.

Lemma sliceFrom_suffix s t : sliceFrom (s +:+ t) (len s) = t.
Proof.
  pose proof (len_nonneg s). pose proof (len_nonneg t).
  unfold sliceFrom. rewrite slice_in_range by (rewrite ?len_append; lia).
  rewrite len_append. replace (len s + len t - len s) with (len t) by lia.
  unfold len. rewrite !Nat2Z.id. apply substring_suffix.
Qed.

Lemma len_slice_0 s n : 0 <= n <= len s -> len (slice s 0 n) = n.
Proof.
  intros Hn. rewrite slice_0 by lia. rewrite Z.min_l by lia.
  unfold len in *. rewrite substring_0_length; lia.
Qed.

Lemma lastIndexOf_range s c : -1 <= lastIndexOf s c < len s.
Proof.
  unfold len. induction s as [|a s IH]; simpl; [lia|].
  destruct (lastIndexOf s c <? 0) eqn:E; [destruct (Ascii.eqb a c)|]; lia.
Qed.

Lemma indexOf_range s c : -1 <= indexOf s c < len s.
Proof.
  unfold len. induction s as [|a s IH]; simpl; [lia|].
  destruct (Ascii.eqb a c); [lia|].
  destruct (indexOf s c <? 0) eqn:E; lia.
Qed.

Lemma lastIndexOf_snoc s c : lastIndexOf (s +:+ String c "") c = len s.
Proof.
  unfold len. induction s as [|a s IH].
  - simpl. by rewrite Ascii.eqb_refl.
  - rewrite append_cons. cbn [lastIndexOf String.length]. rewrite IH.
    destruct (Z.of_nat (String.length s) <? 0) eqn:E; lia.
Qed.

Lemma noChar_cons c a s :
  noChar c (String a s) = negb (Ascii.eqb a c) && noChar c s.
Proof. reflexivity. Qed.

Lemma noChar_append c s t : noChar c (s +:+ t) = noChar c s && noChar c t.
Proof.
  induction s as [|a s IH]; [done|].
  rewrite append_cons, !noChar_cons, IH. by rewrite andb_assoc.
Qed.

Lemma lastIndexOf_none s c : lastIndexOf s c = -1 <-> noChar c s = true.
Proof.
  induction s as [|a s IH]; [done|].
  pose proof (lastIndexOf_range s c) as Hr.
  rewrite noChar_cons. cbn [lastIndexOf].
  destruct (lastIndexOf s c <? 0) eqn:E.
  - assert (Hs : lastIndexOf s c = -1) by lia.
    apply IH in Hs. rewrite Hs, andb_true_r.
    destruct (Ascii.eqb a c); simpl; split; (done || lia).
  - split; [lia|]. intros [_ Hs]%andb_true_iff. apply IH in Hs. lia.
Qed.

Lemma indexOf_none s c : indexOf s c = -1 <-> noChar c s = true.
Proof.
  induction s as [|a s IH]; [done|].
  pose proof (indexOf_range s c) as Hr.
  rewrite noChar_cons. cbn [indexOf].
  destruct (Ascii.eqb a c); simpl; [split; (done || lia)|].
  destruct (indexOf s c <? 0) eqn:E.
  - assert (Hs : indexOf s c = -1) by lia. apply IH in Hs. by rewrite Hs.
  - split; [lia|]. intros Hs. apply IH in Hs. lia.
Qed.

(** [lastIndexOf] finds the occurrence no other occurrence follows. *)
Lemma lastIndexOf_split pre c mid :
  noChar c mid = true -> lastIndexOf (pre +:+ String c mid) c = len pre.
Proof.
  intros Hmid. unfold len. induction pre as [|a pre IH].
  - rewrite append_empty_l. cbn [lastIndexOf].
    apply lastIndexOf_none in Hmid. rewrite Hmid. simpl.
    by rewrite Ascii.eqb_refl.
  - rewrite append_cons. cbn [lastIndexOf String.length]. rewrite IH.
    destruct (Z.of_nat (String.length pre) <? 0) eqn:E; lia.
Qed.

(** [indexOf] finds the occurrence no other occurrence precedes. *)
Lemma indexOf_split pre c rest :
  noChar c pre = true -> indexOf (pre +:+ String c rest) c = len pre.
Proof.
  unfold len. induction pre as [|a pre IH]; intros Hpre.
  - rewrite append_empty_l. cbn [indexOf]. by rewrite Ascii.eqb_refl.
  - rewrite noChar_cons in Hpre. apply andb_true_iff in Hpre as [Ha Hpre].
    rewrite append_cons. cbn [indexOf String.length].
    apply negb_true_iff in Ha. rewrite Ha, (IH Hpre).
    destruct (Z.of_nat (String.length pre) <? 0) eqn:E; lia.
Qed.

(** Every text in which [c] occurs splits at its last occurrence. *)
Lemma lastIndexOf_exists s c :
  lastIndexOf s c <> -1 ->
  exists pre mid, s = pre +:+ String c mid /\ noChar c mid = true.
Proof.
  induction s as [|a s IH]; [done|]. cbn [lastIndexOf].
  pose proof (lastIndexOf_range s c) as Hr.
  destruct (lastIndexOf s c <? 0) eqn:E.
  - assert (Hs : lastIndexOf s c = -1) by lia. apply lastIndexOf_none in Hs.
    destruct (Ascii.eqb_spec a c) as [->|]; [|done].
    intros _. by exists "", s.
  - intros _. destruct IH as (pre & mid & -> & Hmid); [lia|].
    by exists (String a pre), mid.
Qed.

Lemma lastIndexOf_append s t c :
  lastIndexOf (s +:+ t) c =
  if lastIndexOf t c <? 0 then lastIndexOf s c else len s + lastIndexOf t c.
Proof.
  unfold len. induction s as [|a s IH].
  - rewrite append_empty_l. destruct (lastIndexOf t c <? 0) eqn:E; simpl; [|lia].
    pose proof (lastIndexOf_range t c). lia.
  - rewrite append_cons. cbn [lastIndexOf String.length]. rewrite IH.
    pose proof (lastIndexOf_range s c). pose proof (lastIndexOf_range t c).
    destruct (lastIndexOf t c <? 0) eqn:E; [done|].
    destruct (Z.of_nat (String.length s) + lastIndexOf t c <? 0) eqn:E2; lia.
Qed.

Lemma split_nonempty c s : split c s <> [].
Proof.
  destruct s as [|a s]; simpl; [done|].
  destruct (Ascii.eqb a c); [done|]. by destruct (split c s).
Qed.

Lemma split_cons c a s :
  split c (String a s)
  = if Ascii.eqb a c then "" :: split c s
    else String a (hd "" (split c s)) :: tail (split c s).
Proof.
  simpl. destruct (Ascii.eqb a c); [done|].
  pose proof (split_nonempty c s). by destruct (split c s).
Qed.

(** A text without separator is its own single part. *)
Lemma split_noChar c s : noChar c s = true -> split c s = [s].
Proof.
  induction s as [|a s IH]; [done|].
  rewrite noChar_cons. intros [Ha Hs]%andb_true_iff.
  rewrite split_cons, (IH Hs). apply negb_true_iff in Ha. by rewrite Ha.
Qed.

(** The parts before and after a separator. *)
Lemma split_append c s t : split c (s +:+ String c t) = split c s ++ split c t.
Proof.
  induction s as [|a s IH].
  - rewrite append_empty_l, split_cons. by rewrite Ascii.eqb_refl.
  - rewrite append_cons, !split_cons, IH.
    pose proof (split_nonempty c s).
    destruct (Ascii.eqb a c); [done|]. by destruct (split c s).
Qed.

Lemma join_cons sep x xs :
  xs <> [] -> join sep (x :: xs) = x +:+ sep +:+ join sep xs.
Proof. by destruct xs. Qed.

(** Joining the parts with the separator gives the text back. *)
Lemma join_split c s : join (String c "") (split c s) = s.
Proof.
  induction s as [|a s IH]; [done|].
  rewrite split_cons. pose proof (split_nonempty c s) as Hne.
  destruct (Ascii.eqb_spec a c) as [->|Hac].
  - rewrite join_cons by done. by rewrite IH.
  - destruct (split c s) as [|w ws]; [done|]. simpl hd. simpl tail.
    destruct ws as [|w' ws].
    + simpl in *. by subst.
    + rewrite join_cons in IH by done. rewrite join_cons by done.
      rewrite <- IH. by rewrite append_cons.
Qed.

Lemma nth_pred_length {A} (l : list A) d :
  nth (length l - 1) l d = List.last l d.
Proof.
  induction l as [|x l IH]; [done|].
  destruct l as [|y l]; [done|].
  simpl length in *. simpl List.last in *.
  rewrite <- IH. replace (S (S (length l)) - 1)%nat with (S (length l)) by lia.
  simpl. by rewrite Nat.sub_0_r.
Qed.

End JsStringFacts.

(** * Tag insertion *)

Section InsertionFacts.
Context `{Externals}.
Variable p : Props.t.
Import JsString JsStringFacts.

(** The value built by [handleTagSelect], in terms of the text before
    the nearest ['<']. *)
Lemma handleTagSelect_some liveValue liveCursor tag blockGroup :
  let textBeforeCursor := slice liveValue 0 liveCursor in
  lastIndexOf textBeforeCursor "<" <> -1 ->
  handleTagSelect p liveValue liveCursor tag blockGroup
  = Some (slice textBeforeCursor 0 (lastIndexOf textBeforeCursor "<")
          +:+ "<" +:+ processedTag p tag blockGroup +:+ ">"
          +:+ remainingTextAfterCursor (sliceFrom liveValue liveCursor)).
Proof.
  intros before Hlo. unfold handleTagSelect. fold before.
  destruct (lastIndexOf before "<" =? -1) eqn:E; [lia | done].
Qed.

Lemma handleTagSelect_none liveValue liveCursor tag blockGroup :
  lastIndexOf (slice liveValue 0 liveCursor) "<" = -1 ->
  handleTagSelect p liveValue liveCursor tag blockGroup = None.
Proof. intros Hlo. unfold handleTagSelect. by rewrite Hlo. Qed.

Lemma checkTagTrigger_closed x rest :
  checkTagTrigger ((x +:+ ">") +:+ rest) (len x + 1) = false.
Proof.
  unfold checkTagTrigger.
  pose proof (len_nonneg x) as Hx.
  destruct (1 <=? len x + 1) eqn:E; [|done].
  replace (len x + 1) with (len (x +:+ ">")) by (rewrite len_append; done).
  rewrite slice_prefix, lastIndexOf_snoc.
  pose proof (lastIndexOf_range (x +:+ ">") "<") as Hr.
  rewrite len_append in Hr. change (len ">") with 1 in Hr.
  destruct (lastIndexOf (x +:+ ">") "<" =? -1) eqn:E1; [done|].
  destruct (len x =? -1) eqn:E2; [lia|].
  destruct (len x <? lastIndexOf (x +:+ ">") "<") eqn:E3; [lia|done].
Qed.

Lemma processedTag_no_group tag : processedTag p tag None = tag.
Proof.
  unfold processedTag, fileIndexedTag.
  destruct (_ && includesTag fileProperties _);
    destruct (startsWith tag TAG_PREFIXES_VARIABLE); try done;
    by destruct (find _ _).
Qed.

(** C5: a tag selected at a cursor that an opening delimiter precedes
    is inserted: the new value is the text before that delimiter, the
    reference [<tag>] in the form [processedTag] gives the tag (the tag
    itself when no group is passed) and the remaining text; with the
    cursor placed immediately after the inserted closing delimiter,
    the text before the cursor ends with the reference and the
    trigger check finds no pending opening delimiter: [checkTagTrigger]
    does not show the dropdown. *)
Theorem insertion_round_trip liveValue liveCursor tag blockGroup :
  lastIndexOf (slice liveValue 0 liveCursor) "<" <> -1 ->
  exists newValue,
    handleTagSelect p liveValue liveCursor tag blockGroup = Some newValue /\
    checkTagTrigger newValue (cursorAfterInsertion p liveValue liveCursor tag blockGroup) = false /\
    (let before := slice liveValue 0 liveCursor in
     let inserted :=
       slice before 0 (lastIndexOf before "<")
       +:+ "<" +:+ processedTag p tag blockGroup +:+ ">" in
     newValue = inserted +:+ remainingTextAfterCursor (sliceFrom liveValue liveCursor) /\
     cursorAfterInsertion p liveValue liveCursor tag blockGroup = len inserted /\
     slice newValue 0 (cursorAfterInsertion p liveValue liveCursor tag blockGroup) = inserted /\
     (blockGroup = None -> processedTag p tag blockGroup = tag)).
Proof.
  intros Hlo. eexists. split; [by apply handleTagSelect_some|].
  unfold cursorAfterInsertion.
  set (before := slice liveValue 0 liveCursor) in *.
  set (lo := lastIndexOf before "<") in *.
  set (processed := processedTag p tag blockGroup).
  pose proof (lastIndexOf_range before "<") as Hr. fold lo in Hr.
  assert (Hpre : len (slice before 0 lo) = lo) by (apply len_slice_0; lia).
  assert (Hlen : lo + 1 + len processed + 1
                 = len (slice before 0 lo +:+ "<" +:+ processed +:+ ">")).
  { rewrite !len_append, Hpre. change (len "<") with 1. change (len ">") with 1. lia. }
  split.
  - rewrite <- !append_assoc.
    replace (lo + 1 + len processed + 1)
      with (len ((slice before 0 lo +:+ "<") +:+ processed) + 1).
    + apply checkTagTrigger_closed.
    + rewrite !len_append, Hpre. done.
  - cbv zeta. split; [by rewrite !append_assoc|]. split; [exact Hlen|]. split.
    + rewrite Hlen.
      replace (slice before 0 lo +:+ "<" +:+ processed +:+ ">"
               +:+ remainingTextAfterCursor (sliceFrom liveValue liveCursor))
        with ((slice before 0 lo +:+ "<" +:+ processed +:+ ">")
              +:+ remainingTextAfterCursor (sliceFrom liveValue liveCursor))
        by (by rewrite !append_assoc).
      apply slice_prefix.
    + intros ->. apply processedTag_no_group.
Qed.

Lemma remainingTextAfterCursor_close between rest :
  noChar ">" between = true ->
  remainingTextAfterCursor (between +:+ ">" +:+ rest)
  = if isPartialReference between then rest else between +:+ ">" +:+ rest.
Proof.
  intros Hb. unfold remainingTextAfterCursor.
  change (between +:+ ">" +:+ rest) with (between +:+ String ">" rest).
  rewrite indexOf_split by done.
  pose proof (len_nonneg between).
  destruct (len between =? -1) eqn:E; [lia|]. simpl negb. cbv iota.
  rewrite slice_prefix.
  destruct (isPartialReference between); [|done].
  change (between +:+ String ">" rest) with (between +:+ ">" +:+ rest).
  rewrite <- append_assoc.
  replace (len between + 1) with (len (between +:+ ">")) by (by rewrite len_append).
  apply sliceFrom_suffix.
Qed.

Lemma remainingTextAfterCursor_open after :
  noChar ">" after = true -> remainingTextAfterCursor after = after.
Proof.
  intros Ha. unfold remainingTextAfterCursor.
  apply indexOf_none in Ha. by rewrite Ha.
Qed.

(** When the trigger check shows the dropdown, no ['>'] follows the
    nearest ['<'] before the cursor. *)
Lemma trigger_unterminated text cursor pre mid :
  slice text 0 cursor = pre +:+ String "<" mid ->
  noChar "<" mid = true ->
  checkTagTrigger text cursor = true ->
  noChar ">" mid = true.
Proof.
  intros Hb Hmid. unfold checkTagTrigger.
  destruct (1 <=? cursor); [|done]. rewrite Hb.
  rewrite lastIndexOf_split by done.
  rewrite lastIndexOf_append. cbn [lastIndexOf].
  pose proof (lastIndexOf_range mid ">") as Hr.
  pose proof (len_nonneg pre).
  destruct (noChar ">" mid) eqn:Hn; [done|].
  assert (lastIndexOf mid ">" <> -1) as Hne.
  { intros Hs%lastIndexOf_none. congruence. }
  destruct (lastIndexOf mid ">" <? 0) eqn:E; [lia|].
  destruct (lastIndexOf mid ">" + 1 <? 0) eqn:E1; [lia|].
  destruct (len pre =? -1) eqn:E2; [lia|].
  destruct (len pre + (lastIndexOf mid ">" + 1) =? -1) eqn:E3; [lia|].
  destruct (len pre + (lastIndexOf mid ">" + 1) <? len pre) eqn:E4; [lia|].
  done.
Qed.

Lemma handleTagSelect_split liveValue liveCursor tag blockGroup pre mid :
  slice liveValue 0 liveCursor = pre +:+ "<" +:+ mid ->
  noChar "<" mid = true ->
  handleTagSelect p liveValue liveCursor tag blockGroup
  = Some (pre +:+ "<" +:+ processedTag p tag blockGroup +:+ ">"
          +:+ remainingTextAfterCursor (sliceFrom liveValue liveCursor)).
Proof.
  intros Hb Hmid.
  assert (Hlo : lastIndexOf (slice liveValue 0 liveCursor) "<" = len pre).
  { rewrite Hb. by apply (lastIndexOf_split pre "<" mid). }
  pose proof (len_nonneg pre).
  rewrite handleTagSelect_some by lia.
  by rewrite Hlo, Hb, slice_prefix.
Qed.

(** C6 (amended): tag insertion does nothing when no ['<'] precedes
    the cursor; otherwise it replaces the span from the nearest
    preceding ['<'] (terminated or not; it is unterminated whenever
    the trigger check shows the dropdown) to the cursor by the
    processed tag between ['<'] and ['>'], and it also drops the text
    up to and including the next ['>'] after the cursor exactly when
    the text before that ['>'] consists of letters, digits, ['.'] and
    ['_'] only. *)
Theorem tag_insertion_spans liveValue liveCursor tag blockGroup :
  let before := slice liveValue 0 liveCursor in
  let after := sliceFrom liveValue liveCursor in
  (noChar "<" before = true ->
   handleTagSelect p liveValue liveCursor tag blockGroup = None)
  /\ (forall pre mid,
        before = pre +:+ "<" +:+ mid -> noChar "<" mid = true ->
        handleTagSelect p liveValue liveCursor tag blockGroup
        = Some (pre +:+ "<" +:+ processedTag p tag blockGroup +:+ ">"
                +:+ remainingTextAfterCursor after)
        /\ (checkTagTrigger liveValue liveCursor = true -> noChar ">" mid = true))
  /\ (noChar "<" before = true \/
      exists pre mid, before = pre +:+ "<" +:+ mid /\ noChar "<" mid = true)
  /\ (forall between rest,
        after = between +:+ ">" +:+ rest -> noChar ">" between = true ->
        remainingTextAfterCursor after = if isPartialReference between then rest else after)
  /\ (noChar ">" after = true -> remainingTextAfterCursor after = after).
Proof.
  intros before after.
  split; [|split; [|split; [|split]]].
  - intros Hn. apply handleTagSelect_none. by apply lastIndexOf_none.
  - intros pre mid Hb Hmid. split.
    + by apply (handleTagSelect_split _ _ _ _ pre mid).
    + intros Ht. by apply (trigger_unterminated liveValue liveCursor pre mid).
  - destruct (noChar "<" before) eqn:Hn; [by left|right].
    apply lastIndexOf_exists. intros Hs%lastIndexOf_none. congruence.
  - intros between rest -> Hb. by apply remainingTextAfterCursor_close.
  - apply remainingTextAfterCursor_open.
Qed.
End InsertionFacts.


#[local] Existing Instance Scenario.externals.

(** An instance of C5: selecting [a.content] after typing ["see <ma"]
    gives ["see <a.content>"] with the cursor at its end. *)
Lemma insertion_round_trip_witness :
  JsString.lastIndexOf (JsString.slice "see <ma" 0 7) "<" <> -1
  /\ handleTagSelect Scenario.propsC "see <ma" 7 "a.content" None = Some "see <a.content>"
  /\ cursorAfterInsertion Scenario.propsC "see <ma" 7 "a.content" None = 15
  /\ checkTagTrigger "see <a.content>" 15 = false.
Proof.
  assert (Hopen : JsString.lastIndexOf (JsString.slice "see <ma" 0 7) "<" <> -1).
  { vm_compute. lia. }
  split; [exact Hopen|].
  destruct (insertion_round_trip Scenario.propsC "see <ma" 7 "a.content" None Hopen)
    as (newValue & Hselect & Htrigger & Hvalue & Hcursor & _ & _).
  assert (HnewValue : newValue = "see <a.content>").
  { rewrite Hvalue. reflexivity. }
  rewrite HnewValue in Hselect, Htrigger.
  assert (Hat : cursorAfterInsertion Scenario.propsC "see <ma" 7 "a.content" None = 15).
  { rewrite Hcursor. reflexivity. }
  rewrite Hat in Htrigger.
  split; [exact Hselect|]. split; [exact Hat | exact Htrigger].
Defined.

(** An instance of C6: the cursor stands inside [<blo.ck>], after
    [blo]; the rest of the reference and its ['>'] are replaced too. *)
Lemma tag_insertion_spans_witness :
  JsString.slice "say <blo.ck> x" 0 8 = "say " +:+ "<" +:+ "blo"
  /\ JsString.noChar "<" "blo" = true
  /\ JsString.sliceFrom "say <blo.ck> x" 8 = ".ck" +:+ ">" +:+ " x"
  /\ JsString.noChar ">" ".ck" = true
  /\ handleTagSelect Scenario.propsC "say <blo.ck> x" 8 "a.content" None
     = Some "say <a.content> x".
Proof.
  destruct (tag_insertion_spans Scenario.propsC "say <blo.ck> x" 8 "a.content" None)
    as (_ & Hspan & _ & Hclose & _).
  destruct (Hspan "say " "blo" eq_refl eq_refl) as [Hvalue _].
  do 4 (split; [reflexivity|]).
  rewrite Hvalue, (Hclose ".ck" " x" eq_refl eq_refl). reflexivity.
Defined.

(** C6 as stated fails: in ["<a> x"] with the cursor at the end a ['<']
    precedes the cursor, so the insertion takes place, yet no
    unterminated ['<'] precedes the cursor: the span replaced starts at
    the ['<'] of the completed reference [<a>]. *)
Lemma insertion_at_terminated_delimiter :
  JsString.lastIndexOf (JsString.slice "<a> x" 0 5) "<" <> -1
  /\ handleTagSelect Scenario.propsC "<a> x" 5 "a.content" None = Some "<a.content>"
  /\ checkTagTrigger "<a> x" 5 = false
  /\ ~ exists pre mid,
        JsString.slice "<a> x" 0 5 = pre +:+ "<" +:+ mid
        /\ JsString.noChar ">" mid = true.
Proof.
  split; [vm_compute; lia|]. split; [reflexivity|]. split; [reflexivity|].
  intros (pre & mid & Heq & Hmid).
  change (JsString.slice "<a> x" 0 5) with "<a> x" in Heq.
  assert (Hlt : JsString.lastIndexOf (pre +:+ "<" +:+ mid) "<" = 0%Z).
  { by rewrite <- Heq. }
  change (pre +:+ "<" +:+ mid) with (pre +:+ String "<" mid) in Hlt, Heq.
  rewrite JsStringFacts.lastIndexOf_append in Hlt.
  pose proof (JsStringFacts.lastIndexOf_range (String "<" mid) "<") as Hr.
  pose proof (JsStringFacts.len_nonneg pre) as Hp.
  assert (JsString.lastIndexOf (String "<" mid) "<" <> -1)%Z as Hne.
  { intros Hn%JsStringFacts.lastIndexOf_none.
    rewrite JsStringFacts.noChar_cons in Hn. done. }
  destruct (JsString.lastIndexOf (String "<" mid) "<" <? 0)%Z eqn:E; [lia|].
  assert (JsString.len pre = 0%Z) as Hlen by lia.
  destruct pre as [|c pre]; [|unfold JsString.len in Hlen; simpl in Hlen; lia].
  rewrite JsStringFacts.append_empty_l in Heq. injection Heq as <-.
  done.
Qed.


(** * The output type deriver *)

Section OutputPaths.

Lemma withProp_lookup {A} k (found : JsVal -> A) missing fs :
  Js.withProp k found missing fs
  = match Js.lookup k fs with Some v => found v | None => missing end.
Proof.
  induction fs as [|[k' v] fs IH]; simpl; [done|].
  by destruct (String.eqb k' k).
Qed.

(** The continuation form reads the same property as [Js.get]. *)
Lemma withField_get {A} v k (found : JsVal -> A) missing :
  Js.truthy (Js.get v k) = true ->
  Js.withField v k found missing = found (Js.get v k).
Proof.
  destruct v; try done. simpl. rewrite withProp_lookup.
  by destruct (Js.lookup k fields).
Qed.

Lemma get_truthy_object v k :
  Js.truthy (Js.get v k) = true -> exists fs, v = JObj fs.
Proof. destruct v; try done. eauto. Qed.

Lemma declaredType_object v t :
  declaredType v = Some t -> exists fs, v = JObj fs.
Proof. unfold declaredType. destruct v; try done. eauto. Qed.

(** The entry of a plain string declaration. *)
Lemma paths_string key t rest prefix :
  generateOutputPathsWithTypes (JObj ((key, JStr t) :: rest)) prefix
  = {| path := joinPath prefix key; type := t |}
      :: generateOutputPathsWithTypes (JObj rest) prefix.
Proof. reflexivity. Qed.

(** The entries of an [object] declaration with [properties]. *)
Lemma paths_object key value rest prefix :
  declaredType value = Some "object" ->
  Js.truthy (Js.get value "properties") = true ->
  generateOutputPathsWithTypes (JObj ((key, value) :: rest)) prefix
  = {| path := joinPath prefix key; type := "object" |}
      :: generateOutputPathsWithTypes (Js.get value "properties") (joinPath prefix key)
      ++ generateOutputPathsWithTypes (JObj rest) prefix.
Proof.
  intros Hty Hprops. destruct (declaredType_object _ _ Hty) as [fs ->].
  cbn -[declaredType Js.get Js.withField]. rewrite Hty, Hprops. simpl andb. cbv iota.
  by rewrite withField_get.
Qed.

(** The entries of an [array] declaration with [items.properties]. *)
Lemma paths_array key value rest prefix :
  declaredType value = Some "array" ->
  Js.truthy (Js.get (Js.get value "items") "properties") = true ->
  generateOutputPathsWithTypes (JObj ((key, value) :: rest)) prefix
  = {| path := joinPath prefix key; type := "array" |}
      :: generateOutputPathsWithTypes (Js.get (Js.get value "items") "properties")
           (joinPath prefix key)
      ++ generateOutputPathsWithTypes (JObj rest) prefix.
Proof.
  intros Hty Hprops. destruct (declaredType_object _ _ Hty) as [fs ->].
  cbn -[declaredType Js.get Js.withField]. rewrite Hty, Hprops. simpl andb. cbv iota.
  destruct (get_truthy_object _ _ Hprops) as [ifs Hitems].
  rewrite (withField_get (JObj fs) "items") by (by rewrite Hitems).
  by rewrite withField_get.
Qed.

(** The entry of a [{ type }] declaration that nests nothing. *)
Lemma paths_leaf key value t rest prefix :
  declaredType value = Some t ->
  (String.eqb t "array" && Js.truthy (Js.get (Js.get value "items") "properties")) = false ->
  (String.eqb t "object" && Js.truthy (Js.get value "properties")) = false ->
  generateOutputPathsWithTypes (JObj ((key, value) :: rest)) prefix
  = {| path := joinPath prefix key; type := t |}
      :: generateOutputPathsWithTypes (JObj rest) prefix.
Proof.
  intros Hty Harr Hobj. destruct (declaredType_object _ _ Hty) as [fs ->].
  cbn -[declaredType Js.get Js.withField]. by rewrite Hty, Harr, Hobj.
Qed.

(** C3: the declared outputs of the example yield exactly the three
    entries [result : object], [result.a : string], [result.b : number],
    without duplicates; in general an [object] or [array] declaration
    with nested properties yields an entry for the container followed
    by the entries of its properties under the dotted path, and a leaf
    yields one entry. *)
Theorem nested_outputs_flattened :
  generateOutputPathsWithTypes declaredOutputsExample ""
  = [{| path := "result"; type := "object" |};
     {| path := "result.a"; type := "string" |};
     {| path := "result.b"; type := "number" |}]
  /\ NoDup (map path (generateOutputPathsWithTypes declaredOutputsExample ""))
  /\ (forall key value rest prefix,
        declaredType value = Some "object" ->
        Js.truthy (Js.get value "properties") = true ->
        generateOutputPathsWithTypes (JObj ((key, value) :: rest)) prefix
        = {| path := joinPath prefix key; type := "object" |}
            :: generateOutputPathsWithTypes (Js.get value "properties") (joinPath prefix key)
            ++ generateOutputPathsWithTypes (JObj rest) prefix)
  /\ (forall key value rest prefix,
        declaredType value = Some "array" ->
        Js.truthy (Js.get (Js.get value "items") "properties") = true ->
        generateOutputPathsWithTypes (JObj ((key, value) :: rest)) prefix
        = {| path := joinPath prefix key; type := "array" |}
            :: generateOutputPathsWithTypes (Js.get (Js.get value "items") "properties")
                 (joinPath prefix key)
            ++ generateOutputPathsWithTypes (JObj rest) prefix)
  /\ (forall key t rest prefix,
        generateOutputPathsWithTypes (JObj ((key, JStr t) :: rest)) prefix
        = {| path := joinPath prefix key; type := t |}
            :: generateOutputPathsWithTypes (JObj rest) prefix)
  /\ (forall key value t rest prefix,
        declaredType value = Some t ->
        (String.eqb t "array" && Js.truthy (Js.get (Js.get value "items") "properties")) = false ->
        (String.eqb t "object" && Js.truthy (Js.get value "properties")) = false ->
        generateOutputPathsWithTypes (JObj ((key, value) :: rest)) prefix
        = {| path := joinPath prefix key; type := t |}
            :: generateOutputPathsWithTypes (JObj rest) prefix).
Proof.
  split; [reflexivity|]. split.
  { change (NoDup ["result"; "result.a"; "result.b"]).
    repeat constructor; rewrite ?elem_of_cons, ?elem_of_nil; intuition discriminate. }
  split; [exact paths_object|]. split; [exact paths_array|].
  split; [exact paths_string | exact paths_leaf].
Qed.
End OutputPaths.

(** An instance of C3: an array of objects declared with
    [items.properties]. *)
Lemma nested_outputs_flattened_witness :
  declaredType Scenario.rowsDeclaration = Some "array"
  /\ Js.truthy (Js.get (Js.get Scenario.rowsDeclaration "items") "properties") = true
  /\ generateOutputPathsWithTypes (JObj [("rows", Scenario.rowsDeclaration)]) "data"
     = [{| path := "data.rows"; type := "array" |};
        {| path := "data.rows.id"; type := "string" |}].
Proof.
  destruct nested_outputs_flattened as (_ & _ & _ & Harray & _).
  split; [reflexivity|]. split; [reflexivity|].
  rewrite (Harray "rows" Scenario.rowsDeclaration [] "data" eq_refl eq_refl). reflexivity.
Defined.

(** The tag paths [generateOutputPaths] derives stop at a typed
    declaration: for the example it is the single path [result]. *)
Example generateOutputPaths_example :
  generateOutputPaths declaredOutputsExample "" = ["result"].
Proof. reflexivity. Qed.


(** * The file-property rewrite *)

Section FileProperties.
Context `{Externals}.
Variable p : Props.t.
Import JsString JsStringFacts.

Lemma includesTag_elem ts t : includesTag ts t = true <-> t ∈ ts.
Proof.
  unfold includesTag. rewrite existsb_exists. split.
  - intros (x & Hin & ->%String.eqb_eq). by apply list_elem_of_In.
  - intros Hin. exists t. split; [by apply list_elem_of_In | apply String.eqb_refl].
Qed.

Lemma fileProperties_noDot property :
  property ∈ fileProperties -> noChar "." property = true.
Proof.
  unfold fileProperties. rewrite !elem_of_cons, elem_of_nil.
  intros [->|[->|[->|[->|[->|[->|[->|[]]]]]]]]; reflexivity.
Qed.

(** The rewrite of [parent.property] for a file property. *)
Lemma fileIndexedTag_property parent property group :
  property ∈ fileProperties ->
  fileIndexedTag p (parent +:+ "." +:+ property) (Some group)
  = if String.eqb (resolvedFieldType p group (parentField parent)) "files"
    then parent +:+ "[0]." +:+ property
    else parent +:+ "." +:+ property.
Proof.
  intros Hprop. unfold fileIndexedTag, parentField.
  change (parent +:+ "." +:+ property) with (parent +:+ String "." property).
  rewrite split_append, (split_noChar _ property) by by apply fileProperties_noDot.
  rewrite last_last, length_app. simpl length.
  pose proof (split_nonempty "." parent) as Hne.
  destruct (2 <=? _)%nat eqn:E.
  2:{ apply Nat.leb_gt in E. destruct (split "." parent); simpl in *; [done|lia]. }
  apply includesTag_elem in Hprop. rewrite Hprop. simpl andb. cbv iota.
  replace (length (split "." parent) + 1 - 2)%nat
    with (length (split "." parent) - 1)%nat by lia.
  rewrite app_nth1 by (destruct (split "." parent); simpl in *; [done|lia]).
  rewrite nth_pred_length.
  destruct (String.eqb _ "files"); [|done].
  by rewrite removelast_last, join_split.
Qed.

Lemma fileIndexedTag_other_property tag blockGroup :
  includesTag fileProperties (List.last (split "." tag) "") = false ->
  fileIndexedTag p tag blockGroup = tag.
Proof.
  intros Hlast. unfold fileIndexedTag. rewrite Hlast.
  by rewrite andb_false_r.
Qed.

Lemma processedTag_plain tag group :
  startsWith tag TAG_PREFIXES_VARIABLE = false ->
  isContextGroup group = false ->
  processedTag p tag (Some group) = fileIndexedTag p tag (Some group).
Proof. intros Hvar Hctx. unfold processedTag. by rewrite Hvar, Hctx. Qed.

Lemma processedTag_context tag group :
  startsWith tag TAG_PREFIXES_VARIABLE = false ->
  isContextGroup group = true ->
  processedTag p tag (Some group)
  = if includesTag ["index"; "currentItem"; "items"] tag
    then blockType group +:+ "." +:+ tag
    else tag.
Proof.
  intros Hvar Hctx. unfold processedTag. rewrite Hvar, Hctx.
  destruct (includesTag _ tag) eqn:Hin; [|by rewrite andb_false_r].
  apply includesTag_elem in Hin. rewrite !elem_of_cons, elem_of_nil in Hin.
  by destruct Hin as [->|[->|[->|[]]]].
Qed.

(** C2 (amended): for a tag [parent.property] that does not start with
    [variable.], selected from the group of a block that is neither a
    loop nor a parallel, with [property] one of the file properties:
    the inserted tag is [parent[0].property] when the type resolved
    for the field named by the last segment of [parent] is [files],
    and the tag itself otherwise.  A tag of such a group whose final
    segment is no file property is inserted unchanged, as is a tag
    selected without a group.  From a loop or parallel group the bare
    tags [index], [currentItem] and [items] are inserted prefixed by
    the block type, any other tag unchanged. *)
Theorem file_property_index :
  (forall parent property group,
      property ∈ fileProperties ->
      startsWith (parent +:+ "." +:+ property) TAG_PREFIXES_VARIABLE = false ->
      isContextGroup group = false ->
      processedTag p (parent +:+ "." +:+ property) (Some group)
      = if String.eqb (resolvedFieldType p group (parentField parent)) "files"
        then parent +:+ "[0]." +:+ property
        else parent +:+ "." +:+ property)
  /\ (forall tag group,
      startsWith tag TAG_PREFIXES_VARIABLE = false ->
      isContextGroup group = false ->
      includesTag fileProperties (List.last (split "." tag) "") = false ->
      processedTag p tag (Some group) = tag)
  /\ (forall tag, processedTag p tag None = tag)
  /\ (forall tag group,
      startsWith tag TAG_PREFIXES_VARIABLE = false ->
      isContextGroup group = true ->
      processedTag p tag (Some group)
      = if includesTag ["index"; "currentItem"; "items"] tag
        then blockType group +:+ "." +:+ tag
        else tag).
Proof.
  split; [|split; [|split]].
  - intros parent property group Hprop Hvar Hctx.
    rewrite processedTag_plain by done. by apply fileIndexedTag_property.
  - intros tag group Hvar Hctx Hlast.
    rewrite processedTag_plain by done. by apply fileIndexedTag_other_property.
  - apply processedTag_no_group.
  - apply processedTag_context.
Qed.
End FileProperties.

(** An instance of C2: the [files]-typed field [attachments] of the
    block [mail1]; selecting [mail1.attachments.url] inserts
    [<mail1.attachments[0].url>]. *)
Lemma file_property_index_witness :
  "url" ∈ fileProperties
  /\ JsString.startsWith "mail1.attachments.url" TAG_PREFIXES_VARIABLE = false
  /\ isContextGroup Scenario.mailGroup = false
  /\ resolvedFieldType Scenario.propsC Scenario.mailGroup (parentField "mail1.attachments")
     = "files"
  /\ handleTagSelect Scenario.propsC "see <ma" 7 "mail1.attachments.url"
       (Some Scenario.mailGroup)
     = Some "see <mail1.attachments[0].url>".
Proof.
  assert (Hprop : "url" ∈ fileProperties) by (apply includesTag_elem; reflexivity).
  destruct (file_property_index Scenario.propsC) as (Hfile & _).
  pose proof (Hfile "mail1.attachments" "url" Scenario.mailGroup Hprop eq_refl eq_refl)
    as Hprocessed.
  do 4 (split; [done|]).
  unfold handleTagSelect.
  change ("mail1.attachments" +:+ "." +:+ "url") with "mail1.attachments.url" in Hprocessed.
  rewrite Hprocessed. reflexivity.
Defined.

(** C2 as stated fails: [index], selected from the contextual group of
    a loop, has no file property as its final segment, yet it is not
    inserted unchanged but as [loop.index]. *)
Lemma contextual_tag_is_prefixed :
  includesTag fileProperties (List.last (JsString.split "." "index") "") = false
  /\ handleTagSelect (Scenario.propsB "forEach") "<" 1 "index" (Some Scenario.loopGroup)
     = Some "<loop.index>"
  /\ handleTagSelect (Scenario.propsB "forEach") "<" 1 "index" (Some Scenario.loopGroup)
     <> Some "<index>".
Proof. split; [reflexivity|]. split; [reflexivity|]. discriminate. Qed.

(** * The root-tag policy *)

Section RootTag.
Context `{Externals}.
Variable p : Props.t.

Lemma ensureRootTag_elem ts root :
  root <> "" -> root ∈ ensureRootTag ts root.
Proof.
  intros Hroot. unfold ensureRootTag.
  destruct (String.eqb_spec root ""); [done|].
  destruct (includesTag ts root) eqn:E; [by apply includesTag_elem | by left].
Qed.

Lemma applyRootTagPolicy_hidden b name ts :
  Block.type b <> "generic_webhook" -> name ∉ applyRootTagPolicy b name ts.
Proof.
  intros Hty. unfold applyRootTagPolicy.
  destruct (String.eqb_spec (Block.type b) "generic_webhook"); [done|]. simpl.
  by intros [Hne _]%list_elem_of_filter.
Qed.

Lemma applyRootTagPolicy_shown b name ts :
  Block.type b = "generic_webhook" -> name <> "" -> name ∈ applyRootTagPolicy b name ts.
Proof.
  intros Hty Hname. unfold applyRootTagPolicy. rewrite Hty. simpl.
  by apply ensureRootTag_elem.
Qed.

(** The root-tag policy where it is applied: for a block that has
    a block config the bare normalized name is a tag only when the
    block type is [generic_webhook], and then it always is when the
    name is not empty; for every other configured block type it is
    filtered out, children or not.  The branch of the accessible loop
    and parallel blocks without a block config calls [ensureRootTag]
    and no filter. *)
Theorem root_tag_policy :
  (forall id b cfg,
      Block.type b <> "generic_webhook" ->
      (normalizeBlockName (displayName b) ∉ accessibleBlockTags p id b cfg)
      /\ (normalizeBlockName (displayName b) ∉ sourceBlockTags p id b cfg))
  /\ (forall id b cfg,
      Block.type b = "generic_webhook" ->
      normalizeBlockName (displayName b) <> "" ->
      (normalizeBlockName (displayName b) ∈ accessibleBlockTags p id b cfg)
      /\ (normalizeBlockName (displayName b) ∈ sourceBlockTags p id b cfg))
  /\ (forall dists id b g,
      lookupRecord id (blocks (Props.workflow p)) = Some b ->
      getBlock (Block.type b) = None ->
      accessibleGroup p dists id = Some g ->
      isContainerType (Block.type b) = true
      /\ tags g = ensureRootTag
                    [normalizeBlockName (displayName b) +:+ ".results"]
                    (normalizeBlockName (displayName b))).
Proof.
  split; [|split].
  - intros id b cfg Hty. split; by apply applyRootTagPolicy_hidden.
  - intros id b cfg Hty Hname. split; by apply applyRootTagPolicy_shown.
  - intros dists id b g Hb Hcfg. unfold accessibleGroup. rewrite Hb, Hcfg.
    destruct (String.eqb id (Props.blockId p)); [done|].
    destruct (isContainerType (Block.type b)); [|done].
    destruct (_ || _); [done|]. by intros [= <-].
Qed.
End RootTag.

(** An instance: the block [A] of type [agent]; its bare name [a] is
    not among its tags. *)
Lemma root_tag_policy_witness :
  Block.type Scenario.blockA <> "generic_webhook"
  /\ accessibleBlockTags Scenario.propsC "a" Scenario.blockA Scenario.agentConfig
     = ["a.content"; "a.model"]
  /\ ("a" ∉ accessibleBlockTags Scenario.propsC "a" Scenario.blockA Scenario.agentConfig).
Proof.
  assert (Hty : Block.type Scenario.blockA <> "generic_webhook") by (simpl; discriminate).
  destruct (root_tag_policy Scenario.propsC) as (Hhidden & _).
  split; [exact Hty|]. split; [reflexivity|].
  exact (proj1 (Hhidden "a" Scenario.blockA Scenario.agentConfig Hty)).
Defined.

(** C4, the code at the failing input: for [C], placed after the loop,
    the accessible loop block [Loop 1], of type [loop] and without a
    block config, yields the group with the tags [loop1] and
    [loop1.results]: its bare normalized name is a tag though its type
    is not [generic_webhook] and a child exists.  The same block as the
    single source yields [loop1.results] alone, and a configured block
    such as [A] never has its bare name. *)
Lemma root_tag_of_loop_block :
  (Block.type <$> lookupRecord "loop" (blocks (Props.workflow Scenario.propsC))) = Some "loop"
  /\ getBlock "loop" = None
  /\ accessibleGroup Scenario.propsC
       (computeBlockDistances (Props.workflow Scenario.propsC)) "loop"
     = Some Scenario.groupLoopBlock
  /\ Scenario.groupLoopBlock ∈ TagData.blockTagGroups (tagData Scenario.propsC)
  /\ blockType Scenario.groupLoopBlock <> "generic_webhook"
  /\ normalizeBlockName (blockName Scenario.groupLoopBlock) = "loop1"
  /\ tags Scenario.groupLoopBlock = ["loop1"; "loop1.results"]
  /\ TagData.tags (tagData (Fixtures.sourceProps "loop")) = ["loop1.results"]
  /\ map tags (TagData.blockTagGroups (tagData (Fixtures.sourceProps "loop")))
     = [["loop1.results"]]
  /\ TagData.tags (tagData (Fixtures.sourceProps "a")) = ["a.content"; "a.model"].
Proof.
  repeat split; try reflexivity.
  - apply list_elem_of_In. vm_compute. right. right. left. reflexivity.
  - simpl. discriminate.
Qed.


(** * The sort by distance *)

Section SortFacts.

Lemma insertByDistance_perm g l : insertByDistance g l ≡ₚ g :: l.
Proof.
  induction l as [|h l IH]; simpl; [done|].
  destruct (distance g <=? distance h)%nat; [done|].
  rewrite IH. apply Permutation_swap.
Qed.

Lemma sortByDistance_perm l : sortByDistance l ≡ₚ l.
Proof.
  induction l as [|g l IH]; simpl; [done|].
  rewrite insertByDistance_perm. by f_equiv.
Qed.

Lemma sortByDistance_elem g l : g ∈ sortByDistance l <-> g ∈ l.
Proof. by rewrite sortByDistance_perm. Qed.

Lemma insertByDistance_sorted g l :
  StronglySorted closerOrEqual l -> StronglySorted closerOrEqual (insertByDistance g l).
Proof.
  induction 1 as [|h l Hl IH Hh]; simpl.
  - repeat constructor.
  - destruct (distance g <=? distance h)%nat eqn:E.
    + apply Nat.leb_le in E. constructor; [by constructor|].
      constructor; [done|].
      eapply Forall_impl; [exact Hh|]. unfold closerOrEqual. intros; simpl in *. lia.
    + apply Nat.leb_gt in E. constructor; [done|].
      rewrite insertByDistance_perm. constructor; [|done].
      unfold closerOrEqual. lia.
Qed.

Lemma sortByDistance_sorted l : StronglySorted closerOrEqual (sortByDistance l).
Proof.
  induction l as [|g l IH]; simpl; [constructor | by apply insertByDistance_sorted].
Qed.

(** The sort is stable: groups at the same distance keep their order. *)
Lemma insertByDistance_stable d g l :
  filter (fun h => distance h = d) (insertByDistance g l)
  = filter (fun h => distance h = d) (g :: l).
Proof.
  induction l as [|h l IH]; simpl; [done|].
  destruct (distance g <=? distance h)%nat eqn:E; [done|].
  apply Nat.leb_gt in E. rewrite (filter_cons _ h), IH, !filter_cons.
  repeat case_decide; (done || lia).
Qed.

Lemma sortByDistance_stable d l :
  filter (fun h => distance h = d) (sortByDistance l) = filter (fun h => distance h = d) l.
Proof.
  induction l as [|g l IH]; simpl; [done|].
  by rewrite insertByDistance_stable, !filter_cons, IH.
Qed.

(** In a sorted list a closer group stands before a farther one. *)
Lemma sorted_closer_first l g g' :
  StronglySorted closerOrEqual l ->
  g ∈ l -> g' ∈ l -> (distance g < distance g')%nat ->
  exists l1 l2 l3, l = l1 ++ g :: l2 ++ g' :: l3.
Proof.
  intros Hsorted Hg Hg' Hlt.
  apply list_elem_of_split in Hg as (l1 & r & ->).
  apply elem_of_app in Hg' as [Hg'|Hg'].
  - (* [g'] before [g] contradicts the order *)
    assert (closerOrEqual g' g) as Hle.
    { eapply StronglySorted_app_1_elem_of; [exact Hsorted|done|by left]. }
    unfold closerOrEqual in Hle. lia.
  - apply elem_of_cons in Hg' as [->|Hg']; [lia|].
    apply list_elem_of_split in Hg' as (l2 & l3 & ->). by exists l1, l2, l3.
Qed.
End SortFacts.

(** * The groups of the accessible blocks and the flat order *)

Section GroupFacts.
Context `{Externals}.
Variable p : Props.t.

Lemma accessibleGroup_some dists U g :
  accessibleGroup p dists U = Some g ->
  blockId g = U /\ U <> Props.blockId p /\ distance g = default 0%nat (dists !! U).
Proof.
  unfold accessibleGroup. intros Hg.
  destruct (lookupRecord U (blocks (Props.workflow p))) as [b|]; [|done].
  destruct (String.eqb_spec U (Props.blockId p)) as [|Hne]; [done|].
  destruct (getBlock (Block.type b)) as [cfg|].
  - by injection Hg as <-.
  - destruct (isContainerType (Block.type b)); [|done].
    destruct (_ || _); [done|]. by injection Hg as <-.
Qed.

Lemma accessibleGroups_elem g :
  g ∈ accessibleGroups p <->
  exists U, U ∈ combinedAccessiblePrefixes p /\
            accessibleGroup p (computeBlockDistances (Props.workflow p)) U = Some g.
Proof. unfold accessibleGroups. apply list_elem_of_omap. Qed.

Lemma tagData_groups :
  Props.activeSourceBlockId p = None ->
  hasInvalidBlocks p = false ->
  TagData.blockTagGroups (tagData p)
  = contextGroups p ++ sortByDistance (accessibleGroups p).
Proof. intros Hsrc Hinv. unfold tagData. by rewrite Hsrc, Hinv. Qed.

(** C1: no group built from the accessible prefixes belongs to the
    requesting block itself, before and after the sort, whatever the
    prefixes contain: the block is excluded from its own accessible
    set. *)
Theorem accessible_groups_exclude_self :
  Forall (fun g => blockId g <> Props.blockId p) (accessibleGroups p)
  /\ Forall (fun g => blockId g <> Props.blockId p) (sortByDistance (accessibleGroups p))
  /\ (forall dists, accessibleGroup p dists (Props.blockId p) = None).
Proof.
  assert (Hall : Forall (fun g => blockId g <> Props.blockId p) (accessibleGroups p)).
  { apply Forall_forall. intros g (U & _ & Hg)%accessibleGroups_elem.
    apply accessibleGroup_some in Hg as (-> & Hne & _). done. }
  split; [done|]. split.
  - by rewrite sortByDistance_perm.
  - intros dists. unfold accessibleGroup.
    destruct (lookupRecord _ _); [|done]. by rewrite String.eqb_refl.
Qed.
End GroupFacts.

(** The requesting block is skipped even when the accessible prefixes
    contain it. *)
Example own_prefix_is_skipped :
  map blockId (accessibleGroups (Scenario.props "b" "for" ["b"; "a"; "b"])) = ["a"].
Proof. reflexivity. Qed.


(** * Contextual tags of loops and parallels *)

Section ContextualTags.
Variable p : Props.t.

Lemma contextGroup_some ty id ts g :
  contextGroup p ty id ts = Some g ->
  blockType g = ty /\ blockId g = id /\ tags g = ts.
Proof.
  unfold contextGroup. destruct (lookupRecord id _); [|done]. by intros [= <-].
Qed.

Lemma loopBlockGroup_scope g :
  loopBlockGroup p = Some g ->
  blockType g = "loop"
  /\ exists loop,
      tags g = loopContextualTags (Loop.loopType loop)
      /\ ((blockId g = Props.blockId p /\ isLoopBlock p = true
           /\ lookupRecord (Props.blockId p) (loops (Props.workflow p)) = Some loop)
          \/ ((blockId g, loop) ∈ loops (Props.workflow p)
              /\ Props.blockId p ∈ Loop.nodes loop)).
Proof.
  unfold loopBlockGroup, currentLoop.
  destruct (isLoopBlock p) eqn:Hloop.
  - destruct (lookupRecord (Props.blockId p) (loops (Props.workflow p))) as [loop|] eqn:Hcur.
    + intros (? & ? & ?)%contextGroup_some. split; [done|]. exists loop. split; [done|]. by left.
    + destruct (containingLoop p) as [[loopId loop]|] eqn:Hfind; [|done].
      intros (? & -> & ?)%contextGroup_some. split; [done|]. exists loop. split; [done|].
      right. apply find_some in Hfind as [Hin Hmem].
      split; [by apply list_elem_of_In | by apply bool_decide_eq_true in Hmem].
  - destruct (containingLoop p) as [[loopId loop]|] eqn:Hfind; [|done].
    intros (? & -> & ?)%contextGroup_some. split; [done|]. exists loop. split; [done|].
    right. apply find_some in Hfind as [Hin Hmem].
    split; [by apply list_elem_of_In | by apply bool_decide_eq_true in Hmem].
Qed.

Lemma parallelBlockGroup_scope g :
  parallelBlockGroup p = Some g ->
  blockType g = "parallel"
  /\ exists parallel,
      tags g = parallelContextualTags (Parallel.parallelType parallel)
      /\ (blockId g, parallel) ∈ parallels (Props.workflow p)
      /\ Props.blockId p ∈ Parallel.nodes parallel.
Proof.
  unfold parallelBlockGroup.
  destruct (containingParallel p) as [[parallelId parallel]|] eqn:Hfind; [|done].
  intros (? & -> & ?)%contextGroup_some. split; [done|]. exists parallel. split; [done|].
  apply find_some in Hfind as [Hin Hmem].
  split; [by apply list_elem_of_In | by apply bool_decide_eq_true in Hmem].
Qed.

Lemma loopContextualTags_cases loopType :
  loopContextualTags loopType
  = if String.eqb loopType "forEach"
    then ["index"; "currentIteration"; "currentItem"; "items"]
    else ["index"; "currentIteration"].
Proof.
  unfold loopContextualTags.
  destruct (String.eqb_spec loopType "") as [->|]; [done|].
  by destruct (String.eqb loopType "forEach").
Qed.

Lemma parallelContextualTags_cases parallelType :
  parallelContextualTags parallelType
  = if String.eqb parallelType "collection"
    then ["index"; "currentItem"; "items"]
    else ["index"].
Proof.
  unfold parallelContextualTags.
  destruct (String.eqb_spec parallelType "") as [->|]; [done|].
  by destruct (String.eqb parallelType "collection").
Qed.





End ContextualTags.

Section ContextualGroups.
Context `{Externals}.
Variable p : Props.t.


End ContextualGroups.





(** * The safe parser of response formats *)

Section ResponseFormat.
Context `{Externals}.

Lemma trim_empty_falsy s blockId :
  JsString.trim s = "" -> parseResponseFormatSafely (JStr s) blockId = Normal JUndefined.
Proof.
  intros Ht. unfold parseResponseFormatSafely. simpl.
  destruct (String.eqb s ""); [done|]. simpl. by rewrite Ht.
Qed.

(** C10: [parseResponseFormatSafely] always returns and never throws;
    it returns [undefined] for [null], [undefined], empty or blank
    strings, booleans and numbers, and strings [JSON.parse] rejects;
    an object is returned as it is; a string whose trimmed text starts
    with ['<'] and contains ['>'] is returned trimmed, whatever
    [JSON.parse] would do with it. *)
Theorem parseResponseFormatSafely_total :
  (forall v blockId, exists r, parseResponseFormatSafely v blockId = Normal r)
  /\ (forall blockId,
        parseResponseFormatSafely JNull blockId = Normal JUndefined
        /\ parseResponseFormatSafely JUndefined blockId = Normal JUndefined)
  /\ (forall s blockId,
        JsString.trim s = "" ->
        parseResponseFormatSafely (JStr s) blockId = Normal JUndefined)
  /\ (forall b n blockId,
        parseResponseFormatSafely (JBool b) blockId = Normal JUndefined
        /\ parseResponseFormatSafely (JNum n) blockId = Normal JUndefined)
  /\ (forall s e blockId,
        JsString.startsWith (JsString.trim s) "<" && JsString.includes (JsString.trim s) ">" = false ->
        JSON_parse (JsString.trim s) = Throw e ->
        parseResponseFormatSafely (JStr s) blockId = Normal JUndefined)
  /\ (forall v blockId,
        Js.isObject v = true -> parseResponseFormatSafely v blockId = Normal v)
  /\ (forall s blockId,
        JsString.startsWith (JsString.trim s) "<" = true ->
        JsString.includes (JsString.trim s) ">" = true ->
        parseResponseFormatSafely (JStr s) blockId = Normal (JStr (JsString.trim s))).
Proof.
  split; [|split; [|split; [|split; [|split; [|split]]]]].
  - intros v blockId. unfold parseResponseFormatSafely.
    destruct (negb (Js.truthy v)); [eauto|].
    destruct (Js.isObject v); [eauto|].
    destruct v; eauto.
    destruct (_ && _); [eauto|]. destruct (String.eqb _ ""); [eauto|].
    destruct (JSON_parse _); eauto.
  - done.
  - apply trim_empty_falsy.
  - intros b n blockId. unfold parseResponseFormatSafely. simpl.
    split; [by destruct b | by destruct (negb (negb _))].
  - intros s e blockId Href Hparse. unfold parseResponseFormatSafely. simpl.
    destruct (String.eqb s ""); [done|]. simpl. rewrite Href, Hparse.
    by destruct (String.eqb _ "").
  - intros v blockId Hobj. unfold parseResponseFormatSafely. by destruct v.
  - intros s blockId Hstart Hincl. unfold parseResponseFormatSafely. simpl.
    destruct (String.eqb_spec s "") as [->|]; [done|]. simpl.
    by rewrite Hstart, Hincl.
Qed.
End ResponseFormat.

(** An instance of C10: a reference between blanks, or between
    no-break spaces, is returned trimmed, and a text the parser rejects
    gives [undefined]. *)
Lemma parseResponseFormatSafely_total_witness :
  JsString.startsWith (JsString.trim "  <start.input> ") "<" = true
  /\ JsString.includes (JsString.trim "  <start.input> ") ">" = true
  /\ parseResponseFormatSafely (JStr "  <start.input> ") "a" = Normal (JStr "<start.input>")
  /\ JsString.trim (Fixtures.nbsp +:+ "<start.input>" +:+ Fixtures.nbsp) = "<start.input>"
  /\ parseResponseFormatSafely (JStr (Fixtures.nbsp +:+ "<start.input>" +:+ Fixtures.nbsp)) "a"
     = Normal (JStr "<start.input>")
  /\ JSON_parse (JsString.trim "{oops") = Throw (JStr "SyntaxError")
  /\ parseResponseFormatSafely (JStr "{oops") "a" = Normal JUndefined.
Proof.
  destruct (@parseResponseFormatSafely_total Scenario.externals)
    as (_ & _ & _ & _ & Hreject & _ & Hreference).
  split; [reflexivity|]. split; [reflexivity|].
  split; [exact (Hreference "  <start.input> " "a" eq_refl eq_refl)|].
  split; [reflexivity|].
  split; [exact (Hreference (Fixtures.nbsp +:+ "<start.input>" +:+ Fixtures.nbsp) "a"
                   eq_refl eq_refl)|].
  split; [reflexivity|].
  exact (Hreject "{oops" (JStr "SyntaxError") "a" eq_refl eq_refl).
Defined.


(** * The breadth-first traversal *)

Section BfsFacts.
Variable es : list Edge.t.

Lemma buildAdjList_from (acc : gmap string (list string)) es' u :
  default [] (foldl addEdge acc es' !! u) = default [] (acc !! u) ++ outgoing es' u.
Proof.
  revert acc. induction es' as [|e es' IH]; intros acc; simpl.
  - unfold outgoing. by rewrite app_nil_r.
  - rewrite IH. unfold outgoing, addEdge. rewrite filter_cons.
    destruct (decide (Edge.source e = u)) as [->|Hne].
    + rewrite lookup_insert_eq. simpl. by rewrite <- app_assoc.
    + by rewrite lookup_insert_ne.
Qed.

(** [adjList[u] || []] lists the targets of the edges leaving [u]. *)
Lemma buildAdjList_lookup u :
  default [] (buildAdjList es !! u) = outgoing es u.
Proof. unfold buildAdjList. by rewrite buildAdjList_from, lookup_empty. Qed.

Lemma outgoing_elem u v :
  v ∈ outgoing es u <-> exists e, e ∈ es /\ Edge.source e = u /\ Edge.target e = v.
Proof.
  unfold outgoing. rewrite list_elem_of_fmap. split.
  - intros (e & -> & [He1 He2]%list_elem_of_filter). eauto.
  - intros (e & He & Hs & <-). exists e. split; [done|].
    by apply list_elem_of_filter.
Qed.

Lemma pendingEdges_visit visited u :
  u ∉ visited ->
  length (pendingEdges es visited)
  = (length (pendingEdges es ({[u]} ∪ visited)) + length (outgoing es u))%nat.
Proof.
  intros Hu. unfold pendingEdges, outgoing. rewrite length_map.
  induction es as [|e es' IH]; [done|].
  rewrite !filter_cons.
  destruct (decide (Edge.source e = u)) as [->|Hne].
  - rewrite decide_True by done.
    rewrite (decide_False (P := u ∉ {[u]} ∪ visited)).
    + simpl. lia.
    + intros Hn. apply Hn, elem_of_union. left. by apply elem_of_singleton.
  - destruct (decide (Edge.source e ∉ visited)) as [Hv|Hv].
    + rewrite (decide_True (P := Edge.source e ∉ {[u]} ∪ visited)).
      * simpl. lia.
      * rewrite elem_of_union, elem_of_singleton. tauto.
    + rewrite (decide_False (P := Edge.source e ∉ {[u]} ∪ visited)); [done|].
      rewrite elem_of_union, elem_of_singleton. tauto.
Qed.

(** Each iteration on a non-empty queue lowers the potential by one. *)
Lemma bfsStep_potential st :
  BfsState.queue st <> [] ->
  S (bfsPotential es (bfsStep (buildAdjList es) st)) = bfsPotential es st.
Proof.
  intros Hq. unfold bfsPotential, bfsStep.
  destruct (BfsState.queue st) as [|[cur d] rest]; [done|].
  case_bool_decide as Hv; simpl.
  - done.
  - rewrite buildAdjList_lookup, length_app, length_map.
    rewrite (pendingEdges_visit (BfsState.visited st) cur) by done. lia.
Qed.

Lemma bfsStep_idle adjList st :
  BfsState.queue st = [] -> bfsStep adjList st = st.
Proof. intros Hq. unfold bfsStep. by rewrite Hq. Qed.

Lemma bfsIter_idle n adjList st :
  BfsState.queue st = [] -> bfsIter n adjList st = st.
Proof.
  intros Hq. induction n as [|n IH]; [done|]. simpl. by rewrite bfsStep_idle.
Qed.

Lemma bfsIter_add n m adjList st :
  bfsIter (n + m) adjList st = bfsIter m adjList (bfsIter n adjList st).
Proof. revert st. induction n as [|n IH]; intros st; simpl; [done | apply IH]. Qed.

Lemma bfsIter_empties n st :
  (bfsPotential es st <= n)%nat ->
  BfsState.queue (bfsIter n (buildAdjList es) st) = [].
Proof.
  revert st. induction n as [|n IH]; intros st Hn.
  - unfold bfsPotential in Hn. simpl.
    destruct (BfsState.queue st); [done | simpl in Hn; lia].
  - simpl. destruct (decide (BfsState.queue st = [])) as [Hq|Hq].
    + rewrite bfsStep_idle by done. by rewrite bfsIter_idle.
    + apply IH. pose proof (bfsStep_potential st Hq). lia.
Qed.

Lemma bfsPotential_init s : bfsPotential es (bfsInit s) = S (length es).
Proof.
  unfold bfsPotential, bfsInit, pendingEdges. simpl. f_equal. f_equal.
  induction es as [|e es' IH]; [done|].
  rewrite filter_cons, decide_True by apply not_elem_of_empty. by f_equal.
Qed.

(** The traversal terminates: [1 + |edges|] iterations empty the queue,
    whatever the cycles. *)
Lemma bfs_terminates s : BfsState.queue (bfsRun es s) = [].
Proof.
  unfold bfsRun. apply bfsIter_empties. by rewrite bfsPotential_init.
Qed.

Variable s : string.

Lemma bfsInv_init : bfsInv es s (bfsInit s).
Proof.
  split; [|exists 0%nat, [(s, 0%nat)], []]; constructor; simpl.
  - intros v. rewrite lookup_empty. split; [by intros ?%elem_of_empty | by intros []].
  - intros v d [= -> ->]%list_elem_of_singleton. constructor.
  - intros v d. by rewrite lookup_empty.
  - intros e du _. by rewrite lookup_empty.
  - right. by apply list_elem_of_singleton.
  - done.
  - by intros e ->%list_elem_of_singleton.
  - by intros e ?%elem_of_nil.
  - intros v d. by rewrite lookup_empty.
Qed.

(** The step on a queue whose head is at the level of the invariant. *)
Lemma bfsInv_step_front st level cur front back :
  bfsSound es s st ->
  bfsLevelled st level ((cur, level) :: front) back ->
  bfsInv es s (bfsStep (buildAdjList es) st).
Proof.
  intros [Hvis Hqh Hdh Hedges Hroot] [Hq Hfront Hback Hbound].
  simpl in Hq. unfold bfsStep. rewrite Hq. case_bool_decide as Hcur.
  - (* the head is visited already: it is dropped *)
    apply Hvis in Hcur as [dc Hdc].
    split; [|exists level, front, back]; constructor; simpl; try done.
    + intros v d Hv. apply Hqh. rewrite Hq. by right.
    + intros e du He Hdu. destruct (Hedges e du He Hdu) as [?|Hin]; [by left|].
      rewrite Hq in Hin. apply elem_of_cons in Hin as [[= Ht Hl]|Hin]; [|by right].
      left. exists dc. rewrite Ht. split; [done|].
      apply Hbound in Hdc. lia.
    + destruct Hroot as [?|Hin]; [by left|].
      rewrite Hq in Hin. apply elem_of_cons in Hin as [[= <- <-]|Hin]; [|by right].
      left. pose proof (Hbound _ _ Hdc). by replace 0%nat with dc by lia.
    + intros e He. apply Hfront. by right.
  - (* the head is visited now and its targets are queued *)
    assert (Hnone : BfsState.blockDistances st !! cur = None).
    { apply eq_None_not_Some. by rewrite <- Hvis. }
    rewrite buildAdjList_lookup.
    split; [|exists level, front,
              (back ++ map (fun targetId => (targetId, S level)) (outgoing es cur))];
      constructor; simpl.
    + intros v. rewrite elem_of_union, elem_of_singleton, Hvis.
      destruct (decide (v = cur)) as [->|Hne].
      * rewrite lookup_insert_eq. split; eauto.
      * rewrite lookup_insert_ne by done. split; [by intros [?|?]|by right].
    + intros v d [Hin|Hin]%elem_of_app.
      * apply Hqh. rewrite Hq. by right.
      * apply list_elem_of_fmap in Hin as (t & [= -> ->] & Ht).
        apply outgoing_elem in Ht as (e & He & Hs & <-).
        eapply hops_step; [|done..]. apply Hqh. rewrite Hq. by left.
    + intros v d. destruct (decide (v = cur)) as [->|Hne].
      * rewrite lookup_insert_eq. intros [= <-]. apply Hqh. rewrite Hq. by left.
      * rewrite lookup_insert_ne by done. apply Hdh.
    + intros e du He. destruct (decide (Edge.source e = cur)) as [Hs|Hs].
      * rewrite Hs, lookup_insert_eq. intros [= <-]. right.
        apply elem_of_app. right. apply list_elem_of_fmap.
        exists (Edge.target e). split; [done|]. apply outgoing_elem. eauto.
      * rewrite lookup_insert_ne by done. intros Hdu.
        destruct (Hedges e du He Hdu) as [(dv & Hdv & Hle)|Hin].
        -- left. exists dv. split; [|done].
           rewrite lookup_insert_ne; [done|]. intros Heq. rewrite <- Heq in Hdv. congruence.
        -- rewrite Hq in Hin. apply elem_of_cons in Hin as [[= Ht Hl]|Hin].
           ++ left. exists level. rewrite Ht, lookup_insert_eq. split; [done|lia].
           ++ right. apply elem_of_app. by left.
    + destruct (decide (s = cur)) as [<-|Hne].
      * destruct Hroot as [?|Hin]; [congruence|].
        rewrite Hq in Hin. apply elem_of_cons in Hin as [[= <-]|Hin].
        -- left. by rewrite lookup_insert_eq.
        -- right. apply elem_of_app. by left.
      * destruct Hroot as [?|Hin].
        -- left. by rewrite lookup_insert_ne.
        -- rewrite Hq in Hin. apply elem_of_cons in Hin as [[= ? ?]|Hin]; [done|].
           right. apply elem_of_app. by left.
    + by rewrite app_assoc.
    + intros e He. apply Hfront. by right.
    + intros e [He|He]%elem_of_app; [by apply Hback|].
      by apply list_elem_of_fmap in He as (t & -> & _).
    + intros v d. destruct (decide (v = cur)) as [->|Hne].
      * rewrite lookup_insert_eq. by intros [= <-].
      * rewrite lookup_insert_ne by done. apply Hbound.
Qed.

Lemma bfsInv_step st :
  bfsInv es s st -> bfsInv es s (bfsStep (buildAdjList es) st).
Proof.
  intros [Hsound (level & front & back & Hlev)].
  destruct front as [|[cur d] front].
  - destruct back as [|[cur d] back].
    + (* the queue is empty *)
      rewrite bfsStep_idle; [|by destruct Hlev].
      split; [done|]. by exists level, [], [].
    + (* the front is exhausted: the back becomes the front *)
      destruct Hlev as [Hq Hfront Hback Hbound].
      assert (d = S level) as ->.
      { apply (Hback (cur, d)). by left. }
      apply (bfsInv_step_front st (S level) cur back []); [done|].
      constructor; simpl.
      * by rewrite app_nil_r.
      * done.
      * by intros e ?%elem_of_nil.
      * intros v dv Hv. apply Hbound in Hv. lia.
  - assert (d = level) as ->.
    { apply (inv_front_level _ _ _ _ Hlev (cur, d)). by left. }
    by apply (bfsInv_step_front st level cur front back).
Qed.

Lemma bfsInv_iter n st :
  bfsInv es s st -> bfsInv es s (bfsIter n (buildAdjList es) st).
Proof.
  revert st. induction n as [|n IH]; intros st Hinv; [done|].
  simpl. apply IH. by apply bfsInv_step.
Qed.

Lemma bfsInv_run : bfsInv es s (bfsRun es s).
Proof. apply bfsInv_iter, bfsInv_init. Qed.

(** A distance, once assigned, is never overwritten. *)
Lemma bfsStep_first_visit st v d :
  bfsInv es s st ->
  BfsState.blockDistances st !! v = Some d ->
  BfsState.blockDistances (bfsStep (buildAdjList es) st) !! v = Some d.
Proof.
  intros Hinv Hv. unfold bfsStep.
  destruct (BfsState.queue st) as [|[cur dc] rest]; [done|].
  case_bool_decide as Hcur; simpl; [done|].
  rewrite lookup_insert_ne; [done|]. intros <-.
  apply Hcur. apply (inv_visited _ _ _ (proj1 Hinv)). eauto.
Qed.

Lemma bfsIter_first_visit n st v d :
  bfsInv es s st ->
  BfsState.blockDistances st !! v = Some d ->
  BfsState.blockDistances (bfsIter n (buildAdjList es) st) !! v = Some d.
Proof.
  revert st. induction n as [|n IH]; intros st Hinv Hv; [done|].
  simpl. apply IH; [by apply bfsInv_step | by apply bfsStep_first_visit].
Qed.

(** Every block [n] hops away is assigned a distance of at most [n]. *)
Lemma bfs_reaches n v :
  hops es s n v ->
  exists d, BfsState.blockDistances (bfsRun es s) !! v = Some d /\ (d <= n)%nat.
Proof.
  pose proof (proj1 bfsInv_run) as Hinv. pose proof (bfs_terminates s) as Hq.
  induction 1 as [|n u e Hhops IH He Hs].
  - exists 0%nat. split; [|done].
    destruct (inv_root _ _ _ Hinv) as [?|Hin]; [done|].
    rewrite Hq in Hin. by apply elem_of_nil in Hin.
  - destruct IH as (du & Hdu & Hle). subst u.
    destruct (inv_edges _ _ _ Hinv e du He Hdu) as [(dv & Hdv & Hle')|Hin].
    + exists dv. split; [done|lia].
    + rewrite Hq in Hin. by apply elem_of_nil in Hin.
Qed.

Lemma bfs_distance_sound v d :
  BfsState.blockDistances (bfsRun es s) !! v = Some d -> hops es s d v.
Proof. apply (inv_dist_hops _ _ _ (proj1 bfsInv_run)). Qed.

(** C9 (amended): a node that is visited already can be queued again,
    but it is skipped when it leaves the queue, so the traversal is
    cycle-safe: it terminates within [1 + |edges|] iterations, a
    distance once assigned is never overwritten, the blocks in the
    final mapping are exactly the blocks reachable from the start,
    each with its least number of hops, and unreachable blocks are
    absent. *)
Theorem bfs_cycle_safe :
  BfsState.queue (bfsRun es s) = []
  /\ (forall adjList st cur d rest,
        BfsState.queue st = (cur, d) :: rest ->
        cur ∈ BfsState.visited st ->
        bfsStep adjList st
        = BfsState.mk (BfsState.visited st) rest (BfsState.blockDistances st))
  /\ (forall n m v d,
        BfsState.blockDistances (bfsIter n (buildAdjList es) (bfsInit s)) !! v = Some d ->
        BfsState.blockDistances (bfsIter (n + m) (buildAdjList es) (bfsInit s)) !! v = Some d)
  /\ (forall v,
        is_Some (BfsState.blockDistances (bfsRun es s) !! v) <-> exists n, hops es s n v)
  /\ (forall v d,
        BfsState.blockDistances (bfsRun es s) !! v = Some d ->
        hops es s d v /\ forall n, hops es s n v -> (d <= n)%nat).
Proof.
  split; [apply bfs_terminates|]. split; [|split; [|split]].
  - intros adjList st cur d rest Hq Hcur. unfold bfsStep. rewrite Hq.
    by rewrite bool_decide_eq_true_2.
  - intros n m v d Hv. rewrite bfsIter_add.
    apply bfsIter_first_visit; [|done]. apply bfsInv_iter, bfsInv_init.
  - intros v. split.
    + intros [d Hd]. exists d. by apply bfs_distance_sound.
    + intros [n (d & Hd & _)%bfs_reaches]. eauto.
  - intros v d Hd. split; [by apply bfs_distance_sound|].
    intros n (d' & Hd' & Hle)%bfs_reaches. congruence.
Qed.
End BfsFacts.

(** An instance of C9: in [starter -> A -> loop{B} -> C] the loop block
    is assigned the distance 2, its least number of hops. *)
Lemma bfs_cycle_safe_witness :
  BfsState.blockDistances (bfsRun (edges (Scenario.workflow "")) "starter") !! "loop"
  = Some 2%nat
  /\ hops (edges (Scenario.workflow "")) "starter" 2 "loop"
  /\ forall n, hops (edges (Scenario.workflow "")) "starter" n "loop" -> (2 <= n)%nat.
Proof.
  assert (Hd : BfsState.blockDistances (bfsRun (edges (Scenario.workflow "")) "starter")
               !! "loop" = Some 2%nat).
  { vm_compute. reflexivity. }
  destruct (bfs_cycle_safe (edges (Scenario.workflow "")) "starter")
    as (_ & _ & _ & _ & Hleast).
  split; [exact Hd | exact (Hleast "loop" 2%nat Hd)].
Defined.

(** C9 as stated fails: on the cycle [s -> a -> s], after [s] has been
    visited the iteration that visits [a] pushes [s] on the queue
    again. *)
Lemma visited_node_requeued :
  "s" ∈ BfsState.visited (bfsIter 1 (buildAdjList Scenario.cycleEdges) (bfsInit "s"))
  /\ BfsState.queue (bfsIter 1 (buildAdjList Scenario.cycleEdges) (bfsInit "s"))
     = [("a", 1%nat)]
  /\ BfsState.queue (bfsIter 2 (buildAdjList Scenario.cycleEdges) (bfsInit "s"))
     = [("s", 2%nat)]
  /\ BfsState.blockDistances (bfsRun Scenario.cycleEdges "s") !! "s" = Some 0%nat.
Proof.
  split; [|split; [|split]].
  - apply (bool_decide_unpack _). vm_compute. exact I.
  - vm_compute. reflexivity.
  - vm_compute. reflexivity.
  - vm_compute. reflexivity.
Qed.

(** * Output paths and their types *)

Section PathsAndTypes.

(** Induction on a value with the hypothesis for every element and
    every field. *)
Lemma JsVal_nested_ind (P : JsVal -> Prop) :
  P JUndefined -> P JNull -> (forall b, P (JBool b)) -> (forall n, P (JNum n)) ->
  (forall s, P (JStr s)) ->
  (forall l, Forall P l -> P (JArr l)) ->
  (forall fs, Forall (fun e => P e.2) fs -> P (JObj fs)) ->
  forall v, P v.
Proof.
  intros Hu Hn Hb Hz Hs Ha Ho. fix IH 1.
  intros [| |b|n|s|l|fs]; [exact Hu | exact Hn | apply Hb | apply Hz | apply Hs | | ].
  - apply Ha. induction l as [|x l IHl]; constructor; [apply IH | exact IHl].
  - apply Ho. induction fs as [|[k x] fs IHfs]; constructor; [apply IH | exact IHfs].
Qed.

Lemma generateOutputPaths_cons key value rest prefix :
  generateOutputPaths (JObj ((key, value) :: rest)) prefix
  = pathsOfEntry prefix key value ++ generateOutputPaths (JObj rest) prefix.
Proof. reflexivity. Qed.

Lemma generateOutputPaths_array l prefix :
  generateOutputPaths (JArr l) prefix = arrayPaths prefix 0 l.
Proof. reflexivity. Qed.

Lemma typedPaths_cons key value rest prefix :
  generateOutputPathsWithTypes (JObj ((key, value) :: rest)) prefix
  = typedPathsOfEntry prefix key value ++ generateOutputPathsWithTypes (JObj rest) prefix.
Proof. reflexivity. Qed.

Lemma typedPaths_array l prefix :
  generateOutputPathsWithTypes (JArr l) prefix = typedArrayPaths prefix 0 l.
Proof. reflexivity. Qed.

Lemma declaredType_spec value :
  Js.hasKey "type" value && Js.isString (Js.get value "type")
  = bool_decide (is_Some (declaredType value)).
Proof.
  unfold declaredType. destruct (Js.hasKey "type" value); simpl.
  - destruct (Js.get value "type"); simpl; try done.
  - done.
Qed.

Lemma entry_paths_typed prefix key value :
  (forall prefix', generateOutputPaths value prefix'
                   `sublist_of` map path (generateOutputPathsWithTypes value prefix')) ->
  pathsOfEntry prefix key value `sublist_of` map path (typedPathsOfEntry prefix key value).
Proof.
  intros IH. unfold pathsOfEntry, typedPathsOfEntry.
  destruct value as [| |b|n|s|l|fs]; simpl Js.isString; simpl Js.isObject; cbv iota;
    try reflexivity.
  - apply IH.
  - rewrite declaredType_spec.
    destruct (declaredType (JObj fs)) as [t|] eqn:Hty.
    + rewrite bool_decide_eq_true_2 by eauto.
      destruct (_ && _); [|destruct (_ && _)]; simpl;
        try (apply sublist_skip, sublist_nil_l); reflexivity.
    + rewrite bool_decide_eq_false_2 by (by intros []). apply IH.
Qed.

Lemma paths_among_typed outputs prefix :
  generateOutputPaths outputs prefix
  `sublist_of` map path (generateOutputPathsWithTypes outputs prefix).
Proof.
  revert prefix. induction outputs as [| |b|n|s|l IH|fs IH] using JsVal_nested_ind;
    intros prefix; try reflexivity.
  - simpl. rewrite map_map. reflexivity.
  - rewrite generateOutputPaths_array, typedPaths_array. generalize 0%nat.
    induction IH as [|value l Hv _ IHl]; intros i; simpl; [done|].
    rewrite map_app. apply sublist_app; [by apply entry_paths_typed | apply IHl].
  - induction IH as [|[key value] fs Hv _ IHfs]; [done|].
    rewrite generateOutputPaths_cons, typedPaths_cons, map_app.
    apply sublist_app; [by apply entry_paths_typed | apply IHfs].
Qed.

(** X1: every tag path of a declaration has a typed entry: the paths of
    [generateOutputPaths] are, in order, among the paths of
    [generateOutputPathsWithTypes], so each of them is the path of a
    typed entry and there are at least as many typed entries. *)
Theorem output_paths_are_typed outputs prefix :
  generateOutputPaths outputs prefix
  `sublist_of` map path (generateOutputPathsWithTypes outputs prefix)
  /\ (forall p, p ∈ generateOutputPaths outputs prefix ->
                exists e, e ∈ generateOutputPathsWithTypes outputs prefix /\ path e = p)
  /\ (length (generateOutputPaths outputs prefix)
      <= length (generateOutputPathsWithTypes outputs prefix))%nat.
Proof.
  pose proof (paths_among_typed outputs prefix) as Hsub.
  split; [exact Hsub|]. split.
  - intros p Hp. apply (fun Hp => elem_of_sublist _ _ _ Hp Hsub) in Hp.
    apply list_elem_of_fmap in Hp as (e & -> & He). by exists e.
  - apply sublist_length in Hsub. by rewrite length_map in Hsub.
Qed.
End PathsAndTypes.

(** * The trigger check and the search term *)

Section TriggerFacts.
Import JsString JsStringFacts.

(** A pending ['<'] in terms of the last occurrences. *)
Lemma matchOpenTail_last s :
  is_Some (matchOpenTail s)
  <-> lastIndexOf s "<" <> -1 /\ lastIndexOf s ">" < lastIndexOf s "<".
Proof.
  induction s as [|a s IH]; [split; [by intros [] | intros []; done]|].
  pose proof (lastIndexOf_range s "<") as Ho.
  pose proof (lastIndexOf_range s ">") as Hc.
  cbn [matchOpenTail lastIndexOf].
  destruct (Ascii.eqb_spec a "<") as [->|Hlt].
  - destruct (noChar ">" s) eqn:Hn; simpl andb; cbv iota.
    + apply lastIndexOf_none in Hn. rewrite Hn. simpl.
      split; [intros _|eauto].
      destruct (lastIndexOf s "<" <? 0) eqn:E; lia.
    + assert (lastIndexOf s ">" <> -1) as Hne.
      { intros Hs%lastIndexOf_none. congruence. }
      rewrite IH. simpl (Ascii.eqb "<" ">").
      destruct (lastIndexOf s "<" <? 0) eqn:E1;
        destruct (lastIndexOf s ">" <? 0) eqn:E2; lia.
  - simpl andb. cbv iota. rewrite IH.
    destruct (Ascii.eqb_spec a ">") as [->|Hgt];
      destruct (lastIndexOf s "<" <? 0) eqn:E1;
      destruct (lastIndexOf s ">" <? 0) eqn:E2; lia.
Qed.

(** The capture is the text after a ['<'] and holds no ['>']. *)
Lemma matchOpenTail_capture s m :
  matchOpenTail s = Some m ->
  exists pre, s = pre +:+ "<" +:+ m /\ noChar ">" m = true.
Proof.
  induction s as [|a s IH]; [done|]. cbn [matchOpenTail].
  destruct (Ascii.eqb_spec a "<") as [->|Hlt].
  - destruct (noChar ">" s) eqn:Hn; simpl andb; cbv iota.
    + intros [= <-]. by exists "".
    + intros (pre & -> & Hm)%IH. by exists (String "<" pre).
  - simpl andb. cbv iota. intros (pre & -> & Hm)%IH. by exists (String a pre).
Qed.

Lemma checkTagTrigger_last text cursor :
  checkTagTrigger text cursor = true
  <-> 1 <= cursor
      /\ lastIndexOf (slice text 0 cursor) "<" <> -1
      /\ lastIndexOf (slice text 0 cursor) ">" < lastIndexOf (slice text 0 cursor) "<".
Proof.
  unfold checkTagTrigger.
  pose proof (lastIndexOf_range (slice text 0 cursor) "<") as Ho.
  pose proof (lastIndexOf_range (slice text 0 cursor) ">") as Hc.
  destruct (1 <=? cursor) eqn:E; [|split; [done | lia]].
  destruct (lastIndexOf (slice text 0 cursor) "<" =? -1) eqn:E1;
    destruct (lastIndexOf (slice text 0 cursor) ">" =? -1) eqn:E2;
    destruct (lastIndexOf (slice text 0 cursor) ">" <? lastIndexOf (slice text 0 cursor) "<") eqn:E3;
    simpl; split; try done; lia.
Qed.

(** X2: the dropdown is triggered exactly when the cursor is past the
    first character and the text before it ends with a ['<'] followed
    by neither ['<'] nor ['>']. *)
Theorem trigger_iff_pending_delimiter text cursor :
  checkTagTrigger text cursor = true
  <-> 1 <= cursor
      /\ exists pre mid,
          slice text 0 cursor = pre +:+ "<" +:+ mid
          /\ noChar "<" mid = true /\ noChar ">" mid = true.
Proof.
  split.
  - intros Ht. pose proof Ht as (Hc & Ho & _)%checkTagTrigger_last.
    split; [done|].
    destruct (lastIndexOf_exists _ _ Ho) as (pre & mid & Hs & Hmid).
    exists pre, mid. split; [done|]. split; [done|].
    by apply (trigger_unterminated text cursor pre mid).
  - intros (Hc & pre & mid & Hs & Hlt & Hgt).
    apply checkTagTrigger_last. split; [done|]. rewrite Hs.
    change (pre +:+ "<" +:+ mid) with (pre +:+ String "<" mid).
    rewrite lastIndexOf_split by done. rewrite lastIndexOf_append.
    assert (lastIndexOf (String "<" mid) ">" = -1) as ->.
    { apply lastIndexOf_none. by rewrite noChar_cons, Hgt. }
    simpl. pose proof (lastIndexOf_range pre ">"). pose proof (len_nonneg pre). lia.
Qed.

(** X3: with the cursor past the first character, the dropdown is
    triggered exactly when the search-term expression matches the text
    before the cursor; the term it captures then holds no ['>']. *)
Theorem trigger_iff_search_matches text cursor :
  1 <= cursor ->
  (checkTagTrigger text cursor = true
   <-> is_Some (matchOpenTail (slice text 0 cursor)))
  /\ (forall m, matchOpenTail (slice text 0 cursor) = Some m ->
                exists pre, slice text 0 cursor = pre +:+ "<" +:+ m
                            /\ noChar ">" m = true).
Proof.
  intros Hc. split; [|apply matchOpenTail_capture].
  rewrite matchOpenTail_last, checkTagTrigger_last. tauto.
Qed.
End TriggerFacts.

(** An instance of X3: with the cursor behind [see <ma] the dropdown is
    triggered and the search term is [ma]. *)
Lemma trigger_iff_search_matches_witness :
  1 <= 7
  /\ checkTagTrigger "see <ma" 7 = true
  /\ exists pre, JsString.slice "see <ma" 0 7 = pre +:+ "<" +:+ "ma"
                 /\ JsString.noChar ">" "ma" = true.
Proof.
  assert (Hcursor : 1 <= 7) by lia.
  destruct (trigger_iff_search_matches "see <ma" 7 Hcursor) as [Hiff Hcapture].
  split; [exact Hcursor|]. split.
  - apply Hiff. exists "ma". reflexivity.
  - apply Hcapture. reflexivity.
Defined.

(** * Name normalisation *)

Section Normalisation.
Import JsString JsStringFacts.

Lemma filterChars_all f s : all f (filterChars f s) = true.
Proof.
  induction s as [|a s IH]; [done|]. simpl.
  destruct (f a) eqn:E; [|done]. simpl. by rewrite E.
Qed.

Lemma filterChars_id f s : all f s = true -> filterChars f s = s.
Proof.
  induction s as [|a s IH]; [done|]. simpl.
  intros [Ha Hs]%andb_true_iff. rewrite Ha. by rewrite IH.
Qed.

Lemma mapChars_id f s :
  all (fun c => Ascii.eqb (f c) c) s = true -> mapChars f s = s.
Proof.
  induction s as [|a s IH]; [done|]. simpl.
  intros [Ha%Ascii.eqb_eq Hs]%andb_true_iff. by rewrite Ha, IH.
Qed.

Lemma all_mapChars f g s : all f (mapChars g s) = all (fun c => f (g c)) s.
Proof. induction s as [|a s IH]; [done|]. simpl. by rewrite IH. Qed.

Lemma all_impl (f g : ascii -> bool) s :
  (forall c, f c = true -> g c = true) -> all f s = true -> all g s = true.
Proof.
  intros Hfg. induction s as [|a s IH]; [done|]. simpl.
  intros [Ha Hs]%andb_true_iff. by rewrite (Hfg _ Ha), IH.
Qed.

Lemma all_and f g s : all (fun c => f c && g c) s = all f s && all g s.
Proof.
  induction s as [|a s IH]; [done|]. simpl. rewrite IH.
  destruct (f a), (g a), (all f s), (all g s); done.
Qed.

(** A lowered character is no capital, and is white space only if
    the character was. *)
Lemma lowerChar_spec c :
  isCapital (lowerChar c) = false
  /\ (isSpace c = false -> isSpace (lowerChar c) = false).
Proof.
  destruct c as [[] [] [] [] [] [] [] []]; vm_compute; split; congruence.
Qed.

Lemma lowerChar_fixed c : isCapital c = false -> lowerChar c = c.
Proof. unfold lowerChar. by intros ->. Qed.

Lemma normalizeBlockName_chars s :
  all (fun c => negb (isSpace c) && negb (isCapital c)) (normalizeBlockName s) = true.
Proof.
  unfold normalizeBlockName, toLowerCase, stripWhitespace.
  rewrite all_mapChars.
  apply (all_impl (fun c => negb (isSpace c))); [|apply filterChars_all].
  intros c Hc. destruct (lowerChar_spec c) as [-> Hs].
  rewrite Hs; [done|]. by destruct (isSpace c).
Qed.

(** X4: a normalised block name holds no white space, the no-break
    space included, and no capital, accented or not, and normalising
    it again changes nothing. *)
Theorem normalizeBlockName_canonical s :
  all (fun c => negb (isSpace c)) (normalizeBlockName s) = true
  /\ all (fun c => negb (isCapital c)) (normalizeBlockName s) = true
  /\ normalizeBlockName (normalizeBlockName s) = normalizeBlockName s.
Proof.
  pose proof (normalizeBlockName_chars s) as Hc.
  rewrite all_and in Hc. apply andb_true_iff in Hc as [Hs Hu].
  split; [done|]. split; [done|].
  unfold normalizeBlockName at 1. unfold stripWhitespace, toLowerCase.
  rewrite (filterChars_id _ _ Hs). apply mapChars_id.
  revert Hu. apply all_impl. intros c Hu.
  apply Ascii.eqb_eq, lowerChar_fixed. by destruct (isCapital c).
Qed.

(** A normalised variable name holds no white space and is a fixed
    point of the normalisation; a name of white space only normalises
    to the empty string. *)
Lemma normalizeVariableName_canonical s :
  all (fun c => negb (isSpace c)) (normalizeVariableName s) = true
  /\ normalizeVariableName (normalizeVariableName s) = normalizeVariableName s.
Proof.
  unfold normalizeVariableName, stripWhitespace.
  split; [apply filterChars_all|]. apply filterChars_id, filterChars_all.
Qed.
End Normalisation.

(** A name with an accented capital and a no-break space. *)
Example normalizeBlockName_latin1 :
  normalizeBlockName (Fixtures.capitalEAcute +:+ "t" +:+ Fixtures.nbsp +:+ "A 1")
  = Fixtures.smallEAcute +:+ "ta1".
Proof. reflexivity. Qed.

(** * The root tag *)

Section RootTagFacts.
Context `{Externals}.
Variable p : Props.t.

Lemma ensureRootTag_cases ts r :
  (ensureRootTag ts r = ts /\ (r = "" \/ r ∈ ts))
  \/ (ensureRootTag ts r = r :: ts /\ r <> "" /\ r ∉ ts).
Proof.
  unfold ensureRootTag. destruct (String.eqb_spec r "") as [->|Hr]; [left; auto|].
  destruct (includesTag ts r) eqn:E.
  - left. split; [done|]. right. by apply includesTag_elem.
  - right. split; [done|]. split; [done|].
    intros Hin%includesTag_elem. congruence.
Qed.

(** X5: [ensureRootTag] keeps the tags in their order, adds the root tag
    at most once and only in front, and is idempotent. *)
Theorem ensureRootTag_idempotent ts r :
  ensureRootTag (ensureRootTag ts r) r = ensureRootTag ts r
  /\ ts `suffix_of` ensureRootTag ts r
  /\ (length (ensureRootTag ts r) <= S (length ts))%nat
  /\ (r ∈ ts -> ensureRootTag ts r = ts).
Proof.
  destruct (ensureRootTag_cases ts r) as [[Heq Hc]|(Heq & Hr & Hn)]; rewrite Heq.
  - split; [done|]. split; [done|]. split; [lia|]. done.
  - split.
    + unfold ensureRootTag. apply String.eqb_neq in Hr. rewrite Hr.
      simpl. by rewrite String.eqb_refl.
    + split; [by exists [r]|]. split; [simpl; lia|]. done.
Qed.

Lemma filter_ne_cons (r : string) ts :
  filter (fun tag => tag <> r) (r :: ts) = filter (fun tag => tag <> r) ts.
Proof. by rewrite filter_cons_False by (intros Hne; by apply Hne). Qed.

(** X6: for a block that is no generic webhook the policy amounts to
    dropping the bare block name: every other tag is kept, in order.
    For a generic webhook every tag is kept. *)
Theorem root_tag_policy_keeps_children b name ts :
  (Block.type b <> "generic_webhook" ->
   applyRootTagPolicy b name ts = filter (fun tag => tag <> name) ts)
  /\ (Block.type b = "generic_webhook" ->
      ts `suffix_of` applyRootTagPolicy b name ts).
Proof.
  unfold applyRootTagPolicy. split.
  - intros Hty%String.eqb_neq. rewrite Hty. simpl.
    destruct (ensureRootTag_cases ts name) as [[-> _]|(-> & _ & _)]; [done|].
    apply filter_ne_cons.
  - intros ->. simpl.
    destruct (ensureRootTag_cases ts name) as [[-> _]|(-> & _ & _)]; [done|].
    by exists [name].
Qed.

(** * Variables *)

Lemma startsWith_append s t : JsString.startsWith (s +:+ t) s = true.
Proof.
  induction s as [|a s IH]; [by destruct t|].
  rewrite JsStringFacts.append_cons. simpl. by rewrite Ascii.eqb_refl, IH.
Qed.

Lemma substringFrom_append s t : substringFrom (String.length s) (s +:+ t) = t.
Proof.
  unfold substringFrom. rewrite JsStringFacts.length_append.
  replace (String.length s + String.length t - String.length s)%nat
    with (String.length t) by lia.
  apply JsStringFacts.substring_suffix.
Qed.

Lemma find_is_Some {A} (f : A -> bool) l x :
  x ∈ l -> f x = true -> is_Some (find f l).
Proof.
  induction 1 as [x l|x y l Hin IH]; intros Hx; simpl.
  - rewrite Hx. eauto.
  - destruct (f y); eauto.
Qed.

(** X7: the tag of a workflow variable is inserted as it is, whatever
    group it is selected under: neither the file rewrite nor the
    contextual prefix applies to it. *)
Theorem variable_tag_inserted_unchanged v group :
  v ∈ Props.workflowVariables p ->
  processedTag p (variableTagOf v) group = variableTagOf v.
Proof.
  intros Hv. unfold processedTag, variableTagOf.
  rewrite startsWith_append, substringFrom_append.
  destruct (find_is_Some
              (fun v' => String.eqb (JsString.stripWhitespace (WfVariable.name v'))
                           (normalizeVariableName (WfVariable.name v)))
              _ v Hv) as [v' ->]; [apply String.eqb_refl | done].
Qed.

(** * Accessible prefixes *)

Lemma uniqueInOrder_spec seen xs :
  NoDup (uniqueInOrder seen xs)
  /\ uniqueInOrder seen xs `sublist_of` xs
  /\ forall x, x ∈ uniqueInOrder seen xs <-> x ∈ xs /\ x ∉ seen.
Proof.
  revert seen. induction xs as [|x xs IH]; intros seen; simpl.
  - split; [constructor|]. split; [done|]. intros x. rewrite elem_of_nil. tauto.
  - destruct (IH seen) as (Hn1 & Hs1 & He1).
    destruct (IH ({[x]} ∪ seen)) as (Hn2 & Hs2 & He2).
    case_bool_decide as Hx.
    + split; [done|]. split; [by apply sublist_cons|].
      intros y. rewrite He1, elem_of_cons. split; [tauto|].
      intros [[->|Hy] Hs]; [done | tauto].
    + split.
      { constructor; [|done]. rewrite He2. intros [_ Hs]. apply Hs.
        apply elem_of_union. left. by apply elem_of_singleton. }
      split; [by apply sublist_skip|].
      intros y. rewrite !elem_of_cons, He2, elem_of_union, elem_of_singleton.
      split.
      * intros [->|[Hy Hs]]; [tauto|]. split; [tauto|]. intros Hys. apply Hs. tauto.
      * intros [[->|Hy] Hs]; [tauto|].
        destruct (decide (y = x)) as [->|Hne]; [tauto|]. right. split; [done|].
        intros [?|?]; done.
Qed.

Lemma accessibleGroup_blockId d u g : accessibleGroup p d u = Some g -> blockId g = u.
Proof.
  intros Hg. by destruct (accessibleGroup_some p d u g Hg) as (Hid & _).
Qed.

Lemma omap_blockIds d us :
  map blockId (omap (accessibleGroup p d) us) `sublist_of` us.
Proof.
  induction us as [|u us IH]; [done|]. simpl.
  destruct (accessibleGroup p d u) as [g|] eqn:E; simpl.
  - rewrite (accessibleGroup_blockId _ _ _ E). by apply sublist_skip.
  - by apply sublist_cons.
Qed.

(** X8: the accessible prefixes are deduplicated: at most one group is
    built per block, in the order of the first occurrences, and every
    group comes from a prefix that was handed in. *)
Theorem one_group_per_accessible_block :
  NoDup (map blockId (accessibleGroups p))
  /\ map blockId (accessibleGroups p)
     `sublist_of` from_option id [] (Props.rawAccessiblePrefixes p).
Proof.
  unfold accessibleGroups, combinedAccessiblePrefixes.
  destruct (Props.rawAccessiblePrefixes p) as [raw|]; simpl; [|split; [constructor | done]].
  destruct (uniqueInOrder_spec ∅ raw) as (Hn & Hs & _).
  pose proof (omap_blockIds (computeBlockDistances (Props.workflow p)) (uniqueInOrder ∅ raw)) as Ho.
  split; [by eapply sublist_NoDup | by etrans].
Qed.
End RootTagFacts.

(** An instance of X7: the tag of the variable [my var], selected under the
    contextual group of a loop. *)
Lemma variable_tag_inserted_unchanged_witness :
  Fixtures.myVar ∈ Props.workflowVariables Scenario.propsC
  /\ processedTag Scenario.propsC "variable.myvar" (Some Scenario.loopGroup) = "variable.myvar".
Proof.
  assert (Hv : Fixtures.myVar ∈ Props.workflowVariables Scenario.propsC)
    by apply list_elem_of_here.
  split; [exact Hv|].
  exact (variable_tag_inserted_unchanged Scenario.propsC Fixtures.myVar
           (Some Scenario.loopGroup) Hv).
Defined.

(** * Tool outputs *)

Section ToolOutputs.
Context `{Externals}.

Lemma find_first_match {A} (f : A -> bool) (l : list A) :
  (exists x, x ∈ l /\ f x = true) ->
  exists y, find f l = Some y /\ y ∈ l /\ f y = true.
Proof.
  intros (x & Hx & Hfx). induction Hx as [x l|x z l Hx IH]; simpl.
  - rewrite Hfx. exists x. split; [done|]. split; [apply list_elem_of_here | done].
  - destruct (f z) eqn:E.
    + exists z. split; [done|]. split; [apply list_elem_of_here | done].
    + destruct (IH Hfx) as (y & -> & Hy & Hfy). exists y. split; [done|]. split; [by apply list_elem_of_further | done].
Qed.

(** X9: every output path offered for a tool has a typed entry, and its
    type is resolved from the first such entry of the same tool: the
    fallback for a path that is not found never applies to it. *)
Theorem tool_paths_are_typed cfg operation p :
  p ∈ generateToolOutputPaths cfg operation ->
  exists toolFn toolId toolConfig e,
    tool cfg = Some toolFn
    /\ toolFn operation = Normal toolId
    /\ getTool toolId = Some toolConfig
    /\ e ∈ generateOutputPathsWithTypes (toolOutputs toolConfig) ""
    /\ path e = p
    /\ getToolOutputType cfg operation p
       = (if String.eqb (type e) "" then "any" else type e).
Proof.
  unfold generateToolOutputPaths, getToolOutputType.
  destruct (tool cfg) as [toolFn|]; [|by intros ?%elem_of_nil].
  destruct (toolFn operation) as [toolId|e0] eqn:Hop; [|by intros ?%elem_of_nil].
  destruct (String.eqb toolId ""); [by intros ?%elem_of_nil|].
  destruct (getTool toolId) as [toolConfig|] eqn:Htool; [|by intros ?%elem_of_nil].
  destruct (negb (Js.truthy (toolOutputs toolConfig))); [by intros ?%elem_of_nil|].
  intros Hp.
  pose proof (paths_among_typed (toolOutputs toolConfig) "") as Hsub.
  apply (fun Hp => elem_of_sublist _ _ _ Hp Hsub) in Hp.
  apply list_elem_of_fmap in Hp as (e1 & -> & He1).
  destruct (find_first_match (fun e => String.eqb (path e) (path e1))
              (generateOutputPathsWithTypes (toolOutputs toolConfig) ""))
    as (e & -> & He & Hpe%String.eqb_eq).
  { exists e1. split; [done | apply String.eqb_refl]. }
  exists toolFn, toolId, toolConfig, e. done.
Qed.
End ToolOutputs.

(** * Merged sub-blocks *)

Section MergedSubBlocks.
Context `{Externals}.
Variable p : Props.t.

Lemma lookup_set_eq k v fs : Js.lookup k (Js.set k v fs) = Some v.
Proof.
  induction fs as [|[k' v'] fs IH]; simpl.
  - by rewrite String.eqb_refl.
  - destruct (String.eqb_spec k' k) as [->|Hne]; simpl.
    + by rewrite String.eqb_refl.
    + by apply String.eqb_neq in Hne as ->.
Qed.

Lemma lookup_set_ne k k' v fs : k' <> k -> Js.lookup k (Js.set k' v fs) = Js.lookup k fs.
Proof.
  intros Hne. induction fs as [|[k0 v0] fs IH]; simpl.
  - by apply String.eqb_neq in Hne as ->.
  - destruct (String.eqb_spec k0 k') as [->|Hne0]; simpl.
    + by apply String.eqb_neq in Hne as ->.
    + by rewrite IH.
Qed.

Lemma lookup_merge_other (f : string * JsVal -> JsVal) k es init :
  k ∉ map fst es ->
  Js.lookup k (foldl (fun merged e => Js.set (fst e) (f e) merged) init es)
  = Js.lookup k init.
Proof.
  revert init. induction es as [|e es IH]; intros init Hk; [done|]. simpl.
  apply not_elem_of_cons in Hk as [Hne Hk]. rewrite IH by done.
  by apply lookup_set_ne.
Qed.

Lemma lookup_merge_entry (f : string * JsVal -> JsVal) e es init :
  NoDup (map fst es) -> e ∈ es ->
  Js.lookup (fst e) (foldl (fun merged e => Js.set (fst e) (f e) merged) init es)
  = Some (f e).
Proof.
  revert init. induction es as [|e0 es IH]; intros init Hnd He; [by apply elem_of_nil in He|].
  simpl in *. apply NoDup_cons in Hnd as [Hn0 Hnd].
  apply elem_of_cons in He as [->|He].
  - rewrite lookup_merge_other by done. apply lookup_set_eq.
  - by apply IH.
Qed.

(** X10: the merge of the stored sub-blocks of a block with its live
    values: a sub-block with a live value carries that value and
    keeps its other properties, and a sub-block without one is the
    stored one. *)
Theorem merged_sub_blocks_overlay targetBlockId :
  NoDup (map fst (Js.entries (liveSubBlockValues p targetBlockId))) ->
  (forall subId liveVal,
     (subId, liveVal) ∈ Js.entries (liveSubBlockValues p targetBlockId) ->
     Js.get (Js.get (getMergedSubBlocks p targetBlockId) subId) "value" = liveVal
     /\ forall k, k <> "value" ->
          Js.get (Js.get (getMergedSubBlocks p targetBlockId) subId) k
          = default JUndefined
              (Js.lookup k (Js.entries (Js.orEmpty (Js.get (storedSubBlocks p targetBlockId) subId)))))
  /\ (forall subId,
        subId ∉ map fst (Js.entries (liveSubBlockValues p targetBlockId)) ->
        Js.get (getMergedSubBlocks p targetBlockId) subId
        = default JUndefined (Js.lookup subId (Js.entries (storedSubBlocks p targetBlockId)))).
Proof.
  intros Hnd. unfold getMergedSubBlocks.
  fold (storedSubBlocks p targetBlockId). fold (liveSubBlockValues p targetBlockId).
  split.
  - intros subId liveVal Hin. cbn [Js.get].
    rewrite (lookup_merge_entry
               (fun e => JObj (Js.set "value" e.2
                                 (Js.entries (Js.orEmpty (Js.get (storedSubBlocks p targetBlockId) e.1)))))
               (subId, liveVal)) by done.
    cbn [default fst snd Js.get id]. split.
    + by rewrite lookup_set_eq.
    + intros k Hk. by rewrite lookup_set_ne.
  - intros subId Hout. cbn [Js.get]. by rewrite lookup_merge_other.
Qed.
End MergedSubBlocks.

(** An instance of X9: the path [attachments] of the tool behind the
    operation [read] of the mail block has the type [files]. *)
Lemma tool_paths_are_typed_witness :
  "attachments" ∈ generateToolOutputPaths Scenario.mailConfig (JStr "read")
  /\ exists e,
      e ∈ generateOutputPathsWithTypes (toolOutputs Scenario.mailReadTool) ""
      /\ path e = "attachments"
      /\ getToolOutputType Scenario.mailConfig (JStr "read") "attachments"
         = (if String.eqb (type e) "" then "any" else type e).
Proof.
  assert (Hp : "attachments" ∈ generateToolOutputPaths Scenario.mailConfig (JStr "read")).
  { apply (bool_decide_unpack _). vm_compute. exact I. }
  split; [exact Hp|].
  destruct (tool_paths_are_typed Scenario.mailConfig (JStr "read") "attachments" Hp)
    as (toolFn & toolId & toolConfig & e & Htool & Hop & Hget & He & Hpath & Hty).
  injection Htool as <-. injection Hop as <-. injection Hget as <-.
  exists e. split; [exact He|]. split; [exact Hpath | exact Hty].
Defined.

(** An instance of X10: the live value of [model] replaces the stored one and
    keeps the [id] of the sub-block; [responseFormat] has no live value
    and is the stored sub-block. *)
Lemma merged_sub_blocks_overlay_witness :
  NoDup (map fst (Js.entries (liveSubBlockValues Fixtures.formatProps "fmt")))
  /\ Js.get (Js.get (getMergedSubBlocks Fixtures.formatProps "fmt") "model") "value"
     = JStr "live"
  /\ Js.get (Js.get (getMergedSubBlocks Fixtures.formatProps "fmt") "model") "id"
     = JStr "model"
  /\ Js.get (Js.get (getMergedSubBlocks Fixtures.formatProps "fmt") "responseFormat") "value"
     = JStr " <start.schema> ".
Proof.
  assert (Hnd : NoDup (map fst (Js.entries (liveSubBlockValues Fixtures.formatProps "fmt")))).
  { apply (bool_decide_unpack _). vm_compute. exact I. }
  destruct (merged_sub_blocks_overlay Fixtures.formatProps "fmt" Hnd) as [Hlive Hstored].
  assert (Hin : ("model", JStr "live")
                ∈ Js.entries (liveSubBlockValues Fixtures.formatProps "fmt"))
    by apply list_elem_of_here.
  destruct (Hlive "model" (JStr "live") Hin) as [Hvalue Hother].
  split; [exact Hnd|]. split; [exact Hvalue|]. split.
  - rewrite (Hother "id"); [reflexivity | discriminate].
  - rewrite (Hstored "responseFormat"); [reflexivity|].
    apply (bool_decide_unpack _). vm_compute. exact I.
Defined.

(** * Nested tags *)

Section NestedTagFacts.

Lemma elem_of_concat {A} (x : A) (ls : list (list A)) :
  x ∈ concat ls <-> exists l, x ∈ l /\ l ∈ ls.
Proof.
  induction ls as [|l0 ls IH]; simpl.
  - split; [by intros ?%elem_of_nil | by intros (l & _ & ?%elem_of_nil)].
  - rewrite elem_of_app, IH. split.
    + intros [Hx|(l & Hx & Hl)].
      * exists l0. split; [done | apply list_elem_of_here].
      * exists l. split; [done | by apply list_elem_of_further].
    + intros (l & Hx & [->|Hl]%elem_of_cons); [by left|]. right. by exists l.
Qed.

Lemma concat_map_perm {A B} (f : A -> list B) l l' :
  l ≡ₚ l' -> concat (map f l) ≡ₚ concat (map f l').
Proof.
  induction 1 as [|x l l' _ IH|x y l|l1 l2 l3 _ IH1 _ IH2]; simpl.
  - done.
  - by rewrite IH.
  - rewrite !app_assoc. f_equiv. apply Permutation_app_comm.
  - by rewrite IH1.
Qed.

Lemma insertIndexKey_perm {A} n (e : string * A) l : insertIndexKey n e l ≡ₚ (n, e) :: l.
Proof.
  induction l as [|[m f] l IH]; simpl; [done|].
  destruct (n <=? m)%N; [done|]. rewrite IH. apply Permutation_swap.
Qed.

Lemma entriesOrder_perm {A} (record : list (string * A)) : entriesOrder record ≡ₚ record.
Proof.
  unfold entriesOrder.
  rewrite <- (filter_app_complement (fun e => arrayIndex (fst e) = None) record) at 3.
  rewrite Permutation_app_comm. f_equiv.
  induction record as [|e record IH]; [done|]. simpl.
  destruct (arrayIndex (fst e)) as [n|] eqn:E.
  - rewrite insertIndexKey_perm. simpl. rewrite IH.
    rewrite filter_cons_True by (rewrite E; done). done.
  - rewrite IH. rewrite filter_cons_False by (rewrite E; intros Hn; by apply Hn). done.
Qed.

(** The tags below a parent of [groupedTags]. *)
Let childTags (e : string * list TagEntry) : list string := map fullTag e.2.

(** A parent has children, each keyed by the parent and its own
    display name. *)
Let wellFormedParent (e : string * list TagEntry) : Prop :=
  e.2 <> [] /\ Forall (fun c => key c = e.1 +:+ "." +:+ display c) e.2.

Lemma pushChild_tags parent child groupedTags :
  concat (map childTags (pushChild parent child groupedTags))
  ≡ₚ fullTag child :: concat (map childTags groupedTags).
Proof.
  induction groupedTags as [|[k cs] r IH]; simpl; [done|].
  destruct (String.eqb k parent); simpl.
  - unfold childTags at 1 3. simpl. rewrite map_app. simpl.
    rewrite (Permutation_app_comm (map fullTag cs)). done.
  - rewrite IH. symmetry. apply Permutation_middle.
Qed.

Lemma pushChild_keys parent child groupedTags k :
  k ∈ map fst (pushChild parent child groupedTags)
  <-> k = parent \/ k ∈ map fst groupedTags.
Proof.
  induction groupedTags as [|[k' cs] r IH]; simpl.
  - rewrite list_elem_of_singleton, elem_of_nil. tauto.
  - destruct (String.eqb_spec k' parent) as [->|Hne]; simpl.
    + rewrite elem_of_cons. tauto.
    + rewrite !elem_of_cons, IH. tauto.
Qed.

Lemma pushChild_NoDup parent child groupedTags :
  NoDup (map fst groupedTags) -> NoDup (map fst (pushChild parent child groupedTags)).
Proof.
  induction groupedTags as [|[k' cs] r IH]; simpl; intros Hnd.
  - apply NoDup_singleton.
  - apply NoDup_cons in Hnd as [Hk Hnd].
    destruct (String.eqb_spec k' parent) as [->|Hne]; simpl.
    + by apply NoDup_cons.
    + apply NoDup_cons. split; [|by apply IH].
      rewrite pushChild_keys. intros [->|Hin]; done.
Qed.

Lemma pushChild_wellFormed parent child groupedTags :
  key child = parent +:+ "." +:+ display child ->
  Forall wellFormedParent groupedTags ->
  Forall wellFormedParent (pushChild parent child groupedTags).
Proof.
  intros Hchild. induction 1 as [|[k cs] r [Hne Hcs] Hr IH]; simpl.
  - repeat constructor; done.
  - destruct (String.eqb_spec k parent) as [->|Hkp]; constructor; try done.
    split; simpl in *.
    + by destruct cs.
    + apply Forall_app. split; [done|]. by repeat constructor.
Qed.

(** What [classifyTag] keeps true of [(groupedTags, directTags)]
    after the tags [processed]. *)
Let classified (acc : list (string * list TagEntry) * list TagEntry)
    (processed : list string) : Prop :=
  concat (map childTags acc.1) ++ map fullTag acc.2 ≡ₚ processed
  /\ NoDup (map fst acc.1)
  /\ Forall wellFormedParent acc.1.

Lemma classified_direct acc processed e :
  classified acc processed ->
  classified (acc.1, acc.2 ++ [e]) (fullTag e :: processed).
Proof.
  intros (Hp & Hn & Hw). split; [|done]. simpl.
  rewrite map_app. simpl. rewrite app_assoc, Hp.
  symmetry. apply Permutation_cons_append.
Qed.

(** No name inherited from [Object.prototype] is an own property
    of [groupedTags]. *)
Let ownKeys (acc : list (string * list TagEntry) * list TagEntry) : Prop :=
  Forall (fun e => includesTag objectPrototypeKeys e.1 = false) acc.1.

Lemma hasOwn_elem {A} parent (record : list (string * A)) :
  hasOwn parent record = true <-> parent ∈ map fst record.
Proof.
  unfold hasOwn. induction record as [|[k v] l IH]; simpl.
  - split; [done | by intros ?%elem_of_nil].
  - rewrite orb_true_iff, elem_of_cons. split.
    + intros [Hk%String.eqb_eq | Hl]; [by left | right; by apply IH].
    + intros [->|Hl]; [left; apply String.eqb_refl | right; by apply IH].
Qed.

Lemma pushChild_ownKeys parent child groupedTags :
  includesTag objectPrototypeKeys parent = false ->
  Forall (fun e : string * list TagEntry => includesTag objectPrototypeKeys e.1 = false)
         groupedTags ->
  Forall (fun e : string * list TagEntry => includesTag objectPrototypeKeys e.1 = false)
         (pushChild parent child groupedTags).
Proof.
  intros Hparent. induction 1 as [|[k cs] l Hk Hl IH]; simpl.
  - by repeat constructor.
  - destruct (String.eqb k parent); constructor; done.
Qed.

Lemma classifyTag_classified group acc acc' processed tag :
  classified acc processed ->
  classifyTag group acc tag = Normal acc' ->
  classified acc' (tag :: processed).
Proof.
  intros Hacc. unfold classifyTag.
  destruct (JsString.split "." tag) as [|a [|parent [|r rest]]];
    try (destruct (_ && _); intros [= <-];
         by apply (classified_direct acc processed (Build_TagEntry _ _ tag))).
  destruct (_ && _); [done|]. intros [= <-].
  destruct Hacc as (Hp & Hn & Hw). split; [|split]; simpl.
  - rewrite pushChild_tags. simpl. by rewrite Hp.
  - by apply pushChild_NoDup.
  - by apply pushChild_wellFormed.
Qed.

Lemma classifyTag_ownKeys group acc acc' tag :
  ownKeys acc -> classifyTag group acc tag = Normal acc' -> ownKeys acc'.
Proof.
  unfold ownKeys, classifyTag. intros Hacc.
  destruct (JsString.split "." tag) as [|a [|parent [|r rest]]];
    try (destruct (_ && _); by intros [= <-]).
  destruct (hasOwn parent acc.1) eqn:Hown; cbn [negb andb].
  - intros [= <-]. simpl. apply pushChild_ownKeys; [|done].
    apply hasOwn_elem, list_elem_of_fmap in Hown as (e & -> & He).
    rewrite Forall_forall in Hacc. by apply Hacc.
  - destruct (includesTag objectPrototypeKeys parent) eqn:Hproto; cbn [negb andb]; [done|].
    intros [= <-]. simpl. by apply pushChild_ownKeys.
Qed.

(** One tag throws exactly when its parent is an inherited name. *)
Lemma classifyTag_throws group acc tag :
  ownKeys acc ->
  (exists e, classifyTag group acc tag = Throw e) <-> hasInheritedParent tag = true.
Proof.
  unfold ownKeys, classifyTag, hasInheritedParent. intros Hacc.
  destruct (JsString.split "." tag) as [|a [|parent [|r rest]]];
    try (split; [intros [e He]; by destruct (_ && _) | done]).
  destruct (hasOwn parent acc.1) eqn:Hown; cbn [negb andb].
  - apply hasOwn_elem, list_elem_of_fmap in Hown as (e & -> & He).
    rewrite Forall_forall in Hacc. rewrite (Hacc _ He). split; [by intros [? ?] | done].
  - destruct (includesTag objectPrototypeKeys parent); cbn [negb andb]; split; try done.
    + intros _. by eexists.
    + by intros [? ?].
Qed.

Lemma classifyTags_classified group ts acc acc' processed :
  classified acc processed ->
  classifyTags group acc ts = Normal acc' ->
  classified acc' (rev ts ++ processed).
Proof.
  revert acc processed. induction ts as [|t ts IH]; intros acc processed Hacc; simpl.
  - by intros [= <-].
  - destruct (classifyTag group acc t) as [acc1|e] eqn:Ht; [|done].
    intros Hts. rewrite <- app_assoc. apply (IH acc1); [|done].
    by apply (classifyTag_classified group acc).
Qed.

Lemma classifyTags_throws group ts acc :
  ownKeys acc ->
  (exists e, classifyTags group acc ts = Throw e)
  <-> exists tag, tag ∈ ts /\ hasInheritedParent tag = true.
Proof.
  revert acc. induction ts as [|t ts IH]; intros acc Hacc; simpl.
  - split; [by intros [? ?] | by intros (? & ?%elem_of_nil & _)].
  - pose proof (classifyTag_throws group acc t Hacc) as Ht.
    destruct (classifyTag group acc t) as [acc1|e] eqn:Hc.
    + rewrite (IH acc1) by (by apply (classifyTag_ownKeys group acc acc1 t)).
      split.
      * intros (tag & Hin & Htag). exists tag. split; [by apply list_elem_of_further | done].
      * intros (tag & [->|Hin]%elem_of_cons & Htag); [|by exists tag].
        apply Ht in Htag as [? ?]. done.
    + split; [|by eexists]. intros _. exists t. split; [apply list_elem_of_here|].
      apply Ht. by eexists.
Qed.

Lemma classifyTags_typeError group ts acc e :
  classifyTags group acc ts = Throw e -> e = typeError.
Proof.
  revert acc. induction ts as [|t ts IH]; intros acc; simpl; [done|].
  destruct (classifyTag group acc t) as [acc1|e1] eqn:Hc; [by apply IH|].
  intros [= <-]. revert Hc. unfold classifyTag.
  destruct (JsString.split "." t) as [|a [|parent [|r rest]]];
    try (by destruct (_ && _)).
  destruct (_ && _); [by intros [= <-] | done].
Qed.

Lemma nestedTags_classified group nts :
  nestedTags group = Normal nts ->
  exists groupedTags directTags,
    nts = map (fun e => ParentTag (fst e) (snd e)) (entriesOrder groupedTags)
          ++ map DirectTag directTags
    /\ classified (groupedTags, directTags) (rev (tags group)).
Proof.
  unfold nestedTags.
  pose proof (classifyTags_classified group (tags group) ([], [])) as Hc.
  destruct (classifyTags group ([], []) (tags group)) as [[groupedTags directTags]|e];
    [|done].
  intros [= <-]. exists groupedTags, directTags. split; [done|].
  specialize (Hc _ [] ltac:(split; [done|]; split; constructor) eq_refl).
  by rewrite app_nil_r in Hc.
Qed.

Lemma nestedTags_throws group :
  (exists e, nestedTags group = Throw e)
  <-> exists tag, tag ∈ tags group /\ hasInheritedParent tag = true.
Proof.
  rewrite <- (classifyTags_throws group (tags group) ([], [])) by constructor.
  unfold nestedTags.
  destruct (classifyTags group ([], []) (tags group)) as [[groupedTags directTags]|e].
  - split; by intros [? ?].
  - split; intros _; by eexists.
Qed.

Lemma nestedTags_empty group : tags group = [] -> nestedTags group = Normal [].
Proof. unfold nestedTags. by intros ->. Qed.

Lemma nestedFullTags_parents l :
  concat (map nestedFullTags (map (fun e => ParentTag (fst e) (snd e)) l))
  = concat (map childTags l).
Proof. by rewrite map_map. Qed.

Lemma nestedFullTags_directs l :
  concat (map nestedFullTags (map DirectTag l)) = map fullTag l.
Proof. induction l as [|e l IH]; [done|]. simpl. by rewrite IH. Qed.

Lemma nestedTags_perm group nts :
  nestedTags group = Normal nts ->
  concat (map nestedFullTags nts) ≡ₚ tags group.
Proof.
  intros (groupedTags & directTags & -> & Hp & _)%nestedTags_classified.
  rewrite map_app, concat_app, nestedFullTags_parents, nestedFullTags_directs.
  rewrite (concat_map_perm childTags _ _ (entriesOrder_perm groupedTags)).
  simpl in Hp. rewrite Hp. symmetry. apply Permutation_rev.
Qed.

(** X11: [nestedTags] throws a [TypeError] exactly when a tag of the
    group has three parts or more and its second part is a name
    inherited from [Object.prototype].  Otherwise it partitions the
    tags of the group: every tag is the full tag of exactly one
    entry, direct or child of a parent; the parents are distinct, and
    each has at least one child, keyed by the parent and the child's
    display name. *)
Theorem nested_tags_partition group :
  ((exists e, nestedTags group = Throw e)
   <-> exists tag, tag ∈ tags group /\ hasInheritedParent tag = true)
  /\ (forall e, nestedTags group = Throw e -> e = typeError)
  /\ (forall nts,
        nestedTags group = Normal nts ->
        concat (map nestedFullTags nts) ≡ₚ tags group
        /\ NoDup (omap parentKey nts)
        /\ (forall parent children,
              ParentTag parent children ∈ nts ->
              children <> []
              /\ forall c, c ∈ children -> key c = parent +:+ "." +:+ display c)).
Proof.
  split; [apply nestedTags_throws|]. split.
  { intros e. unfold nestedTags.
    destruct (classifyTags group ([], []) (tags group)) as [[? ?]|e'] eqn:Hc; [done|].
    intros [= <-]. by apply (classifyTags_typeError group (tags group) ([], [])). }
  intros nts Hnts. split; [by apply nestedTags_perm|].
  destruct (nestedTags_classified group nts Hnts)
    as (groupedTags & directTags & -> & _ & Hn & Hw).
  simpl in Hn, Hw. split.
  - rewrite omap_app.
    assert (forall l, omap parentKey (map DirectTag l) = []) as ->.
    { induction l as [|e l IH]; [done|]. done. }
    rewrite app_nil_r.
    assert (forall l : list (string * list TagEntry),
               omap parentKey (map (fun e => ParentTag (fst e) (snd e)) l) = map fst l) as ->.
    { induction l as [|e l IH]; [done|]. simpl. f_equal. exact IH. }
    by rewrite entriesOrder_perm.
  - intros parent children Hin. apply elem_of_app in Hin as [Hin|Hin].
    + apply list_elem_of_fmap in Hin as ([k cs] & [= -> ->] & Hin).
      rewrite entriesOrder_perm in Hin.
      rewrite Forall_forall in Hw. destruct (Hw _ Hin) as [Hne Hcs].
      split; [done|]. intros c Hc. rewrite Forall_forall in Hcs. by apply Hcs.
    + by apply list_elem_of_fmap in Hin as (e & [=] & _).
Qed.

Lemma visualTag_full nestedTag t :
  t ∈ visualTag nestedTag -> t ∈ nestedFullTags nestedTag /\ t <> "".
Proof.
  destruct nestedTag as [e|parent [|c cs]]; simpl.
  - destruct (String.eqb_spec (fullTag e) ""); [by intros ?%elem_of_nil|].
    intros ->%list_elem_of_singleton. split; [apply list_elem_of_here | done].
  - by intros ?%elem_of_nil.
  - destruct (String.eqb_spec (fullTag c) ""); [by intros ?%elem_of_nil|].
    intros ->%list_elem_of_singleton. split; [apply list_elem_of_here | done].
Qed.

Lemma groupVisualTags_elem group nts t :
  nestedTags group = Normal nts ->
  t ∈ groupVisualTags nts -> t ∈ tags group /\ t <> "".
Proof.
  unfold groupVisualTags. intros Hnts Ht.
  apply elem_of_concat in Ht as (l & Ht & Hl).
  apply list_elem_of_fmap in Hl as (nt & -> & Hnt).
  apply visualTag_full in Ht as [Ht Hne]. split; [|done].
  rewrite <- (nestedTags_perm group nts Hnts).
  apply elem_of_concat. exists (nestedFullTags nt). split; [done|].
  apply list_elem_of_fmap. by exists nt.
Qed.

(** The groups that [nestGroups] pairs with their nested tags. *)
Lemma nestGroups_elem groups nested group nts :
  nestGroups groups = Normal nested ->
  (group, nts) ∈ nested -> group ∈ groups /\ nestedTags group = Normal nts.
Proof.
  unfold nestGroups. revert nested.
  induction groups as [|g groups IH]; intros nested; simpl.
  - intros [= <-]. by intros ?%elem_of_nil.
  - destruct (nestedTags g) as [ntsg|e] eqn:Hg; [|done].
    destruct (mapCompletion _ groups) as [rest|e] eqn:Hrest; [|done].
    intros [= <-]. intros [[= -> ->]|Hin]%elem_of_cons.
    + split; [apply list_elem_of_here | done].
    + destruct (IH rest eq_refl Hin) as [Hgroup Hnts].
      split; [by apply list_elem_of_further | done].
Qed.

Lemma nestGroups_complete groups nested group :
  nestGroups groups = Normal nested ->
  group ∈ groups -> exists nts, nestedTags group = Normal nts /\ (group, nts) ∈ nested.
Proof.
  unfold nestGroups. revert nested.
  induction groups as [|g groups IH]; intros nested; simpl.
  - by intros _ ?%elem_of_nil.
  - destruct (nestedTags g) as [ntsg|e] eqn:Hg; [|done].
    destruct (mapCompletion _ groups) as [rest|e] eqn:Hrest; [|done].
    intros [= <-]. intros [->|Hin]%elem_of_cons.
    + exists ntsg. split; [done | apply list_elem_of_here].
    + destruct (IH rest eq_refl Hin) as (nts & Hnts & Hin').
      exists nts. split; [done | by apply list_elem_of_further].
Qed.
End NestedTagFacts.

(** * The flat tag list and the groups *)

Section FlatTags.
Context `{Externals}.
Variable p : Props.t.

Lemma tagData_tags_perm :
  TagData.tags (tagData p)
  ≡ₚ concat (map tags (TagData.blockTagGroups (tagData p)))
     ++ (if bool_decide (Props.activeSourceBlockId p = None) && negb (hasInvalidBlocks p)
         then map variableTagOf (validVariables p) else []).
Proof.
  unfold tagData. destruct (Props.activeSourceBlockId p) as [src|]; simpl.
  - unfold singleSourceTagData.
    destruct (lookupRecord src _) as [b|]; [|done].
    destruct (getBlock (Block.type b)) as [cfg|]; simpl.
    + by rewrite ?app_nil_r.
    + destruct (isContainerType (Block.type b)); simpl; [|done]. by rewrite ?app_nil_r.
  - destruct (hasInvalidBlocks p); simpl; [done|].
    rewrite map_app, concat_app.
    rewrite (concat_map_perm tags _ _ (sortByDistance_perm (accessibleGroups p))).
    rewrite (Permutation_app_comm (concat (map tags (contextGroups p)))).
    rewrite <- !app_assoc. f_equiv. apply Permutation_app_comm.
Qed.

(** X12: the flat tag list holds exactly the tags of the groups and, in
    the listing of all accessible blocks, the tags of the variables
    with a non-blank name: no tag is lost or invented between the
    two results of the computation.  So every tag of a group is in
    the flat list, and a tag of the flat list that no group holds is
    the tag of a variable. *)
Theorem flat_tags_match_groups :
  TagData.tags (tagData p)
  ≡ₚ concat (map tags (TagData.blockTagGroups (tagData p)))
     ++ (if bool_decide (Props.activeSourceBlockId p = None) && negb (hasInvalidBlocks p)
         then map variableTagOf (validVariables p) else [])
  /\ (forall g t, g ∈ TagData.blockTagGroups (tagData p) -> t ∈ tags g ->
                  t ∈ TagData.tags (tagData p))
  /\ (forall t, t ∈ TagData.tags (tagData p) ->
                (exists g, g ∈ TagData.blockTagGroups (tagData p) /\ t ∈ tags g)
                \/ exists v, v ∈ Props.workflowVariables p
                             /\ JsString.trim (WfVariable.name v) <> ""
                             /\ t = variableTagOf v).
Proof.
  pose proof tagData_tags_perm as Hperm. split; [exact Hperm|]. split.
  - intros g t Hg Ht. rewrite Hperm. apply elem_of_app. left.
    apply elem_of_concat. exists (tags g). split; [done|].
    apply list_elem_of_fmap. by exists g.
  - intros t Ht. rewrite Hperm in Ht. apply elem_of_app in Ht as [Ht|Ht].
    + left. apply elem_of_concat in Ht as (l & Ht & Hl).
      apply list_elem_of_fmap in Hl as (g & -> & Hg). by exists g.
    + right. destruct (_ && _); [|by apply elem_of_nil in Ht].
      apply list_elem_of_fmap in Ht as (v & -> & Hv).
      apply list_elem_of_filter in Hv as [Hname Hv]. by exists v.
Qed.

Lemma startsWith_nonempty t : JsString.startsWith t TAG_PREFIXES_VARIABLE = true -> t <> "".
Proof. by intros Hs ->. Qed.

(** X13: when the render completes, every tag the keyboard can reach
    is a tag of the computation that matches the search term, and is
    not empty. *)
Theorem ordered_tags_sound ordered t :
  orderedTags p = Normal ordered ->
  t ∈ ordered ->
  t ∈ TagData.tags (tagData p) /\ matchesSearch p t = true /\ t <> "".
Proof.
  unfold orderedTags.
  destruct (nestedBlockTagGroups p) as [nested|e] eqn:Hnested; [|done].
  intros [= <-]. unfold visualTags. intros [Ht|Ht]%elem_of_app.
  - unfold variableTags, filteredTags in Ht.
    apply list_elem_of_filter in Ht as [Hv Ht].
    apply list_elem_of_filter in Ht as [Hm Ht].
    split; [done|]. split; [done|]. by apply startsWith_nonempty.
  - apply elem_of_concat in Ht as (l & Ht & Hl).
    apply list_elem_of_fmap in Hl as ([fg nts] & -> & Hfg).
    apply (nestGroups_elem _ _ _ _ Hnested) in Hfg as [Hfg Hnts].
    unfold filteredBlockTagGroups in Hfg.
    apply list_elem_of_filter in Hfg as [_ Hfg].
    apply list_elem_of_fmap in Hfg as (g & -> & Hg).
    apply (groupVisualTags_elem _ _ _ Hnts) in Ht as [Ht Hne].
    simpl in Ht. apply list_elem_of_filter in Ht as [Hm Ht].
    split; [|done].
    rewrite tagData_tags_perm. apply elem_of_app. left.
    apply elem_of_concat. exists (tags g). split; [done|].
    apply list_elem_of_fmap. by exists g.
Qed.
End FlatTags.

(** An instance of X11: a group with a nested output, and a group in
    which a user field named [constructor] has a child. *)
Lemma nested_tags_partition_witness :
  nestedTags Fixtures.nestedGroup
  = Normal [ParentTag "tokens"
              [{| key := "tokens.prompt"; display := "prompt"; fullTag := "a.tokens.prompt" |};
               {| key := "tokens.total"; display := "total"; fullTag := "a.tokens.total" |}];
            DirectTag {| key := "content"; display := "content"; fullTag := "a.content" |}]
  /\ concat (map nestedFullTags
               [ParentTag "tokens"
                  [{| key := "tokens.prompt"; display := "prompt"; fullTag := "a.tokens.prompt" |};
                   {| key := "tokens.total"; display := "total"; fullTag := "a.tokens.total" |}];
                DirectTag {| key := "content"; display := "content"; fullTag := "a.content" |}])
     ≡ₚ tags Fixtures.nestedGroup
  /\ "a.constructor.name" ∈ tags Fixtures.inheritedGroup
  /\ hasInheritedParent "a.constructor.name" = true
  /\ nestedTags Fixtures.inheritedGroup = Throw typeError.
Proof.
  assert (Hnested : nestedTags Fixtures.nestedGroup
                    = Normal [ParentTag "tokens"
              [{| key := "tokens.prompt"; display := "prompt"; fullTag := "a.tokens.prompt" |};
               {| key := "tokens.total"; display := "total"; fullTag := "a.tokens.total" |}];
            DirectTag {| key := "content"; display := "content"; fullTag := "a.content" |}])
    by reflexivity.
  assert (Hin : "a.constructor.name" ∈ tags Fixtures.inheritedGroup).
  { apply (bool_decide_unpack _). vm_compute. exact I. }
  assert (Hparent : hasInheritedParent "a.constructor.name" = true) by reflexivity.
  destruct (nested_tags_partition Fixtures.nestedGroup) as (_ & _ & Hpartition).
  destruct (nested_tags_partition Fixtures.inheritedGroup) as (Hthrows & Herror & _).
  split; [exact Hnested|].
  split; [exact (proj1 (Hpartition _ Hnested))|].
  split; [exact Hin|]. split; [exact Hparent|].
  destruct (proj2 Hthrows (ex_intro _ "a.constructor.name" (conj Hin Hparent))) as [e He].
  rewrite He. f_equal. exact (Herror e He).
Defined.

(** An instance of X13: [a.content], the third tag [C] is offered. *)
Lemma ordered_tags_sound_witness :
  orderedTags Scenario.propsC
  = Normal ["variable.myvar"; "start.input"; "a.content"; "a.model"; "loop1"; "loop1.results"]
  /\ "a.content" ∈ TagData.tags (tagData Scenario.propsC)
  /\ matchesSearch Scenario.propsC "a.content" = true
  /\ "a.content" <> "".
Proof.
  assert (Hordered : orderedTags Scenario.propsC
                     = Normal ["variable.myvar"; "start.input"; "a.content"; "a.model";
                               "loop1"; "loop1.results"]) by reflexivity.
  split; [exact Hordered|].
  apply (ordered_tags_sound Scenario.propsC _ "a.content" Hordered).
  apply (bool_decide_unpack _). vm_compute. exact I.
Defined.

(** * The flat order *)

Section FlatOrder.
Context `{Externals}.
Variable p : Props.t.

Lemma filter_filter_none {A} (P Q : A -> Prop) `{!forall x, Decision (P x)}
    `{!forall x, Decision (Q x)} (l : list A) :
  Forall (fun x => ~ P x) l -> filter P (filter Q l) = [].
Proof.
  induction 1 as [|x l Hx Hl IH]; [done|].
  rewrite (filter_cons Q). case_decide; [|done].
  by rewrite filter_cons_False.
Qed.

Lemma filter_filter_all {A} (P Q : A -> Prop) `{!forall x, Decision (P x)}
    `{!forall x, Decision (Q x)} (l : list A) :
  Forall P l -> filter P (filter Q l) = filter Q l.
Proof.
  induction 1 as [|x l Hx Hl IH]; [done|].
  rewrite (filter_cons Q). case_decide; [|done].
  by rewrite filter_cons_True, IH.
Qed.

Lemma isVariableTag_variableTagOf v : isVariableTag (variableTagOf v) = true.
Proof. apply startsWith_append. Qed.

Lemma contextGroups_bare g tag :
  g ∈ contextGroups p -> tag ∈ tags g -> isVariableTag tag = false.
Proof.
  unfold contextGroups. intros [Hg|Hg]%elem_of_app Htag.
  - destruct (loopBlockGroup p) as [g0|] eqn:Hloop; [|by apply elem_of_nil in Hg].
    apply list_elem_of_singleton in Hg as ->.
    apply loopBlockGroup_scope in Hloop as (_ & loop & Htags & _).
    rewrite Htags, loopContextualTags_cases in Htag.
    destruct (String.eqb _ "forEach");
      repeat (apply elem_of_cons in Htag as [->|Htag]; [done|]);
      by apply elem_of_nil in Htag.
  - destruct (parallelBlockGroup p) as [g0|] eqn:Hpar; [|by apply elem_of_nil in Hg].
    apply list_elem_of_singleton in Hg as ->.
    apply parallelBlockGroup_scope in Hpar as (_ & parallel & Htags & _).
    rewrite Htags, parallelContextualTags_cases in Htag.
    destruct (String.eqb _ "collection");
      repeat (apply elem_of_cons in Htag as [->|Htag]; [done|]);
      by apply elem_of_nil in Htag.
Qed.

(** When no tag of an accessible block starts with the prefix of the
    variables, the variable tags of the dropdown are the tags of the
    workflow variables that match the search term. *)
Lemma variableTags_of_variables :
  Props.activeSourceBlockId p = None ->
  hasInvalidBlocks p = false ->
  Forall (fun g => Forall (fun tag => isVariableTag tag = false) (tags g))
         (accessibleGroups p) ->
  variableTags p
  = filter (fun tag => matchesSearch p tag = true) (map variableTagOf (validVariables p)).
Proof.
  intros Hsrc Hinv Hbare. unfold variableTags, filteredTags, tagData.
  rewrite Hsrc, Hinv. simpl. rewrite !filter_app.
  rewrite (filter_filter_none _ _ (concat _)), (filter_filter_all _ _ (map _ _)),
    (filter_filter_none _ _ (concat _)).
  - by rewrite app_nil_r.
  - apply Forall_forall. intros tag (l & Htag & Hl)%elem_of_concat.
    apply list_elem_of_fmap in Hl as (g & -> & Hg).
    fold (isVariableTag tag). by rewrite (contextGroups_bare g tag Hg Htag).
  - apply Forall_forall. intros tag (v & -> & _)%list_elem_of_fmap.
    apply isVariableTag_variableTagOf.
  - apply Forall_forall. intros tag (l & Htag & Hl)%elem_of_concat.
    apply list_elem_of_fmap in Hl as (g & -> & Hg).
    rewrite Forall_forall in Hbare. specialize (Hbare g Hg).
    rewrite Forall_forall in Hbare. fold (isVariableTag tag).
    by rewrite (Hbare tag Htag).
Qed.

Lemma shownTags_normal group :
  tags (filterGroup p group) = [] \/ (exists nts, nestedTags (filterGroup p group) = Normal nts) ->
  exists nts,
    nestedTags (filterGroup p group) = Normal nts /\ shownTags p group = groupVisualTags nts.
Proof.
  unfold shownTags. intros [Hempty|[nts Hnts]].
  - exists []. by rewrite (nestedTags_empty _ Hempty).
  - exists nts. by rewrite Hnts.
Qed.

(** What the groups that [nestedBlockTagGroups] keeps contribute. *)
Lemma nestGroups_visual groups nested :
  nestGroups (filter (fun group => tags group <> []) (map (filterGroup p) groups))
  = Normal nested ->
  concat (map (fun group => groupVisualTags (snd group)) nested)
  = concat (map (shownTags p) groups)
  /\ forall group, group ∈ groups ->
       exists nts, nestedTags (filterGroup p group) = Normal nts
                   /\ shownTags p group = groupVisualTags nts.
Proof.
  revert nested. induction groups as [|g groups IH]; intros nested.
  - intros [= <-]. split; [done|]. by intros group ?%elem_of_nil.
  - simpl map. rewrite filter_cons. case_decide as Hg.
    + unfold nestGroups. simpl.
      destruct (nestedTags (filterGroup p g)) as [nts|e] eqn:Hnts; [|done].
      destruct (mapCompletion _ _) as [rest|e] eqn:Hrest; [|done].
      intros [= <-]. destruct (IH rest Hrest) as [Hvisual Hall].
      destruct (shownTags_normal g) as (nts' & Hnts' & Hshown); [right; by exists nts|].
      split.
      * simpl. rewrite Hvisual, Hshown. rewrite Hnts in Hnts'. by injection Hnts' as <-.
      * intros group [->|Hin]%elem_of_cons; [by exists nts'|by apply Hall].
    + intros Hnested. destruct (IH nested Hnested) as [Hvisual Hall].
      assert (Hempty : tags (filterGroup p g) = []).
      { by destruct (decide (tags (filterGroup p g) = [])). }
      destruct (shownTags_normal g) as (nts & Hnts & Hshown); [by left|].
      split.
      * simpl. rewrite Hvisual, Hshown.
        rewrite (nestedTags_empty _ Hempty) in Hnts. by injection Hnts as <-.
      * intros group [->|Hin]%elem_of_cons; [by exists nts|by apply Hall].
Qed.

(** The flat order: the variable tags, then what each group
    contributes, in the order of [blockTagGroups]. *)
Lemma orderedTags_groups ordered :
  orderedTags p = Normal ordered ->
  ordered
  = variableTags p ++ concat (map (shownTags p) (TagData.blockTagGroups (tagData p)))
  /\ forall group, group ∈ TagData.blockTagGroups (tagData p) ->
       exists nts, nestedTags (filterGroup p group) = Normal nts
                   /\ shownTags p group = groupVisualTags nts.
Proof.
  unfold orderedTags, nestedBlockTagGroups, filteredBlockTagGroups.
  destruct (nestGroups _) as [nested|e] eqn:Hnested; [|done].
  intros [= <-]. destruct (nestGroups_visual _ _ Hnested) as [Hvisual Hall].
  split; [|done]. unfold visualTags. by rewrite Hvisual.
Qed.

Lemma shownTags_elem group tag :
  tag ∈ shownTags p group -> tag ∈ tags group /\ matchesSearch p tag = true.
Proof.
  unfold shownTags.
  destruct (nestedTags (filterGroup p group)) as [nts|e] eqn:Hnts;
    [|by intros ?%elem_of_nil].
  intros [Htag _]%(groupVisualTags_elem _ _ _ Hnts).
  simpl in Htag. by apply list_elem_of_filter in Htag as [? ?].
Qed.

(** C7 (amended): when no tag of an accessible block starts with the
    prefix of the variables, the flat ordered list starts with the
    variable tags, which are the tags of the workflow variables that
    match the search term, and no tag that follows them is one; the
    groups of the accessible blocks follow the contextual groups in
    ascending order of distance, and for two accessible blocks at the
    distances [d < d'] the tags shown for the first stand before the
    tags shown for the second, the list being the variable tags
    followed by what each group shows, group after group. *)
Theorem closer_blocks_first U U' g g' d d' ordered :
  Props.activeSourceBlockId p = None ->
  hasInvalidBlocks p = false ->
  orderedTags p = Normal ordered ->
  Forall (fun h => Forall (fun tag => isVariableTag tag = false) (tags h))
         (accessibleGroups p) ->
  U ∈ combinedAccessiblePrefixes p ->
  U' ∈ combinedAccessiblePrefixes p ->
  accessibleGroup p (computeBlockDistances (Props.workflow p)) U = Some g ->
  accessibleGroup p (computeBlockDistances (Props.workflow p)) U' = Some g' ->
  computeBlockDistances (Props.workflow p) !! U = Some d ->
  computeBlockDistances (Props.workflow p) !! U' = Some d' ->
  (d < d')%nat ->
  variableTags p
  = filter (fun tag => matchesSearch p tag = true) (map variableTagOf (validVariables p))
  /\ StronglySorted closerOrEqual (sortByDistance (accessibleGroups p))
  /\ sortByDistance (accessibleGroups p) ≡ₚ accessibleGroups p
  /\ exists groups1 groups2 groups3,
      sortByDistance (accessibleGroups p) = groups1 ++ g :: groups2 ++ g' :: groups3
      /\ TagData.blockTagGroups (tagData p)
         = contextGroups p ++ groups1 ++ g :: groups2 ++ g' :: groups3
      /\ ordered
         = variableTags p
           ++ concat (map (shownTags p) (contextGroups p ++ groups1))
           ++ shownTags p g
           ++ concat (map (shownTags p) groups2)
           ++ shownTags p g'
           ++ concat (map (shownTags p) groups3)
      /\ Forall (fun tag => isVariableTag tag = false)
                (concat (map (shownTags p) (contextGroups p ++ groups1))
                 ++ shownTags p g
                 ++ concat (map (shownTags p) groups2)
                 ++ shownTags p g'
                 ++ concat (map (shownTags p) groups3))
      /\ exists nts nts',
          nestedTags (filterGroup p g) = Normal nts
          /\ shownTags p g = groupVisualTags nts
          /\ nestedTags (filterGroup p g') = Normal nts'
          /\ shownTags p g' = groupVisualTags nts'.
Proof.
  intros Hsrc Hinv Hordered Hbare HU HU' Hg Hg' Hd Hd' Hlt.
  assert (distance g < distance g')%nat as Hdist.
  { apply accessibleGroup_some in Hg as (_ & _ & ->).
    apply accessibleGroup_some in Hg' as (_ & _ & ->).
    by rewrite Hd, Hd'. }
  split; [by apply variableTags_of_variables|].
  split; [apply sortByDistance_sorted|]. split; [apply sortByDistance_perm|].
  destruct (sorted_closer_first (sortByDistance (accessibleGroups p)) g g')
    as (l1 & l2 & l3 & Hsplit).
  - apply sortByDistance_sorted.
  - apply sortByDistance_elem, accessibleGroups_elem. eauto.
  - apply sortByDistance_elem, accessibleGroups_elem. eauto.
  - done.
  - exists l1, l2, l3. split; [done|].
    assert (Hgroups : TagData.blockTagGroups (tagData p)
                      = contextGroups p ++ l1 ++ g :: l2 ++ g' :: l3).
    { by rewrite tagData_groups, Hsplit. }
    split; [done|].
    destruct (orderedTags_groups ordered Hordered) as [Hflat Hnormal].
    assert (Hshown : concat (map (shownTags p) (TagData.blockTagGroups (tagData p)))
                     = concat (map (shownTags p) (contextGroups p ++ l1))
                       ++ shownTags p g
                       ++ concat (map (shownTags p) l2)
                       ++ shownTags p g'
                       ++ concat (map (shownTags p) l3)).
    { rewrite Hgroups, app_assoc, !map_app, !concat_app. simpl.
      rewrite !map_app, !concat_app. simpl. by rewrite <- !app_assoc. }
    split; [by rewrite Hflat, Hshown|]. split.
    + rewrite <- Hshown. apply Forall_forall.
      intros tag (l & Htag & Hl)%elem_of_concat.
      apply list_elem_of_fmap in Hl as (h & -> & Hh).
      apply shownTags_elem in Htag as [Htag _].
      rewrite tagData_groups in Hh by done. apply elem_of_app in Hh as [Hh|Hh].
      * by apply (contextGroups_bare h).
      * apply (proj1 (sortByDistance_elem _ _)) in Hh. rewrite Forall_forall in Hbare.
        specialize (Hbare h Hh). rewrite Forall_forall in Hbare. by apply Hbare.
    + destruct (Hnormal g) as (nts & Hnts & Hs).
      { rewrite Hgroups, !elem_of_app. right. right. apply list_elem_of_here. }
      destruct (Hnormal g') as (nts' & Hnts' & Hs').
      { rewrite Hgroups, !elem_of_app. right. right. apply list_elem_of_further.
        apply elem_of_app. right. apply list_elem_of_here. }
      by exists nts, nts'.
Qed.
End FlatOrder.

(** An instance of C7: for [C] the block [A], one hop from the starter,
    comes before the loop block, two hops from it. *)
Lemma closer_blocks_first_witness :
  orderedTags Scenario.propsC = Normal Fixtures.orderedC
  /\ variableTags Scenario.propsC = ["variable.myvar"]
  /\ shownTags Scenario.propsC Scenario.groupA = ["a.content"; "a.model"]
  /\ shownTags Scenario.propsC Scenario.groupLoopBlock = ["loop1"; "loop1.results"]
  /\ exists groups1 groups2 groups3,
      TagData.blockTagGroups (tagData Scenario.propsC)
      = contextGroups Scenario.propsC
        ++ groups1 ++ Scenario.groupA :: groups2 ++ Scenario.groupLoopBlock :: groups3
      /\ Fixtures.orderedC
         = variableTags Scenario.propsC
           ++ concat (map (shownTags Scenario.propsC) (contextGroups Scenario.propsC ++ groups1))
           ++ shownTags Scenario.propsC Scenario.groupA
           ++ concat (map (shownTags Scenario.propsC) groups2)
           ++ shownTags Scenario.propsC Scenario.groupLoopBlock
           ++ concat (map (shownTags Scenario.propsC) groups3).
Proof.
  assert (Hordered : orderedTags Scenario.propsC = Normal Fixtures.orderedC) by reflexivity.
  split; [exact Hordered|]. do 3 (split; [reflexivity|]).
  destruct (closer_blocks_first Scenario.propsC "a" "loop"
              Scenario.groupA Scenario.groupLoopBlock 1 2 Fixtures.orderedC)
    as (_ & _ & _ & groups1 & groups2 & groups3 & _ & Hgroups & Hflat & _).
  - reflexivity.
  - reflexivity.
  - exact Hordered.
  - apply (bool_decide_unpack _). vm_compute. exact I.
  - apply (bool_decide_unpack _). vm_compute. exact I.
  - apply (bool_decide_unpack _). vm_compute. exact I.
  - reflexivity.
  - reflexivity.
  - reflexivity.
  - reflexivity.
  - lia.
  - exists groups1, groups2, groups3. split; [exact Hgroups | exact Hflat].
Defined.

(** C7 as stated fails: in [starter -> A -> V -> D] the block [V] is
    named [Variable], so that its tags start with the prefix of the
    variables.  In the list offered to [D] the tags of [V], two hops
    from the starter, stand before the tag of the workflow variable, and
    before and after the tags of [A], one hop from it. *)
Lemma block_named_variable_goes_first :
  accessibleGroup Fixtures.namedVariableProps
    (computeBlockDistances (Props.workflow Fixtures.namedVariableProps)) "a"
  = Some Scenario.groupA
  /\ accessibleGroup Fixtures.namedVariableProps
       (computeBlockDistances (Props.workflow Fixtures.namedVariableProps)) "v"
     = Some Fixtures.groupVariableBlock
  /\ (distance Scenario.groupA < distance Fixtures.groupVariableBlock)%nat
  /\ map variableTagOf (validVariables Fixtures.namedVariableProps) = ["variable.myvar"]
  /\ orderedTags Fixtures.namedVariableProps
     = Normal ["variable.content"; "variable.model"; "variable.myvar";
               "start.input"; "a.content"; "a.model";
               "variable.content"; "variable.model"]
  /\ variableTags Fixtures.namedVariableProps
     = ["variable.content"; "variable.model"; "variable.myvar"]
  /\ ~ Forall (fun h => Forall (fun tag => isVariableTag tag = false) (tags h))
              (accessibleGroups Fixtures.namedVariableProps).
Proof.
  do 2 (split; [reflexivity|]). split; [simpl; lia|]. do 3 (split; [reflexivity|]).
  intros Hbare. rewrite Forall_forall in Hbare.
  assert (Hin : Fixtures.groupVariableBlock ∈ accessibleGroups Fixtures.namedVariableProps).
  { apply list_elem_of_In. vm_compute. left. reflexivity. }
  specialize (Hbare _ Hin). apply Forall_inv in Hbare. discriminate.
Qed.

(** * Order and distance of the groups *)

Section GroupOrder.
Context `{Externals}.
Variable p : Props.t.

Lemma contextGroup_shape ty id ts g :
  contextGroup p ty id ts = Some g -> distance g = 0%nat /\ blockType g = ty.
Proof.
  unfold contextGroup. destruct (lookupRecord id _); [|done]. by intros [= <-].
Qed.

Lemma contextGroups_shape g :
  g ∈ contextGroups p -> distance g = 0%nat /\ isContextGroup g = true.
Proof.
  unfold contextGroups, isContextGroup. intros [Hg|Hg]%elem_of_app.
  - unfold loopBlockGroup in Hg.
    destruct (currentLoop p) as [l|].
    + destruct (contextGroup _ _ _ _) as [g'|] eqn:E; [|by apply elem_of_nil in Hg].
      apply list_elem_of_singleton in Hg as ->.
      apply contextGroup_shape in E as [-> ->]. done.
    + destruct (containingLoop p) as [[loopId l]|]; [|by apply elem_of_nil in Hg].
      destruct (contextGroup _ _ _ _) as [g'|] eqn:E; [|by apply elem_of_nil in Hg].
      apply list_elem_of_singleton in Hg as ->.
      apply contextGroup_shape in E as [-> ->]. done.
  - unfold parallelBlockGroup in Hg.
    destruct (containingParallel p) as [[parallelId l]|]; [|by apply elem_of_nil in Hg].
    destruct (contextGroup _ _ _ _) as [g'|] eqn:E; [|by apply elem_of_nil in Hg].
    apply list_elem_of_singleton in Hg as ->.
    apply contextGroup_shape in E as [-> ->]. done.
Qed.

(** X14: in the listing of all accessible blocks the groups are the
    contextual groups, at most two and all at distance 0, followed by
    the groups of the accessible blocks sorted by distance: none is
    lost or repeated, and groups at equal distance keep the order of
    the accessible prefixes. *)
Theorem groups_sorted_stably :
  Props.activeSourceBlockId p = None ->
  hasInvalidBlocks p = false ->
  exists sorted,
    TagData.blockTagGroups (tagData p) = contextGroups p ++ sorted
    /\ (length (contextGroups p) <= 2)%nat
    /\ (forall g, g ∈ contextGroups p -> distance g = 0%nat /\ isContextGroup g = true)
    /\ sorted ≡ₚ accessibleGroups p
    /\ StronglySorted closerOrEqual sorted
    /\ forall d, filter (fun g => distance g = d) sorted
                 = filter (fun g => distance g = d) (accessibleGroups p).
Proof.
  intros Hsrc Hinv. exists (sortByDistance (accessibleGroups p)).
  split; [by apply tagData_groups|]. split.
  { unfold contextGroups. rewrite length_app.
    destruct (loopBlockGroup p), (parallelBlockGroup p); simpl; lia. }
  split; [apply contextGroups_shape|].
  split; [apply sortByDistance_perm|].
  split; [apply sortByDistance_sorted|].
  intros d. apply sortByDistance_stable.
Qed.

(** X15: the distance of the group of an accessible block is the least
    number of edges from the start block to it; it is 0 when there is
    no start block or no path from it, as it is for the start block
    itself. *)
Theorem accessible_group_distance g :
  g ∈ accessibleGroups p ->
  (forall starter n,
      starterBlock (Props.workflow p) = Some starter ->
      hops (edges (Props.workflow p)) (Block.id starter) n (blockId g) ->
      hops (edges (Props.workflow p)) (Block.id starter) (distance g) (blockId g)
      /\ (distance g <= n)%nat)
  /\ (starterBlock (Props.workflow p) = None -> distance g = 0%nat)
  /\ (forall starter,
        starterBlock (Props.workflow p) = Some starter ->
        (forall n, ~ hops (edges (Props.workflow p)) (Block.id starter) n (blockId g)) ->
        distance g = 0%nat).
Proof.
  intros (U & _ & Hg)%accessibleGroups_elem.
  apply accessibleGroup_some in Hg as (-> & _ & ->).
  unfold computeBlockDistances. split; [|split].
  - intros starter n -> Hhops.
    destruct (bfs_reaches _ _ _ _ Hhops) as (d & Hd & Hle).
    rewrite Hd. simpl. split; [by apply bfs_distance_sound | done].
  - by intros ->.
  - intros starter -> Hnone.
    destruct (BfsState.blockDistances _ !! U) as [d|] eqn:Hd; [|done].
    apply bfs_distance_sound in Hd. by destruct (Hnone d).
Qed.
End GroupOrder.

(** An instance of X14: the groups [C] is offered. *)
Lemma groups_sorted_stably_witness :
  TagData.blockTagGroups (tagData Scenario.propsC)
  = [Fixtures.groupStarter; Scenario.groupA; Scenario.groupLoopBlock]
  /\ exists sorted,
      TagData.blockTagGroups (tagData Scenario.propsC) = contextGroups Scenario.propsC ++ sorted
      /\ (length (contextGroups Scenario.propsC) <= 2)%nat
      /\ (forall g, g ∈ contextGroups Scenario.propsC ->
                    distance g = 0%nat /\ isContextGroup g = true)
      /\ sorted ≡ₚ accessibleGroups Scenario.propsC
      /\ StronglySorted closerOrEqual sorted
      /\ forall d, filter (fun g => distance g = d) sorted
                   = filter (fun g => distance g = d) (accessibleGroups Scenario.propsC).
Proof.
  split; [reflexivity|].
  apply (groups_sorted_stably Scenario.propsC); reflexivity.
Defined.

(** An instance of X15: the loop block is two edges from the start block. *)
Lemma accessible_group_distance_witness :
  Scenario.groupLoopBlock ∈ accessibleGroups Scenario.propsC
  /\ hops (edges (Props.workflow Scenario.propsC)) "starter" 2 "loop"
  /\ forall n, hops (edges (Props.workflow Scenario.propsC)) "starter" n "loop" -> (2 <= n)%nat.
Proof.
  assert (Hg : Scenario.groupLoopBlock ∈ accessibleGroups Scenario.propsC).
  { apply list_elem_of_In. vm_compute. left. reflexivity. }
  destruct (accessible_group_distance Scenario.propsC Scenario.groupLoopBlock Hg)
    as (Hleast & _ & _).
  assert (Hhops : hops (edges (Props.workflow Scenario.propsC)) "starter" 2 "loop").
  { apply (hops_step _ _ 1 "a" (Edge.mk "a" "loop")).
    - apply (hops_step _ _ 0 "starter" (Edge.mk "starter" "a")).
      + apply hops_refl.
      + apply list_elem_of_In. vm_compute. left. reflexivity.
      + reflexivity.
    - apply list_elem_of_In. vm_compute. right. left. reflexivity.
    - reflexivity. }
  split; [exact Hg|]. split; [exact Hhops|].
  intros n Hn.
  exact (proj2 (Hleast (Block.mk "starter" "starter" "Start" false (JObj [])) n eq_refl Hn)).
Defined.

(** * Response formats in the dropdown *)

Section ResponseFormatTags.
Context `{Externals}.
Variable p : Props.t.



(** X16: a block whose response format the imported parser accepts,
    such as a reference ([<...>]) it keeps as a string, and in which
    the imported extractor finds no field offers the outputs its
    block config declares, on both derivations. *)
Theorem reference_response_format_offers_declared_outputs id b cfg responseFormat :
  category cfg <> "triggers" ->
  Block.type b <> "starter" ->
  Block.type b <> "evaluator" ->
  Block.type b <> "variables" ->
  libParseResponseFormatSafely
    (Js.get (Js.get (getMergedSubBlocks p id) "responseFormat") "value") id
  = responseFormat ->
  Js.truthy responseFormat = true ->
  libExtractFieldNames responseFormat = [] ->
  accessibleBlockTags p id b cfg
  = applyRootTagPolicy b (normalizeBlockName (displayName b))
      (staticTags (normalizeBlockName (displayName b)) cfg)
  /\ sourceBlockTags p id b cfg = accessibleBlockTags p id b cfg.
Proof.
  intros Hcat%String.eqb_neq Hst%String.eqb_neq Hev%String.eqb_neq Hvar%String.eqb_neq
         Hparse Htruthy Hfields.
  unfold accessibleBlockTags, sourceBlockTags.
  rewrite Hparse, Hcat, Hst, Hev, Hvar, Htruthy.
  simpl orb. cbv iota. unfold schemaTags. by rewrite Hfields.
Qed.

End ResponseFormatTags.

(** An instance of X16: the agent [fmt], whose response format is the
    reference [<start.schema>], offers the outputs of an agent. *)
Lemma reference_response_format_offers_declared_outputs_witness :
  Js.get (Js.get (getMergedSubBlocks Fixtures.formatProps "fmt") "responseFormat") "value"
  = JStr " <start.schema> "
  /\ libParseResponseFormatSafely (JStr " <start.schema> ") "fmt" = JStr "<start.schema>"
  /\ libExtractFieldNames (JStr "<start.schema>") = []
  /\ accessibleBlockTags Fixtures.formatProps "fmt" Fixtures.formatBlock Scenario.agentConfig
     = ["formatter.content"; "formatter.model"]
  /\ sourceBlockTags Fixtures.formatProps "fmt" Fixtures.formatBlock Scenario.agentConfig
     = ["formatter.content"; "formatter.model"].
Proof.
  destruct (reference_response_format_offers_declared_outputs
              Fixtures.formatProps "fmt" Fixtures.formatBlock Scenario.agentConfig
              (JStr "<start.schema>"))
    as [Htags Hsource]; try discriminate; try reflexivity.
  do 3 (split; [reflexivity|]). split.
  - rewrite Htags. reflexivity.
  - rewrite Hsource, Htags. reflexivity.
Defined.


(** * The variable info map *)

Section VariableInfo.
Context `{Externals}.
Variable p : Props.t.

Lemma lookupRecord_setRecord_eq {A} k (v : A) r : lookupRecord k (setRecord k v r) = Some v.
Proof.
  induction r as [|[k' v'] r IH]; simpl.
  - by rewrite String.eqb_refl.
  - destruct (String.eqb_spec k' k) as [->|Hne]; simpl.
    + by rewrite String.eqb_refl.
    + by apply String.eqb_neq in Hne as ->.
Qed.

Lemma lookupRecord_setRecord_ne {A} k k' (v : A) r :
  k' <> k -> lookupRecord k (setRecord k' v r) = lookupRecord k r.
Proof.
  intros Hne. induction r as [|[k0 v0] r IH]; simpl.
  - by apply String.eqb_neq in Hne as ->.
  - destruct (String.eqb_spec k0 k') as [->|Hne0]; simpl.
    + by apply String.eqb_neq in Hne as ->.
    + by rewrite IH.
Qed.

Lemma setRecord_keys {A} k (v : A) r x :
  x ∈ map fst (setRecord k v r) <-> x = k \/ x ∈ map fst r.
Proof.
  induction r as [|[k' v'] r IH]; simpl.
  - rewrite list_elem_of_singleton, elem_of_nil. tauto.
  - destruct (String.eqb_spec k' k) as [->|Hne]; simpl.
    + rewrite elem_of_cons. tauto.
    + rewrite !elem_of_cons, IH. tauto.
Qed.

Lemma setRecord_NoDup {A} k (v : A) r :
  NoDup (map fst r) -> NoDup (map fst (setRecord k v r)).
Proof.
  induction r as [|[k' v'] r IH]; simpl; intros Hnd.
  - apply NoDup_singleton.
  - apply NoDup_cons in Hnd as [Hk Hnd].
    destruct (String.eqb_spec k' k) as [->|Hne]; simpl.
    + by apply NoDup_cons.
    + apply NoDup_cons. split; [|by apply IH].
      rewrite setRecord_keys. intros [->|Hin]; done.
Qed.

(** The map built by the [reduce] over the variables [vs]. *)
Let infoMap (vs : list WfVariable.t) : list (string * (string * string)) :=
  foldl (fun acc v => setRecord (variableTagOf v) (WfVariable.type v, WfVariable.id v) acc)
        [] vs.

Lemma infoMap_snoc vs v :
  infoMap (vs ++ [v])
  = setRecord (variableTagOf v) (WfVariable.type v, WfVariable.id v) (infoMap vs).
Proof. unfold infoMap. by rewrite foldl_app. Qed.

Lemma infoMap_lookup vs t :
  lookupRecord t (infoMap vs)
  = (fun v => (WfVariable.type v, WfVariable.id v))
      <$> find (fun v => String.eqb (variableTagOf v) t) (rev vs).
Proof.
  induction vs as [|v vs IH] using rev_ind; [done|].
  rewrite infoMap_snoc, rev_app_distr.
  change (rev [v] ++ rev vs) with (v :: rev vs). cbn [find].
  destruct (String.eqb_spec (variableTagOf v) t) as [<-|Hne].
  - by rewrite lookupRecord_setRecord_eq.
  - by rewrite lookupRecord_setRecord_ne.
Qed.

Lemma infoMap_keys vs :
  NoDup (map fst (infoMap vs))
  /\ forall t, t ∈ map fst (infoMap vs) <-> t ∈ map variableTagOf vs.
Proof.
  induction vs as [|v vs [IHn IHk]] using rev_ind.
  - split; [constructor|]. done.
  - rewrite infoMap_snoc. split; [by apply setRecord_NoDup|].
    intros t. rewrite setRecord_keys, IHk, map_app, elem_of_app. simpl.
    rewrite list_elem_of_singleton. tauto.
Qed.

(** X18: in the listing of all accessible blocks the variable info map
    has one entry per variable tag: the keys are the tags of the
    variables with a non-blank name, without repetition, and when
    several variables share a tag (their names differ only in white
    space) the entry carries the type and id of the last of them. *)
Theorem variable_info_last_wins :
  Props.activeSourceBlockId p = None ->
  hasInvalidBlocks p = false ->
  NoDup (map fst (TagData.variableInfoMap (tagData p)))
  /\ (forall t, t ∈ map fst (TagData.variableInfoMap (tagData p))
                <-> t ∈ map variableTagOf (validVariables p))
  /\ (forall t, lookupRecord t (TagData.variableInfoMap (tagData p))
                = (fun v => (WfVariable.type v, WfVariable.id v))
                    <$> find (fun v => String.eqb (variableTagOf v) t)
                             (rev (validVariables p))).
Proof.
  intros Hsrc Hinv. unfold tagData. rewrite Hsrc, Hinv. simpl.
  fold (infoMap (validVariables p)).
  destruct (infoMap_keys (validVariables p)) as [Hn Hk].
  split; [done|]. split; [done|]. intros t. apply infoMap_lookup.
Qed.
End VariableInfo.

(** An instance of X18: the one variable [C] is offered. *)
Lemma variable_info_last_wins_witness :
  TagData.variableInfoMap (tagData Scenario.propsC) = [("variable.myvar", ("string", "v1"))]
  /\ NoDup (map fst (TagData.variableInfoMap (tagData Scenario.propsC)))
  /\ lookupRecord "variable.myvar" (TagData.variableInfoMap (tagData Scenario.propsC))
     = Some ("string", "v1").
Proof.
  destruct (variable_info_last_wins Scenario.propsC) as (Hnd & _ & Hlookup);
    try reflexivity.
  split; [reflexivity|]. split; [exact Hnd|].
  rewrite (Hlookup "variable.myvar"). reflexivity.
Defined.

(** * Keyboard navigation *)

Section KeyboardFacts.
Context `{Externals}.
Variable p : Props.t.

Lemma itemAt_Some {A} (l : list A) i x :
  itemAt l i = Some x -> 0 <= i < Z.of_nat (length l) /\ x ∈ l.
Proof.
  unfold itemAt. destruct (i <? 0) eqn:E; [done|]. intros Hx.
  apply Z.ltb_ge in E. split.
  - apply lookup_lt_Some in Hx. lia.
  - by apply list_elem_of_lookup_2 in Hx.
Qed.

Lemma findFirstChild_sound tag i nestedTags j nestedTag :
  findFirstChild tag i nestedTags = Some (j, nestedTag) ->
  nestedTag ∈ nestedTags /\ firstChildIs tag nestedTag = true.
Proof.
  revert i. induction nestedTags as [|nt nts IH]; intros i; simpl; [done|].
  destruct (firstChildIs tag nt) eqn:E.
  - intros [= <- <-]. split; [apply list_elem_of_here | done].
  - intros [Hin Hf]%IH. split; [by apply list_elem_of_further | done].
Qed.

Lemma findParentItem_sound tag groups group j nestedTag :
  findParentItem tag groups = Some (group, (j, nestedTag)) ->
  exists nestedTags,
    (group, nestedTags) ∈ groups /\ nestedTag ∈ nestedTags
    /\ firstChildIs tag nestedTag = true.
Proof.
  induction groups as [|[g nts] groups IH]; simpl; [done|].
  destruct (findFirstChild tag 0 nts) as [[j' nt]|] eqn:E.
  - intros [= <- <- <-]. apply findFirstChild_sound in E as [Hin Hf].
    exists nts. split; [apply list_elem_of_here | done].
  - intros (nts' & Hin & Hnt & Hf)%IH. exists nts'.
    split; [by apply list_elem_of_further | done].
Qed.

Lemma nestedBlockTagGroups_elem nested group nts :
  nestedBlockTagGroups p = Normal nested ->
  (group, nts) ∈ nested ->
  group ∈ filteredBlockTagGroups p /\ nestedTags group = Normal nts.
Proof. unfold nestedBlockTagGroups. apply nestGroups_elem. Qed.

Lemma nestedFullTags_owned group nts nestedTag t :
  nestedTags group = Normal nts ->
  nestedTag ∈ nts -> t ∈ nestedFullTags nestedTag -> t ∈ tags group.
Proof.
  intros Hnts Hnt Ht. rewrite <- (nestedTags_perm group nts Hnts).
  apply elem_of_concat. exists (nestedFullTags nestedTag). split; [done|].
  apply list_elem_of_fmap. by exists nestedTag.
Qed.

Lemma firstChildIs_parent t nestedTag :
  firstChildIs (Some t) nestedTag = true ->
  exists parent child children,
    nestedTag = ParentTag parent (child :: children) /\ fullTag child = t.
Proof.
  destruct nestedTag as [e|parent [|child children]]; simpl; try done.
  intros Heq%String.eqb_eq. by exists parent, child, children.
Qed.

Lemma findHovered_elem group hovered i nestedTags nestedTag :
  findHovered group hovered i nestedTags = Some nestedTag -> nestedTag ∈ nestedTags.
Proof.
  revert i. induction nestedTags as [|nt nts IH]; intros i; simpl; [done|].
  destruct (isHovered group hovered i nt).
  - intros [= <-]. apply list_elem_of_here.
  - intros Hin%IH. by apply list_elem_of_further.
Qed.

Lemma find_elem {A} (f : A -> bool) l x : find f l = Some x -> x ∈ l /\ f x = true.
Proof. intros [Hin Hf]%find_some. split; [by apply list_elem_of_In | done]. Qed.

Lemma find_none_elem {A} (f : A -> bool) l x : find f l = None -> x ∈ l -> f x = false.
Proof. intros Hnone Hin%list_elem_of_In. by apply (find_none f l Hnone). Qed.

Lemma submenu_child_owned nested hovered child :
  nestedBlockTagGroups p = Normal nested ->
  child ∈ currentChildren nested hovered ->
  exists group,
    fst <$> currentGroup nested hovered = Some group
    /\ group ∈ filteredBlockTagGroups p
    /\ fullTag child ∈ tags group.
Proof.
  intros Hnested. unfold currentChildren.
  destruct (currentGroup nested hovered) as [[g nts]|] eqn:Hg; simpl;
    [|by intros ?%elem_of_nil].
  apply find_elem in Hg as [[Hg Hnts]%(nestedBlockTagGroups_elem _ _ _ Hnested) _].
  destruct (findHovered g hovered 0 nts) as [nt|] eqn:Hnt; simpl;
    [|by intros ?%elem_of_nil].
  apply findHovered_elem in Hnt.
  destruct nt as [e|parent children]; simpl; [by intros ?%elem_of_nil|].
  intros Hchild. exists g. split; [done|]. split; [done|].
  apply (nestedFullTags_owned g nts (ParentTag parent children)); [done|done|].
  simpl. apply list_elem_of_fmap. by exists child.
Qed.

(** X19: in a render that completed, [Enter] hands [handleTagSelect] a
    tag together with a group that owns it.  In the submenu the tag
    is a tag of the hovered group.  In the main menu the group is a
    filtered group holding the tag under the selection; the tag
    handed over is that tag, or, when the selection stands for a
    parent, the block name joined with the parent.  No group is
    handed over only for a variable tag, which no group holds.  The
    navigation state is left as it is. *)
Theorem enter_selects_owned_tag ordered nested st st' tag group :
  nestedBlockTagGroups p = Normal nested ->
  orderedTags p = Normal ordered ->
  handleKeyboardEvent p ordered nested Enter st = (st', Select tag group) ->
  st' = st
  /\ match group with
     | Some g =>
         g ∈ filteredBlockTagGroups p
         /\ (tag ∈ tags g
             \/ (Nav.inSubmenu st = false
                 /\ exists parent child children nts,
                     nestedTags g = Normal nts
                     /\ ParentTag parent (child :: children) ∈ nts
                     /\ itemAt ordered (Nav.selectedIndex st) = Some (fullTag child)
                     /\ fullTag child ∈ tags g
                     /\ tag = normalizeBlockName (blockName g) +:+ "." +:+ parent))
     | None =>
         Nav.inSubmenu st = false
         /\ itemAt ordered (Nav.selectedIndex st) = Some tag
         /\ tag ∈ variableTags p
         /\ forall g, g ∈ filteredBlockTagGroups p -> tag ∉ tags g
     end.
Proof.
  intros Hnested Hordered. unfold orderedTags in Hordered. rewrite Hnested in Hordered.
  injection Hordered as <-.
  unfold handleKeyboardEvent.
  destruct (Z.of_nat (length (visualTags (variableTags p) nested)) =? 0); [done|].
  destruct (Nav.inSubmenu st) eqn:Hsub.
  - destruct (Nav.hoveredNested st) as [hovered|]; [|done].
    destruct (_ && _); [|done].
    destruct (itemAt (currentChildren nested hovered) (Nav.submenuIndex st)) as [child|] eqn:Hc;
      [|done].
    intros [= <- <- <-]. split; [done|].
    apply itemAt_Some in Hc as [_ Hc].
    destruct (submenu_child_owned nested hovered child Hnested Hc) as (g & -> & Hg & Hown).
    split; [done|]. by left.
  - destruct (_ && _); [|done].
    destruct (itemAt (visualTags (variableTags p) nested) (Nav.selectedIndex st))
      as [selectedTag|] eqn:Hsel; [|done].
    destruct (findParentItem (Some selectedTag) nested) as [[g [j nt]]|] eqn:Hpar.
    + intros [= <- <- <-]. split; [done|].
      apply findParentItem_sound in Hpar
          as (nts & [Hg Hnts]%(nestedBlockTagGroups_elem _ _ _ Hnested) & Hnt & Hf).
      apply firstChildIs_parent in Hf as (parent & child & children & -> & <-).
      split; [done|]. right. split; [done|].
      exists parent, child, children, nts.
      split; [done|]. split; [done|]. split; [done|]. split; [|done].
      apply (nestedFullTags_owned g nts (ParentTag parent (child :: children))); [done|done|].
      simpl. apply list_elem_of_here.
    + destruct (find _ (filteredBlockTagGroups p)) as [g|] eqn:Hfind.
      * intros [= <- <- <-]. split; [done|].
        apply find_elem in Hfind as [Hg Hin%includesTag_elem].
        split; [done|]. by left.
      * intros [= <- <- <-]. split; [done|]. split; [done|]. split; [done|].
        assert (forall g, g ∈ filteredBlockTagGroups p -> selectedTag ∉ tags g) as Hnone.
        { intros g Hg Hin%includesTag_elem.
          rewrite (find_none_elem _ _ g Hfind Hg) in Hin. done. }
        split; [|done].
        apply itemAt_Some in Hsel as [_ Hsel]. unfold visualTags in Hsel.
        apply elem_of_app in Hsel as [Hv|Hg]; [done|].
        apply elem_of_concat in Hg as (l & Ht & Hl).
        apply list_elem_of_fmap in Hl as ([g nts] & -> & Hg).
        apply (nestedBlockTagGroups_elem _ _ _ Hnested) in Hg as [Hg Hnts].
        apply (groupVisualTags_elem _ _ _ Hnts) in Ht as [Ht _].
        by destruct (Hnone g Hg).
Qed.

(** X20: whatever the key and the mode, a selection inside the list
    the handler closes over stays inside that list: the arrows stop
    at both ends, and no other key moves it.  The clamping effect
    brings a selection that fell behind the end of a shrunk list back
    to its last tag. *)
Theorem selection_stays_in_range ordered nested key st :
  0 <= Nav.selectedIndex st < Z.of_nat (length ordered) ->
  0 <= Nav.selectedIndex (fst (handleKeyboardEvent p ordered nested key st))
    < Z.of_nat (length ordered)
  /\ clampSelectedIndex ordered st = st
  /\ forall st0, 0 <= Nav.selectedIndex st0 ->
       0 <= Nav.selectedIndex (clampSelectedIndex ordered st0)
         < Z.of_nat (length ordered).
Proof.
  intros Hrange. split; [|split].
  - unfold handleKeyboardEvent.
    destruct (Z.of_nat (length ordered) =? 0); [done|].
    destruct (Nav.inSubmenu st).
    + destruct (Nav.hoveredNested st) as [hovered|]; [|done].
      destruct key; simpl; try done.
      destruct (_ && _); [|done]. by destruct (itemAt _ _).
    + destruct key; simpl; try done; try lia.
      * destruct (_ && _); [|done]. by destruct (findParentItem _ _) as [[g [j nt]]|].
      * destruct (_ && _); [|done]. destruct (itemAt _ _); [|done].
        destruct (findParentItem _ _) as [[g [j nt]]|]; done.
  - unfold clampSelectedIndex.
    destruct (Z.of_nat (length ordered) <=? Nav.selectedIndex st) eqn:E; [|done].
    apply Z.leb_le in E. lia.
  - intros st0 Hst0. unfold clampSelectedIndex.
    destruct (Z.of_nat (length ordered) <=? Nav.selectedIndex st0) eqn:E; simpl.
    + lia.
    + apply Z.leb_gt in E. lia.
Qed.
End KeyboardFacts.

(** An instance of X19: [Enter] on the third tag [C] is offered. *)
Lemma enter_selects_owned_tag_witness :
  nestedBlockTagGroups Scenario.propsC = Normal Fixtures.nestedC
  /\ orderedTags Scenario.propsC = Normal Fixtures.orderedC
  /\ handleKeyboardEvent Scenario.propsC Fixtures.orderedC Fixtures.nestedC Enter
       Fixtures.onThirdTag
     = (Fixtures.onThirdTag, Select "a.content" (Some Scenario.groupA))
  /\ Scenario.groupA ∈ filteredBlockTagGroups Scenario.propsC
  /\ "a.content" ∈ tags Scenario.groupA.
Proof.
  assert (Hnested : nestedBlockTagGroups Scenario.propsC = Normal Fixtures.nestedC)
    by reflexivity.
  assert (Hordered : orderedTags Scenario.propsC = Normal Fixtures.orderedC) by reflexivity.
  assert (Henter : handleKeyboardEvent Scenario.propsC Fixtures.orderedC Fixtures.nestedC
                     Enter Fixtures.onThirdTag
                   = (Fixtures.onThirdTag, Select "a.content" (Some Scenario.groupA)))
    by reflexivity.
  destruct (enter_selects_owned_tag Scenario.propsC Fixtures.orderedC Fixtures.nestedC
              Fixtures.onThirdTag Fixtures.onThirdTag
              "a.content" (Some Scenario.groupA) Hnested Hordered Henter)
    as (_ & Hgroup & Hown).
  split; [exact Hnested|]. split; [exact Hordered|].
  split; [exact Henter|]. split; [exact Hgroup|].
  destruct Hown as [Hin|(_ & parent & child & children & nts & _ & _ & _ & _ & Hparent)].
  - exact Hin.
  - apply (bool_decide_unpack _). vm_compute. exact I.
Defined.

(** An instance of X20: [ArrowDown] on the last of the six tags. *)
Lemma selection_stays_in_range_witness :
  orderedTags Scenario.propsC = Normal Fixtures.orderedC
  /\ 0 <= Nav.selectedIndex Fixtures.onLastTag < Z.of_nat (length Fixtures.orderedC)
  /\ Nav.selectedIndex
       (fst (handleKeyboardEvent Scenario.propsC Fixtures.orderedC Fixtures.nestedC
               ArrowDown Fixtures.onLastTag))
     = 5
  /\ 0 <= Nav.selectedIndex
            (fst (handleKeyboardEvent Scenario.propsC Fixtures.orderedC Fixtures.nestedC
                    ArrowDown Fixtures.onLastTag))
       < Z.of_nat (length Fixtures.orderedC).
Proof.
  assert (Hrange : 0 <= Nav.selectedIndex Fixtures.onLastTag
                   < Z.of_nat (length Fixtures.orderedC)).
  { vm_compute. split; [discriminate | reflexivity]. }
  destruct (selection_stays_in_range Scenario.propsC Fixtures.orderedC Fixtures.nestedC
              ArrowDown Fixtures.onLastTag Hrange)
    as (Hstays & _ & _).
  split; [reflexivity|]. split; [exact Hrange|]. split; [reflexivity | exact Hstays].
Defined.

(** * The providers store *)

Section ProvidersFacts.
Import Providers.

Lemma setProvider_same provider s st : providers (setProvider provider s st) provider = s.
Proof. simpl. by rewrite decide_True. Qed.

Lemma setProvider_other provider other s st :
  other <> provider -> providers (setProvider provider s st) other = providers st other.
Proof. intros Hne. simpl. by rewrite decide_False. Qed.

Lemma setModels_models provider newModels st :
  models (providers (setModels provider newModels st) provider)
  = if dedupeModels (PROVIDER_CONFIGS provider)
    then uniqueInOrder ∅ newModels else newModels.
Proof. unfold setModels. cbn [providers]. by rewrite setProvider_same. Qed.

(** X21: [setModels] stores the models of a provider: without repetition
    for [base] and [openrouter], as they come for [ollama]; in both
    cases with the same members in the order of their first
    occurrence.  The loading flag and the other providers are left
    alone, and the registry update receives the list as it was
    passed, repetitions included. *)
Theorem setModels_dedupes provider newModels st :
  (provider <> ollama ->
   NoDup (models (providers (setModels provider newModels st) provider)))
  /\ (provider = ollama ->
      models (providers (setModels provider newModels st) provider) = newModels)
  /\ (forall m, m ∈ models (providers (setModels provider newModels st) provider)
                <-> m ∈ newModels)
  /\ models (providers (setModels provider newModels st) provider) `sublist_of` newModels
  /\ isLoading (providers (setModels provider newModels st) provider)
     = isLoading (providers st provider)
  /\ (forall other, other <> provider ->
        providers (setModels provider newModels st) other = providers st other)
  /\ registryCalls (setModels provider newModels st)
     = registryCalls st ++ updateFunction (PROVIDER_CONFIGS provider) newModels.
Proof.
  destruct (uniqueInOrder_spec ∅ newModels) as (Hn & Hs & He).
  rewrite setModels_models.
  split; [|split; [|split; [|split; [|split; [|split]]]]].
  - intros Hne. by destruct provider.
  - by intros ->.
  - intros m. destruct (dedupeModels _); [|done].
    rewrite He. split; [tauto|]. intros Hm. split; [done|]. apply not_elem_of_empty.
  - by destruct (dedupeModels _).
  - unfold setModels. cbn [providers]. by rewrite setProvider_same.
  - intros other Hne. unfold setModels. cbn [providers]. by apply setProvider_other.
  - done.
Qed.

(** X22: while a fetch for a provider is in progress a second
    [fetchModels] for it does nothing, whatever its request would
    return; the other providers are not marked as loading. *)
Theorem fetch_in_flight_guard provider st loading :
  fetchModelsBegin false provider st = Some loading ->
  isLoading (providers st provider) = false
  /\ isLoading (providers loading provider) = true
  /\ models (providers loading provider) = models (providers st provider)
  /\ fetchModelsBegin false provider loading = None
  /\ (forall result, fetchModels false provider result loading = loading)
  /\ (forall other, other <> provider -> providers loading other = providers st other).
Proof.
  unfold fetchModelsBegin. destruct (isLoading (providers st provider)) eqn:Hl; [done|].
  intros [= <-]. unfold setLoading.
  assert (fetchModelsBegin false provider
            (setProvider provider
               {| models := models (providers st provider); isLoading := true |} st)
          = None) as Hbegin.
  { unfold fetchModelsBegin. by rewrite setProvider_same. }
  split; [done|]. rewrite setProvider_same. split; [done|]. split; [done|].
  split; [done|]. split.
  - intros result. unfold fetchModels. by rewrite Hbegin.
  - intros other Hne. by apply setProvider_other.
Qed.

(** X23: when a fetch ends the provider is no longer loading and holds
    what the request gave: in particular a request that failed, or
    whose answer carries no models, leaves the provider without
    models, whatever it held before.  The other providers are left
    alone. *)
Theorem failed_fetch_clears_models provider result st :
  (forall fetched, result <> Data (Some fetched)) ->
  models (providers (fetchModelsEnd provider result st) provider) = []
  /\ isLoading (providers (fetchModelsEnd provider result st) provider) = false
  /\ (forall other, other <> provider ->
        providers (fetchModelsEnd provider result st) other = providers st other).
Proof.
  intros Hfail.
  assert (fetchProviderModels provider result = []) as Hnone.
  { destruct result as [| | |[fetched|]]; try done. by destruct (Hfail fetched). }
  unfold fetchModelsEnd, setLoading. rewrite Hnone, setProvider_same.
  split; [|split; [done|]].
  - cbn [models]. rewrite setModels_models. by destruct (dedupeModels _).
  - intros other Hne. rewrite setProvider_other by done.
    unfold setModels. cbn [providers]. by apply setProvider_other.
Qed.
End ProvidersFacts.

(** * The file serving route *)

Section FilesServeFacts.
Import FilesServe.
Variable sv : Services.

Lemma bind_Return {A B} (m : Outcome A) (k : A -> Outcome B) b :
  bind m k = Return b -> exists a, m = Return a /\ k a = Return b.
Proof. destruct m as [a|e]; [|done]. intros Hk. by exists a. Qed.

Lemma GET_file request buffer contentType filename :
  GET sv request = FileResponse buffer contentType filename ->
  serve sv request = Return (FileResponse buffer contentType filename).
Proof.
  unfold GET. destruct (serve sv request) as [response|[| |]]; try done. by intros ->.
Qed.

(** X24: a file is served only to an authenticated user to whom
    [verifyFileAccess] granted the very key that is then read: the
    local file of the full path, or the stored object of the cloud
    key. *)
Theorem served_file_was_authorized request buffer contentType filename :
  GET sv request = FileResponse buffer contentType filename ->
  exists segments auth,
    path request = Some segments /\ segments <> []
    /\ checkHybridAuth sv request = Return auth
    /\ success auth = true /\ userId auth <> ""
    /\ ((isUsingCloudStorage sv || isCloudPath segments = true
         /\ exists context,
             verifyFileAccess sv (cloudKeyOf segments) (userId auth)
               (truthyParam (legacyBucketType request)) context false = Return true
             /\ (if bool_decide (context = Some "copilot")
                 then downloadCopilotFile sv (cloudKeyOf segments)
                 else downloadFile sv (cloudKeyOf segments) context) = Return buffer
             /\ filename <> "")
        \/ (isUsingCloudStorage sv || isCloudPath segments = false
            /\ filename = JsString.join "/" segments
            /\ verifyFileAccess sv filename (userId auth) None
                 (inferContextFromKey sv filename) true = Return true
            /\ exists filePath,
                findLocalFile sv filename = Some filePath
                /\ readFile sv filePath = Return buffer)).
Proof.
  intros Hserve%GET_file. unfold serve in Hserve.
  destruct (path request) as [[|segment segments]|] eqn:Hpath; try done.
  apply bind_Return in Hserve as (auth & Hauth & Hserve).
  destruct (negb (success auth) || String.eqb (userId auth) "") eqn:Hok; [done|].
  apply orb_false_iff in Hok as [Hsucc%negb_false_iff Huser%String.eqb_neq].
  exists (segment :: segments), auth.
  split; [done|]. split; [done|]. split; [done|]. split; [done|]. split; [done|].
  destruct (isUsingCloudStorage sv || isCloudPath (segment :: segments)) eqn:Hcloud.
  - left. split; [done|]. unfold handleCloudProxy in Hserve.
    apply bind_Return in Hserve as (hasAccess & Haccess & Hserve).
    destruct hasAccess; [|done]. simpl in Hserve.
    apply bind_Return in Hserve as (fileBuffer & Hdownload & Hserve).
    injection Hserve as <- _ <-.
    eexists. split; [exact Haccess|]. split; [exact Hdownload|].
    by destruct (String.eqb_spec (List.last (JsString.split "/" (cloudKeyOf (segment :: segments))) "") "").
  - right. split; [done|]. unfold handleLocalFile in Hserve.
    apply bind_Return in Hserve as (hasAccess & Haccess & Hserve).
    destruct hasAccess; [|done]. simpl in Hserve.
    destruct (findLocalFile sv _) as [filePath|] eqn:Hfind; [|done].
    destruct (String.eqb filePath ""); [done|].
    apply bind_Return in Hserve as (fileBuffer & Hread & Hserve).
    injection Hserve as <- _ <-.
    split; [done|]. split; [done|]. by exists filePath.
Qed.

(** X25: for a local file a user without access gets the very answer of a
    file that does not exist: the refusal does not tell whether the
    file is there. *)
Theorem denied_access_reads_as_missing request segments auth :
  path request = Some segments ->
  segments <> [] ->
  checkHybridAuth sv request = Return auth ->
  success auth = true ->
  userId auth <> "" ->
  isUsingCloudStorage sv = false ->
  isCloudPath segments = false ->
  verifyFileAccess sv (JsString.join "/" segments) (userId auth) None
    (inferContextFromKey sv (JsString.join "/" segments)) true = Return false
  \/ (verifyFileAccess sv (JsString.join "/" segments) (userId auth) None
        (inferContextFromKey sv (JsString.join "/" segments)) true = Return true
      /\ findLocalFile sv (JsString.join "/" segments) = None) ->
  GET sv request
  = ErrorResponse (FileNotFoundError ("File not found: " +:+ JsString.join "/" segments)).
Proof.
  intros Hpath Hne Hauth Hsucc Huser%String.eqb_neq Hstore Hlocal Hcase.
  unfold GET, serve. rewrite Hpath.
  destruct segments as [|segment segments]; [done|].
  rewrite Hauth. cbn [bind]. rewrite Hsucc, Huser, Hstore, Hlocal. simpl negb. simpl orb.
  cbv iota. unfold handleLocalFile.
  destruct Hcase as [->|[-> Hfind]]; cbn [bind negb]; [done|]. by rewrite Hfind.
Qed.
End FilesServeFacts.

(** An instance of X22: a second fetch for [ollama] while the first is in
    progress. *)
Lemma fetch_in_flight_guard_witness :
  Providers.fetchModelsBegin false Providers.ollama Providers.initialStore
  = Some Fixtures.ollamaLoading
  /\ Providers.fetchModelsBegin false Providers.ollama Fixtures.ollamaLoading = None
  /\ Providers.fetchModels false Providers.ollama
       (Providers.Data (Some ["llama3"])) Fixtures.ollamaLoading
     = Fixtures.ollamaLoading.
Proof.
  assert (Hbegin : Providers.fetchModelsBegin false Providers.ollama Providers.initialStore
                   = Some Fixtures.ollamaLoading) by reflexivity.
  destruct (fetch_in_flight_guard Providers.ollama Providers.initialStore
              Fixtures.ollamaLoading Hbegin) as (_ & _ & _ & Hsecond & Hnoop & _).
  split; [exact Hbegin|]. split; [exact Hsecond | apply Hnoop].
Defined.

(** An instance of X23: a response that is not [ok]. *)
Lemma failed_fetch_clears_models_witness :
  (forall fetched, Providers.ResponseNotOk <> Providers.Data (Some fetched))
  /\ Providers.models
       (Providers.providers
          (Providers.fetchModelsEnd Providers.base Providers.ResponseNotOk
             (Providers.setModels Providers.base ["gpt-4o"] Fixtures.ollamaLoading))
          Providers.base) = [].
Proof.
  assert (Hfailed : forall fetched,
             Providers.ResponseNotOk <> Providers.Data (Some fetched))
    by (intros fetched; discriminate).
  split; [exact Hfailed|].
  exact (proj1 (failed_fetch_clears_models Providers.base Providers.ResponseNotOk
                  (Providers.setModels Providers.base ["gpt-4o"] Fixtures.ollamaLoading)
                  Hfailed)).
Defined.

(** An instance of X24: the file [workspace/a.txt], served to [u1]. *)
Lemma served_file_was_authorized_witness :
  FilesServe.GET Fixtures.localServices (Fixtures.requestFor ["workspace"; "a.txt"])
  = FilesServe.FileResponse "hello" "text/plain" "workspace/a.txt"
  /\ exists segments auth,
      FilesServe.path (Fixtures.requestFor ["workspace"; "a.txt"]) = Some segments
      /\ FilesServe.checkHybridAuth Fixtures.localServices
           (Fixtures.requestFor ["workspace"; "a.txt"]) = FilesServe.Return auth
      /\ FilesServe.success auth = true
      /\ FilesServe.userId auth <> "".
Proof.
  assert (Hserved : FilesServe.GET Fixtures.localServices
                      (Fixtures.requestFor ["workspace"; "a.txt"])
                    = FilesServe.FileResponse "hello" "text/plain" "workspace/a.txt")
    by reflexivity.
  destruct (served_file_was_authorized Fixtures.localServices
              (Fixtures.requestFor ["workspace"; "a.txt"])
              "hello" "text/plain" "workspace/a.txt" Hserved)
    as (segments & auth & Hpath & _ & Hauth & Hsuccess & Huser & _).
  split; [exact Hserved|]. exists segments, auth.
  split; [exact Hpath|]. split; [exact Hauth|]. split; [exact Hsuccess | exact Huser].
Defined.

(** An instance of X25: [workspace/b.txt] exists but [u1] has no access to
    it, and [workspace/c.txt] does not exist; the two answers have the
    same form. *)
Lemma denied_access_reads_as_missing_witness :
  FilesServe.findLocalFile Fixtures.localServices "workspace/b.txt"
  = Some "/data/workspace/b.txt"
  /\ FilesServe.GET Fixtures.localServices (Fixtures.requestFor ["workspace"; "b.txt"])
     = FilesServe.ErrorResponse
         (FilesServe.FileNotFoundError "File not found: workspace/b.txt").
Proof.
  split; [reflexivity|].
  apply (denied_access_reads_as_missing Fixtures.localServices
           (Fixtures.requestFor ["workspace"; "b.txt"]) ["workspace"; "b.txt"] Fixtures.authU1).
  - reflexivity.
  - discriminate.
  - reflexivity.
  - reflexivity.
  - discriminate.
  - reflexivity.
  - reflexivity.
  - left. reflexivity.
Defined.

(** * The connections of a block *)

Section BlockConnectionFacts.
Context `{Externals}.
Variable p : Props.t.

Lemma mapCompletion_normal {A B} (f : A -> Completion B) (g : A -> B) l :
  Forall (fun x => f x = Normal (g x)) l -> mapCompletion f l = Normal (map g l).
Proof.
  induction 1 as [|x l Hx Hl IH]; [done|]. simpl. by rewrite Hx, IH.
Qed.

Lemma mapCompletion_throw {A B} (f : A -> Completion B) l err :
  (forall x e, f x = Throw e -> e = err) ->
  Exists (fun x => exists e, f x = Throw e) l ->
  mapCompletion f l = Throw err.
Proof.
  intros Herr. induction 1 as [x l [e He]|x l Hl IH]; simpl.
  - rewrite He. by rewrite (Herr x e He).
  - destruct (f x) as [y|e] eqn:Hx; [by rewrite IH|].
    by rewrite (Herr x e Hx).
Qed.

Lemma fieldOfProperty_throws name prop e :
  fieldOfProperty name prop = Throw e -> e = typeError.
Proof. destruct prop; simpl; congruence. Qed.

Lemma parse_reference s id :
  JsString.startsWith (JsString.trim s) "<" = true ->
  JsString.includes (JsString.trim s) ">" = true ->
  parseResponseFormatSafely (JStr s) id = Normal (JStr (JsString.trim s))
  /\ Js.truthy (JStr (JsString.trim s)) = true.
Proof.
  intros Hs Hi. unfold parseResponseFormatSafely.
  assert (s <> "") as Hne.
  { intros ->. by vm_compute in Hs. }
  assert (JsString.trim s <> "") as Htrim.
  { intros Heq. rewrite Heq in Hs. by vm_compute in Hs. }
  simpl Js.truthy. simpl Js.isObject.
  destruct (String.eqb_spec s ""); [done|]. simpl negb. cbv iota.
  rewrite Hs, Hi. split; [done|].
  by destruct (String.eqb_spec (JsString.trim s) "").
Qed.

Lemma extractFieldsFromSchema_properties schema properties :
  Js.isObject schema = true ->
  Js.isArray (Js.get schema "fields") = false ->
  Js.get (if Js.truthy (Js.get schema "schema") then Js.get schema "schema" else schema)
         "properties" = JObj properties ->
  extractFieldsFromSchema schema
  = mapCompletion (fun e => fieldOfProperty (fst e) (snd e)) properties.
Proof.
  intros Hobj Hfields Hprops. unfold extractFieldsFromSchema.
  assert (Js.truthy schema = true) as -> by (by destruct schema).
  rewrite Hobj. simpl orb. cbv iota.
  destruct (Js.get schema "fields") eqn:Hf; try done; by rewrite Hprops.
Qed.

(** X26: a connected block whose response format in the sub-block
    store is a reference ([<...>], blanks around it apart) keeps the
    trimmed reference as its response format and has no output
    field, whatever outputs its type declares. *)
Theorem reference_response_format_has_no_fields sourceId b s :
  lookupRecord sourceId (blocks (Props.workflow p)) = Some b ->
  getSubBlockValue sourceId "responseFormat" = JStr s ->
  JsString.startsWith (JsString.trim s) "<" = true ->
  JsString.includes (JsString.trim s) ">" = true ->
  connectedBlock p sourceId
  = Normal (Some {| ConnectedBlock.id := Block.id b;
                    ConnectedBlock.type := Block.type b;
                    ConnectedBlock.outputType := [];
                    ConnectedBlock.name := Block.name b;
                    ConnectedBlock.responseFormat := JStr (JsString.trim s) |}).
Proof.
  intros Hb Hvalue Hs Hi. unfold connectedBlock. rewrite Hb, Hvalue.
  destruct (parse_reference s sourceId Hs Hi) as [-> ->].
  unfold extractFieldsFromSchema. simpl Js.isObject. by rewrite orb_true_r.
Qed.

(** X27: a connected block whose response format parses to a JSON
    schema has one output field per property of the schema, in the
    order of the properties, in place of the outputs its type
    declares; when a property of the schema is [null] the hook throws
    a [TypeError]. *)
Theorem schema_properties_become_fields sourceId b schema properties :
  lookupRecord sourceId (blocks (Props.workflow p)) = Some b ->
  parseResponseFormatSafely (getSubBlockValue sourceId "responseFormat") sourceId
  = Normal schema ->
  Js.isObject schema = true ->
  Js.isArray (Js.get schema "fields") = false ->
  Js.get (if Js.truthy (Js.get schema "schema") then Js.get schema "schema" else schema)
         "properties" = JObj properties ->
  (Forall (fun e => snd e <> JNull /\ snd e <> JUndefined) properties ->
   connectedBlock p sourceId
   = Normal (Some {| ConnectedBlock.id := Block.id b;
                     ConnectedBlock.type := Block.type b;
                     ConnectedBlock.outputType := map (fun e => JStr (fst e)) properties;
                     ConnectedBlock.name := Block.name b;
                     ConnectedBlock.responseFormat := schema |}))
  /\ (Exists (fun e => snd e = JNull \/ snd e = JUndefined) properties ->
      connectedBlock p sourceId = Throw typeError).
Proof.
  intros Hb Hparse Hobj Hfields Hprops.
  assert (Htruthy : Js.truthy schema = true) by (by destruct schema).
  unfold connectedBlock. rewrite Hb, Hparse, Htruthy.
  rewrite (extractFieldsFromSchema_properties schema properties Hobj Hfields Hprops).
  split.
  - intros Hall.
    rewrite (mapCompletion_normal _
               (fun e => JObj [("name", JStr (fst e));
                               ("type", if Js.truthy (Js.get (snd e) "type")
                                        then Js.get (snd e) "type" else JStr "string");
                               ("description", Js.get (snd e) "description")])).
    + rewrite (mapCompletion_normal fieldName (fun field => Js.get field "name")).
      * by rewrite map_map.
      * apply Forall_forall. by intros field (e & -> & _)%list_elem_of_fmap.
    + eapply Forall_impl; [exact Hall|]. intros [name prop] [Hnull Hundef]. simpl in *.
      by destruct prop.
  - intros Hone.
    rewrite (mapCompletion_throw _ properties typeError); [done| |].
    + intros e err. apply fieldOfProperty_throws.
    + eapply Exists_impl; [exact Hone|]. intros [name prop] [Heq|Heq];
        simpl in Heq; rewrite Heq; by eexists.
Qed.

(** X28: a connected block without a response format has one output
    field per output its type declares, in their order. *)
Theorem declared_outputs_become_fields sourceId b responseFormat :
  lookupRecord sourceId (blocks (Props.workflow p)) = Some b ->
  parseResponseFormatSafely (getSubBlockValue sourceId "responseFormat") sourceId
  = Normal responseFormat ->
  Js.truthy responseFormat = false ->
  connectedBlock p sourceId
  = Normal (Some {| ConnectedBlock.id := Block.id b;
                    ConnectedBlock.type := Block.type b;
                    ConnectedBlock.outputType :=
                      map (fun e => JStr (fst e))
                          (getBlockOutputs (Block.type b) (getMergedSubBlocks p sourceId)
                                           (Block.triggerMode b));
                    ConnectedBlock.name := Block.name b;
                    ConnectedBlock.responseFormat := responseFormat |}).
Proof.
  intros Hb Hparse Hfalsy. unfold connectedBlock. rewrite Hb, Hparse, Hfalsy.
  rewrite (mapCompletion_normal fieldName (fun field => Js.get field "name")).
  - unfold fieldsOfOutputs. by rewrite map_map.
  - apply Forall_forall. unfold fieldsOfOutputs.
    by intros field (e & -> & _)%list_elem_of_fmap.
Qed.
End BlockConnectionFacts.

(** The connections of [next] in [starter -> fmt -> next]. *)
Example useBlockConnections_next :
  exists all,
    @useBlockConnections Fixtures.hookExternals Fixtures.hookProps
    = Normal {| Connections.incomingConnections := all;
                Connections.directIncomingConnections :=
                  [{| ConnectedBlock.id := "fmt";
                      ConnectedBlock.type := "agent";
                      ConnectedBlock.outputType := [];
                      ConnectedBlock.name := "Formatter";
                      ConnectedBlock.responseFormat := JStr "<start.schema>" |}];
                Connections.hasIncomingConnections := true |}
    /\ map ConnectedBlock.id all ≡ₚ ["starter"; "fmt"].
Proof. eexists. split; [vm_compute; reflexivity|]. vm_compute. repeat constructor. Qed.

(** An instance of X26: the agent [fmt], whose stored response format
    is the reference [<start.schema>] between blanks. *)
Lemma reference_response_format_has_no_fields_witness :
  @getSubBlockValue Fixtures.hookExternals "fmt" "responseFormat" = JStr " <start.schema> "
  /\ @getBlockOutputs Fixtures.hookExternals "agent"
       (@getMergedSubBlocks Fixtures.hookProps "fmt") false
     = [("content", JStr "string"); ("model", JStr "string")]
  /\ @connectedBlock Fixtures.hookExternals Fixtures.hookProps "fmt"
     = Normal (Some {| ConnectedBlock.id := "fmt";
                       ConnectedBlock.type := "agent";
                       ConnectedBlock.outputType := [];
                       ConnectedBlock.name := "Formatter";
                       ConnectedBlock.responseFormat := JStr "<start.schema>" |}).
Proof.
  split; [reflexivity|]. split; [reflexivity|].
  exact (@reference_response_format_has_no_fields Fixtures.hookExternals Fixtures.hookProps
           "fmt" Fixtures.formatBlock " <start.schema> " eq_refl eq_refl eq_refl eq_refl).
Defined.

(** An instance of X27: the agent [sch], whose response format is a
    schema with the property [title], and the agent [bad], in whose
    schema the property [score] is [null]. *)
Lemma schema_properties_become_fields_witness :
  @connectedBlock Fixtures.hookExternals Fixtures.hookProps "sch"
  = Normal (Some {| ConnectedBlock.id := "sch";
                    ConnectedBlock.type := "agent";
                    ConnectedBlock.outputType := [JStr "title"];
                    ConnectedBlock.name := "Schema";
                    ConnectedBlock.responseFormat :=
                      JObj [("properties", JObj Fixtures.titleSchema)] |})
  /\ Exists (fun e => snd e = JNull \/ snd e = JUndefined) Fixtures.nullPropertySchema
  /\ @connectedBlock Fixtures.hookExternals Fixtures.hookProps "bad" = Throw typeError.
Proof.
  destruct (@schema_properties_become_fields Fixtures.hookExternals Fixtures.hookProps
              "sch" Fixtures.schemaBlock
              (JObj [("properties", JObj Fixtures.titleSchema)]) Fixtures.titleSchema)
    as [Hfields _]; try reflexivity.
  destruct (@schema_properties_become_fields Fixtures.hookExternals Fixtures.hookProps
              "bad" Fixtures.badBlock
              (JObj [("properties", JObj Fixtures.nullPropertySchema)])
              Fixtures.nullPropertySchema)
    as [_ Hthrows]; try reflexivity.
  assert (Hnull : Exists (fun e => snd e = JNull \/ snd e = JUndefined)
                         Fixtures.nullPropertySchema).
  { apply Exists_cons_tl, Exists_cons_hd. by left. }
  split; [|split; [exact Hnull | exact (Hthrows Hnull)]].
  apply Hfields. repeat constructor; discriminate.
Defined.

(** An instance of X28: the agent [next], which has no response
    format. *)
Lemma declared_outputs_become_fields_witness :
  @parseResponseFormatSafely Fixtures.hookExternals
    (@getSubBlockValue Fixtures.hookExternals "next" "responseFormat") "next"
  = Normal JUndefined
  /\ @connectedBlock Fixtures.hookExternals Fixtures.hookProps "next"
     = Normal (Some {| ConnectedBlock.id := "next";
                       ConnectedBlock.type := "agent";
                       ConnectedBlock.outputType := [JStr "content"; JStr "model"];
                       ConnectedBlock.name := "Next";
                       ConnectedBlock.responseFormat := JUndefined |}).
Proof.
  split; [reflexivity|].
  exact (@declared_outputs_become_fields Fixtures.hookExternals Fixtures.hookProps
           "next" (Block.mk "next" "agent" "Next" false (JObj [])) JUndefined
           eq_refl eq_refl eq_refl).
Defined.

